(** * ascii-rpg: collision, line of sight, breadcrumb pathfinding and enemy AI

    A shallow embedding of the C code of lessons 13 (collision detection)
    and 14 (enemies and AI), and of the item database of lesson 17a, with
    the properties of the grid-world simulation core proved about it.

    Conventions of the embedding.
    - A C [int] is a [Z].  Signed overflow is undefined in C, so the
      embedding describes runs in which coordinates stay in the [int] range.
    - A [char*] map is a [list ascii], addressed as [map[y * width + x]].
      Reading or writing outside an array is undefined behaviour; the
      embedding makes that outcome explicit as [Fault].
    - A [while] loop takes a fuel argument; running out of it is [Timeout].
      The theorems give the fuel for which the loop is guaranteed to finish.
    - A C [float] is a [spec_float] (IEEE 754, binary32 constants). *)

From Stdlib Require Import ZArith List Ascii String Bool Lia.
From Stdlib Require Import Floats.SpecFloat.
From stdpp Require Import base tactics option list numbers.

Open Scope Z_scope.

(** ** Outcomes of a C computation *)

Module Outcome.

Inductive result (A : Type) : Type :=
| Done (a : A)
| Fault
| Timeout.

Arguments Done {A} a.
Arguments Fault {A}.
Arguments Timeout {A}.

Definition bind {A B} (c : result A) (k : A -> result B) : result B :=
  match c with
  | Done a => k a
  | Fault => Fault
  | Timeout => Timeout
  end.

(** [arr[i]] for a C array held in a list. *)
Definition read_at {A} (arr : list A) (i : Z) : result A :=
  if i <? 0 then Fault
  else match arr !! Z.to_nat i with
       | Some a => Done a
       | None => Fault
       end.

(** [arr[i] = v]. *)
Definition write_at {A} (arr : list A) (i : Z) (v : A) : result (list A) :=
  if (0 <=? i) && (i <? Z.of_nat (length arr))
  then Done (<[Z.to_nat i := v]> arr)
  else Fault.

(** A [for] loop over the elements of [l], threading the loop state; a
    counting loop [for (i = 0; i < n; i++)] runs over [seqZ 0 n]. *)
Fixpoint for_each {A S} (body : S -> A -> result S) (l : list A) (s : S)
  : result S :=
  match l with
  | [] => Done s
  | a :: l' => bind (body s a) (for_each body l')
  end.

End Outcome.

Export Outcome.

Notation "x <- c ;; k" := (bind c (fun x => k))
  (at level 100, c at next level, right associativity).


(** ** Lesson 13: collision detection *)

Module Collision.

Inductive CollisionType : Set :=
| COLLISION_NONE
| COLLISION_SOLID
| COLLISION_TRIGGER
| COLLISION_DAMAGE
| COLLISION_SLOW.

Definition CollisionType_eqb (a b : CollisionType) : bool :=
  match a, b with
  | COLLISION_NONE, COLLISION_NONE
  | COLLISION_SOLID, COLLISION_SOLID
  | COLLISION_TRIGGER, COLLISION_TRIGGER
  | COLLISION_DAMAGE, COLLISION_DAMAGE
  | COLLISION_SLOW, COLLISION_SLOW => true
  | _, _ => false
  end.

(** [struct CollisionRule]; its [type] field is [rule_type] here, the name
    [type] being kept for the field of [CollisionResult]. *)
Record CollisionRule : Type := mkRule {
  tile : ascii;
  rule_type : CollisionType;
  damage : Z;
  speedModifier : spec_float
}.

Record LayeredMap : Type := mkMap {
  visual : list ascii;
  collision : list ascii;
  width : Z;
  height : Z
}.

(** [struct Entity]; the linked list of entities is a [list Entity]. *)
Record Entity : Type := mkEntity {
  x : Z;
  y : Z;
  symbol : ascii;
  isSolid : bool;
  isAlive : bool;
  id : Z
}.

Definition set_position (e : Entity) (nx ny : Z) : Entity :=
  mkEntity nx ny (symbol e) (isSolid e) (isAlive e) (id e).

(** [bool CanMoveTo(LayeredMap*, x, y, rules, ruleCount)] *)
Definition CanMoveTo (map : LayeredMap) (nx ny : Z)
    (rules : list CollisionRule) (ruleCount : Z) : result bool :=
  if (nx <? 0) || (nx >=? width map) || (ny <? 0) || (ny >=? height map)
  then Done false
  else
    collisionTile <- read_at (collision map) (ny * width map + nx) ;;
    for_each
      (fun (ok : bool) (i : Z) =>
         if ok then
           r <- read_at rules i ;;
           Done (negb (Ascii.eqb (tile r) collisionTile
                       && CollisionType_eqb (rule_type r) COLLISION_SOLID))
         else Done false)
      (seqZ 0 ruleCount) true.

(** [Entity* GetEntityAt(entityList, x, y, excludeId)] *)
Fixpoint GetEntityAt (entityList : list Entity) (qx qy excludeId : Z)
  : option Entity :=
  match entityList with
  | [] => None
  | current :: rest =>
      if isAlive current && (x current =? qx) && (y current =? qy)
         && negb (id current =? excludeId) && isSolid current
      then Some current
      else GetEntityAt rest qx qy excludeId
  end.

(** The collision responses act on the mover and the target together. *)
Definition PushEntity (mover target : Entity) : Entity * Entity :=
  let dx := x target - x mover in
  let dy := y target - y mover in
  (mover, set_position target (x target + dx) (y target + dy)).

Definition DamageEntity (mover target : Entity) : Entity * Entity :=
  (mover, target).

Definition SwapPositions (mover target : Entity) : Entity * Entity :=
  let tempX := x mover in
  let tempY := y mover in
  (set_position mover (x target) (y target),
   set_position target tempX tempY).

Definition f32_one : spec_float := S754_finite false 8388608 (-23).
Definition f32_half : spec_float := S754_finite false 8388608 (-24).

Definition defaultRules : list CollisionRule :=
  [ mkRule "#" COLLISION_SOLID 0 f32_one;
    mkRule "~" COLLISION_SLOW 0 f32_half;
    mkRule "^" COLLISION_DAMAGE 10 f32_one;
    mkRule "+" COLLISION_SOLID 0 f32_one;
    mkRule "=" COLLISION_TRIGGER 0 f32_one ].

Record CollisionResult : Type := mkResult {
  canMove : bool;
  type : CollisionType;
  entityHit : option Entity;
  tileHit : ascii
}.

(** Step 2 of [CheckAllCollisions], the loop over the five rules: [inl] is
    the [return] from inside the loop, [inr] the result the loop leaves
    behind when it runs to its end. *)
Fixpoint check_rules (rules : list CollisionRule) (t : ascii)
    (result : CollisionResult) : CollisionResult + CollisionResult :=
  match rules with
  | [] => inr result
  | r :: rest =>
      if Ascii.eqb (tile r) t then
        let result1 :=
          mkResult (canMove result) (rule_type r) (entityHit result) t in
        if CollisionType_eqb (rule_type r) COLLISION_SOLID
        then inl (mkResult false (type result1) (entityHit result1)
                    (tileHit result1))
        else check_rules rest t result1
      else check_rules rest t result
  end.

Definition CheckAllCollisions (map : LayeredMap) (entityList : list Entity)
    (mover : Entity) (newX newY : Z) : result CollisionResult :=
  let result0 := mkResult true COLLISION_NONE None "." in
  if (newX <? 0) || (newX >=? width map)
     || (newY <? 0) || (newY >=? height map)
  then Done (mkResult false COLLISION_SOLID (entityHit result0)
               (tileHit result0))
  else
    t <- read_at (collision map) (newY * width map + newX) ;;
    match check_rules defaultRules t result0 with
    | inl returned => Done returned
    | inr result1 =>
        match GetEntityAt entityList newX newY (id mover) with
        | Some hit =>
            if isSolid hit
            then Done (mkResult false COLLISION_SOLID (Some hit)
                         (tileHit result1))
            else Done result1
        | None => Done result1
        end
    end.

(** The input handling of the lesson's [main]: the player is the head of
    the entity list, [rest] its tail; the step gives the player after the
    key press [(dx, dy)]. *)
Definition move_player (map : LayeredMap) (player : Entity)
    (rest : list Entity) (dx dy : Z) : result Entity :=
  if negb (dx =? 0) || negb (dy =? 0) then
    let newX := x player + dx in
    let newY := y player + dy in
    result <- CheckAllCollisions map (player :: rest) player newX newY ;;
    if canMove result
    then Done (set_position player newX newY)
    else Done player
  else Done player.

(** The classification of a collision tile by [defaultRules]. *)
Definition classify_tile (t : ascii) : CollisionType :=
  match find (fun r => Ascii.eqb (tile r) t) defaultRules with
  | Some r => rule_type r
  | None => COLLISION_NONE
  end.

End Collision.

(** ** Lesson 14: enemies and AI *)

Module AI.

Inductive AIState : Set :=
| AI_STATE_IDLE
| AI_STATE_PATROL
| AI_STATE_CHASE
| AI_STATE_FLEE
| AI_STATE_ATTACK
| AI_STATE_SEARCH
| AI_STATE_DEAD.

Inductive AIType : Set :=
| AI_TYPE_ZOMBIE
| AI_TYPE_GOBLIN
| AI_TYPE_GUARD
| AI_TYPE_ARCHER
| AI_TYPE_BOSS.

(** [struct Enemy], without its colour and its [next] link: the linked list
    of enemies is a [list Enemy], an enemy being identified by its place in
    the list. *)
Record Enemy : Type := mkEnemy {
  x : Z;
  y : Z;
  symbol : ascii;
  health : Z;
  maxHealth : Z;
  type : AIType;
  state : AIState;
  sightRange : Z;
  hearingRange : Z;
  canSeePlayer : bool;
  lastSeenPlayerX : Z;
  lastSeenPlayerY : Z;
  moveSpeed : spec_float;
  timeSinceMove : spec_float;
  patrolIndex : Z;
  attackDamage : Z;
  attackCooldown : spec_float;
  timeSinceAttack : spec_float;
  courage : spec_float;
  aggression : spec_float
}.

Record Player : Type := mkPlayer {
  px : Z;
  py : Z;
  phealth : Z;
  pmaxHealth : Z
}.

Definition set_pos (e : Enemy) (nx ny : Z) : Enemy :=
  mkEnemy nx ny (symbol e) (health e) (maxHealth e) (type e) (state e)
    (sightRange e) (hearingRange e) (canSeePlayer e)
    (lastSeenPlayerX e) (lastSeenPlayerY e) (moveSpeed e) (timeSinceMove e)
    (patrolIndex e) (attackDamage e) (attackCooldown e) (timeSinceAttack e)
    (courage e) (aggression e).

Definition set_state (e : Enemy) (s : AIState) : Enemy :=
  mkEnemy (x e) (y e) (symbol e) (health e) (maxHealth e) (type e) s
    (sightRange e) (hearingRange e) (canSeePlayer e)
    (lastSeenPlayerX e) (lastSeenPlayerY e) (moveSpeed e) (timeSinceMove e)
    (patrolIndex e) (attackDamage e) (attackCooldown e) (timeSinceAttack e)
    (courage e) (aggression e).

Definition set_perception (e : Enemy) (sees : bool) (lx ly : Z) : Enemy :=
  mkEnemy (x e) (y e) (symbol e) (health e) (maxHealth e) (type e) (state e)
    (sightRange e) (hearingRange e) sees lx ly
    (moveSpeed e) (timeSinceMove e)
    (patrolIndex e) (attackDamage e) (attackCooldown e) (timeSinceAttack e)
    (courage e) (aggression e).

Definition set_timeSinceMove (e : Enemy) (t : spec_float) : Enemy :=
  mkEnemy (x e) (y e) (symbol e) (health e) (maxHealth e) (type e) (state e)
    (sightRange e) (hearingRange e) (canSeePlayer e)
    (lastSeenPlayerX e) (lastSeenPlayerY e) (moveSpeed e) t
    (patrolIndex e) (attackDamage e) (attackCooldown e) (timeSinceAttack e)
    (courage e) (aggression e).

(** *** binary32 arithmetic *)

Definition f32_add : spec_float -> spec_float -> spec_float := SFadd 24 128.
Definition f32_div : spec_float -> spec_float -> spec_float := SFdiv 24 128.
(** The conversion of an [int] to [float]. *)
Definition f32_of_int (n : Z) : spec_float := binary_normalize 24 128 n 0 false.
Definition f32_zero : spec_float := S754_zero false.
Definition f32_one : spec_float := S754_finite false 8388608 (-23).
(** [0.3f], [0.5f] and [0.7f]: the binary32 values nearest to the decimals. *)
Definition f32_0_3 : spec_float := S754_finite false 10066330 (-25).
Definition f32_0_5 : spec_float := S754_finite false 8388608 (-24).
Definition f32_0_7 : spec_float := S754_finite false 11744051 (-24).

(** *** Perception *)

Definition ManhattanDistance (x1 y1 x2 y2 : Z) : Z :=
  Z.abs (x2 - x1) + Z.abs (y2 - y1).

Definition is_wall (c : ascii) : bool := Ascii.eqb c "#".

(** The [while] loop of [CanSeePosition]: [cx], [cy] and [err] are the loop
    variables [x], [y] and [err]; the other arguments do not change. *)
Fixpoint sight_loop (fuel : nat) (map : list ascii) (mapWidth : Z)
    (targetX targetY dx dy sx sy : Z) (cx cy err : Z) : result bool :=
  if negb (cx =? targetX) || negb (cy =? targetY) then
    match fuel with
    | O => Timeout
    | S fuel' =>
        t <- read_at map (cy * mapWidth + cx) ;;
        if is_wall t then Done false
        else
          let e2 := 2 * err in
          let '(err1, cx1) :=
            if e2 >? - dy then (err - dy, cx + sx) else (err, cx) in
          let '(err2, cy1) :=
            if e2 <? dx then (err1 + dx, cy + sy) else (err1, cy) in
          sight_loop fuel' map mapWidth targetX targetY dx dy sx sy
            cx1 cy1 err2
    end
  else Done true.

Definition CanSeePosition (fuel : nat) (enemy : Enemy) (targetX targetY : Z)
    (map : list ascii) (mapWidth : Z) : result bool :=
  let distance := ManhattanDistance (x enemy) (y enemy) targetX targetY in
  if distance >? sightRange enemy then Done false
  else
    let cx := x enemy in
    let cy := y enemy in
    let dx := Z.abs (targetX - cx) in
    let dy := Z.abs (targetY - cy) in
    let sx := if cx <? targetX then 1 else -1 in
    let sy := if cy <? targetY then 1 else -1 in
    let err := dx - dy in
    sight_loop fuel map mapWidth targetX targetY dx dy sx sy cx cy err.

Definition UpdateEnemyPerception (fuel : nat) (enemy : Enemy)
    (player : Player) (map : list ascii) (mapWidth : Z) : result Enemy :=
  sees <- CanSeePosition fuel enemy (px player) (py player) map mapWidth ;;
  if sees
  then Done (set_perception enemy true (px player) (py player))
  else Done (set_perception enemy false
               (lastSeenPlayerX enemy) (lastSeenPlayerY enemy)).

(** *** The state machine *)

(** The lesson calls functions that it leaves to the reader: the four-argument
    [CanMoveTo(map, mapWidth, x, y)] and the update functions of the patrol,
    flee, attack and search states.  They are parameters of the embedding;
    an update function may change the enemy and the player. *)
Record Exercises : Type := mkExercises {
  CanMoveTo : list ascii -> Z -> Z -> Z -> result bool;
  UpdatePatrolState :
    Enemy -> Player -> list ascii -> Z -> spec_float -> result (Enemy * Player);
  UpdateFleeState :
    Enemy -> Player -> list ascii -> Z -> spec_float -> result (Enemy * Player);
  UpdateAttackState :
    Enemy -> Player -> spec_float -> result (Enemy * Player);
  UpdateSearchState :
    Enemy -> Player -> spec_float -> result (Enemy * Player)
}.

(** [rnd] is the value that the call of [rand()] returns. *)
Definition UpdateIdleState (rnd : Z) (enemy : Enemy) (player : Player)
    (deltaTime : spec_float) : Enemy :=
  let patrol_chance (e : Enemy) :=
    if Z.rem rnd 1000 <? 5 then set_state e AI_STATE_PATROL else e in
  if canSeePlayer enemy then
    let distanceToPlayer :=
      f32_of_int (ManhattanDistance (x enemy) (y enemy) (px player) (py player))
    in
    if SFltb (courage enemy) f32_0_3 && SFltb distanceToPlayer (f32_of_int 5)
    then set_state enemy AI_STATE_FLEE
    else if SFltb f32_0_7 (aggression enemy)
    then set_state enemy AI_STATE_CHASE
    else patrol_chance enemy
  else patrol_chance enemy.

Definition MoveTowardsTarget (ex : Exercises) (enemy : Enemy)
    (targetX targetY : Z) (map : list ascii) (mapWidth : Z) : result Enemy :=
  let dx := targetX - x enemy in
  let dy := targetY - y enemy in
  let moveX := if dx >? 0 then 1 else -1 in
  let moveY := if dy >? 0 then 1 else -1 in
  if Z.abs dx >? Z.abs dy then
    h <- CanMoveTo ex map mapWidth (x enemy + moveX) (y enemy) ;;
    if h then Done (set_pos enemy (x enemy + moveX) (y enemy))
    else
      v <- CanMoveTo ex map mapWidth (x enemy) (y enemy + moveY) ;;
      if v then Done (set_pos enemy (x enemy) (y enemy + moveY))
      else Done enemy
  else
    v <- CanMoveTo ex map mapWidth (x enemy) (y enemy + moveY) ;;
    if v then Done (set_pos enemy (x enemy) (y enemy + moveY))
    else
      h <- CanMoveTo ex map mapWidth (x enemy + moveX) (y enemy) ;;
      if h then Done (set_pos enemy (x enemy + moveX) (y enemy))
      else Done enemy.

Definition UpdateChaseState (ex : Exercises) (enemy : Enemy) (player : Player)
    (map : list ascii) (mapWidth : Z) (deltaTime : spec_float)
  : result Enemy :=
  let enemy := set_timeSinceMove enemy (f32_add (timeSinceMove enemy) deltaTime) in
  if negb (canSeePlayer enemy) then Done (set_state enemy AI_STATE_SEARCH)
  else
    let distance :=
      ManhattanDistance (x enemy) (y enemy) (px player) (py player) in
    if distance <=? 1 then Done (set_state enemy AI_STATE_ATTACK)
    else if SFleb (f32_div f32_one (moveSpeed enemy)) (timeSinceMove enemy)
    then
      moved <- MoveTowardsTarget ex enemy (px player) (py player) map mapWidth ;;
      Done (set_timeSinceMove moved f32_zero)
    else Done enemy.

Definition UpdateEnemyAI (ex : Exercises) (fuel : nat) (rnd : Z)
    (enemy : Enemy) (player : Player) (map : list ascii) (mapWidth : Z)
    (deltaTime : spec_float) : result (Enemy * Player) :=
  enemy <- UpdateEnemyPerception fuel enemy player map mapWidth ;;
  match state enemy with
  | AI_STATE_IDLE => Done (UpdateIdleState rnd enemy player deltaTime, player)
  | AI_STATE_PATROL => UpdatePatrolState ex enemy player map mapWidth deltaTime
  | AI_STATE_CHASE =>
      e <- UpdateChaseState ex enemy player map mapWidth deltaTime ;;
      Done (e, player)
  | AI_STATE_FLEE => UpdateFleeState ex enemy player map mapWidth deltaTime
  | AI_STATE_ATTACK => UpdateAttackState ex enemy player deltaTime
  | AI_STATE_SEARCH => UpdateSearchState ex enemy player deltaTime
  | AI_STATE_DEAD => Done (enemy, player)
  end.

(** *** Breadcrumb pathfinding *)

(** The arrays [dx[] = {0, 0, -1, 1}] and [dy[] = {-1, 1, 0, 0}], read in
    step by the loops over the four neighbours. *)
Definition neighbours : list (Z * Z) := [(0, -1); (0, 1); (-1, 0); (1, 0)].

Definition INT_MAX : Z := 2147483647.

(** The loop state of the flood fill is [distanceMap] and [changed].  The
    body of the loop over the neighbours of [(cx, cy)]: *)
Definition visit_neighbour (map : list ascii) (mapWidth mapHeight : Z)
    (currentDistance cx cy : Z) (st : list Z * bool) (d : Z * Z)
  : result (list Z * bool) :=
  let nx := cx + fst d in
  let ny := cy + snd d in
  if (nx >=? 0) && (nx <? mapWidth) && (ny >=? 0) && (ny <? mapHeight) then
    t <- read_at map (ny * mapWidth + nx) ;;
    if negb (is_wall t) then
      v <- read_at (fst st) (ny * mapWidth + nx) ;;
      if v =? -1 then
        distanceMap <- write_at (fst st) (ny * mapWidth + nx)
                         (currentDistance + 1) ;;
        Done (distanceMap, true)
      else Done st
    else Done st
  else Done st.

(** The body of the loop over [x]. *)
Definition visit_cell (map : list ascii) (mapWidth mapHeight : Z)
    (currentDistance cy : Z) (st : list Z * bool) (cx : Z)
  : result (list Z * bool) :=
  v <- read_at (fst st) (cy * mapWidth + cx) ;;
  if v =? currentDistance
  then for_each
         (visit_neighbour map mapWidth mapHeight currentDistance cx cy)
         neighbours st
  else Done st.

(** The body of the loop over [y]. *)
Definition visit_row (map : list ascii) (mapWidth mapHeight : Z)
    (currentDistance : Z) (st : list Z * bool) (cy : Z)
  : result (list Z * bool) :=
  for_each (visit_cell map mapWidth mapHeight currentDistance cy)
    (seqZ 0 mapWidth) st.

(** One turn of the [while (changed)] loop, before [currentDistance++]. *)
Definition flood_pass (map : list ascii) (mapWidth mapHeight : Z)
    (currentDistance : Z) (distanceMap : list Z) : result (list Z * bool) :=
  for_each (visit_row map mapWidth mapHeight currentDistance)
    (seqZ 0 mapHeight) (distanceMap, false).

Fixpoint flood (fuel : nat) (map : list ascii) (mapWidth mapHeight : Z)
    (currentDistance : Z) (distanceMap : list Z) : result (list Z) :=
  match fuel with
  | O => Timeout
  | S fuel' =>
      st <- flood_pass map mapWidth mapHeight currentDistance distanceMap ;;
      if snd st
      then flood fuel' map mapWidth mapHeight (currentDistance + 1) (fst st)
      else Done (fst st)
  end.

(** The first half of [MoveWithBreadcrumbs]: the distance map from
    [calloc], every cell set to -1, then the target to 0, then the flood
    fill. *)
Definition distance_field (fuel : nat) (targetX targetY : Z)
    (map : list ascii) (mapWidth mapHeight : Z) : result (list Z) :=
  let distanceMap := replicate (Z.to_nat (mapWidth * mapHeight)) 0 in
  distanceMap <- for_each (fun dm i => write_at dm i (-1))
                   (seqZ 0 (mapWidth * mapHeight)) distanceMap ;;
  distanceMap <- write_at distanceMap (targetY * mapWidth + targetX) 0 ;;
  flood fuel map mapWidth mapHeight 0 distanceMap.

(** The second half: the loop over the cells next to the enemy, its state
    being [(bestX, bestY, bestDistance)]. *)
Definition consider_neighbour (map : list ascii) (mapWidth mapHeight : Z)
    (distanceMap : list Z) (enemy : Enemy) (best : Z * Z * Z) (d : Z * Z)
  : result (Z * Z * Z) :=
  let nx := x enemy + fst d in
  let ny := y enemy + snd d in
  if (nx >=? 0) && (nx <? mapWidth) && (ny >=? 0) && (ny <? mapHeight) then
    t <- read_at map (ny * mapWidth + nx) ;;
    if negb (is_wall t) then
      dist <- read_at distanceMap (ny * mapWidth + nx) ;;
      if (dist >=? 0) && (dist <? snd best)
      then Done (nx, ny, dist)
      else Done best
    else Done best
  else Done best.

Definition best_move (map : list ascii) (mapWidth mapHeight : Z)
    (distanceMap : list Z) (enemy : Enemy) : result (Z * Z * Z) :=
  for_each (consider_neighbour map mapWidth mapHeight distanceMap enemy)
    neighbours (x enemy, y enemy, INT_MAX).

Definition MoveWithBreadcrumbs (fuel : nat) (enemy : Enemy)
    (targetX targetY : Z) (map : list ascii) (mapWidth mapHeight : Z)
  : result Enemy :=
  distanceMap <- distance_field fuel targetX targetY map mapWidth mapHeight ;;
  best <- best_move map mapWidth mapHeight distanceMap enemy ;;
  Done (set_pos enemy (fst (fst best)) (snd (fst best))).

(** *** Alerts and the update loop of [main] *)

Record AlertSystem : Type := mkAlert {
  alertX : Z;
  alertY : Z;
  alertTime : spec_float;
  alerterId : Z
}.

(** [alerter] is the place of the alerting enemy in the list; the test
    [current != alerter] compares places. *)
Definition RaiseAlert (alerter : nat) (allEnemies : list Enemy)
    (alerts : AlertSystem) : list Enemy * AlertSystem :=
  match allEnemies !! alerter with
  | None => (allEnemies, alerts)
  | Some a =>
      let alerts' := mkAlert (x a) (y a) f32_zero (Z.of_nat alerter) in
      (imap
         (fun i current =>
            if negb (Nat.eqb i alerter)
               && match state current with AI_STATE_IDLE => true | _ => false end
            then
              let distance :=
                ManhattanDistance (x current) (y current) (x a) (y a) in
              if distance <=? hearingRange current then
                match type current with
                | AI_TYPE_GUARD =>
                    set_perception (set_state current AI_STATE_SEARCH)
                      (canSeePlayer current) (alertX alerts') (alertY alerts')
                | _ =>
                    if SFltb (courage current) f32_0_5
                    then set_state current AI_STATE_FLEE
                    else current
                end
              else current
            else current)
         allEnemies,
       alerts')
  end.

(** The state of the update loop. *)
Record World : Type := mkWorld {
  enemies : list Enemy;
  player : Player;
  alerts : AlertSystem;
  anyoneSeesPlayer : bool
}.

(** The body of the loop "update all enemies" for the enemy at place [i];
    [rnd i] is the value of [rand()] during that update. *)
Definition update_enemy (ex : Exercises) (fuel : nat) (rnd : nat -> Z)
    (map : list ascii) (mapWidth : Z) (deltaTime : spec_float)
    (w : World) (i : nat) : result World :=
  match enemies w !! i with
  | None => Done w
  | Some current =>
      match state current with
      | AI_STATE_DEAD => Done w
      | _ =>
          r <- UpdateEnemyAI ex fuel (rnd i) current (player w) map mapWidth
                 deltaTime ;;
          let current' := fst r in
          let es := <[i := current']> (enemies w) in
          if canSeePlayer current' then
            if SFltb (alertTime (alerts w)) f32_zero then
              let ra := RaiseAlert i es (alerts w) in
              Done (mkWorld (fst ra) (snd r) (snd ra) true)
            else Done (mkWorld es (snd r) (alerts w) true)
          else Done (mkWorld es (snd r) (alerts w) (anyoneSeesPlayer w))
      end
  end.

Definition update_enemies (ex : Exercises) (fuel : nat) (rnd : nat -> Z)
    (map : list ascii) (mapWidth : Z) (deltaTime : spec_float)
    (w : World) : result World :=
  for_each (update_enemy ex fuel rnd map mapWidth deltaTime)
    (seq 0 (length (enemies w)))
    (mkWorld (enemies w) (player w) (alerts w) false).

End AI.

(** ** Lesson 13: spatial partitioning *)

Module Partition.
Import Collision.

Definition GRID_SIZE : Z := 10.

(** [struct SpatialGrid].  The cell [grid[y][x]] is the list of its nodes;
    a node holds an [Entity*], here the place of the entity in the store of
    the entities.  The allocations are taken to succeed. *)
Record SpatialGrid : Type := mkGrid {
  grid : list (list (list nat));
  gridWidth : Z;
  gridHeight : Z
}.

(** The rows are built by the loop over [y], the cells of a row, all empty,
    by the loop over [x]. *)
Definition CreateSpatialGrid (worldWidth worldHeight : Z) : SpatialGrid :=
  let gw := Z.quot (worldWidth + GRID_SIZE - 1) GRID_SIZE in
  let gh := Z.quot (worldHeight + GRID_SIZE - 1) GRID_SIZE in
  mkGrid ((fun _ => (fun _ => []) <$> seqZ 0 gw) <$> seqZ 0 gh) gw gh.

(** The two results come back through [gridX] and [gridY]; the division of
    C rounds towards zero. *)
Definition GetGridCell (entityX entityY : Z) : Z * Z :=
  (Z.quot entityX GRID_SIZE, Z.quot entityY GRID_SIZE).

(** [node->entity]: following a pointer that leads to no entity is a
    fault. *)
Definition entity_of (store : list Entity) (node : nat) : result Entity :=
  match store !! node with
  | Some e => Done e
  | None => Fault
  end.

(** The [while] loop over the nodes of one cell. *)
Fixpoint check_nodes (store : list Entity) (nodes : list nat)
    (entity : Entity) (newX newY : Z) : result bool :=
  match nodes with
  | [] => Done false
  | node :: next =>
      e <- entity_of store node ;;
      if (x e =? newX) && (y e =? newY) && negb (id e =? id entity)
      then Done true
      else check_nodes store next entity newX newY
  end.

(** The body of the loop over [dx]; [found] records that the function has
    returned true. *)
Definition check_cell (store : list Entity) (sg : SpatialGrid)
    (entity : Entity) (newX newY gridX gridY dy : Z) (found : bool) (dx : Z)
  : result bool :=
  if found then Done true
  else
    let checkX := gridX + dx in
    let checkY := gridY + dy in
    if (checkX <? 0) || (checkX >=? gridWidth sg)
       || (checkY <? 0) || (checkY >=? gridHeight sg)
    then Done false
    else
      row <- read_at (grid sg) checkY ;;
      nodes <- read_at row checkX ;;
      check_nodes store nodes entity newX newY.

Definition CheckNearbyCollisions (store : list Entity) (sg : SpatialGrid)
    (entity : Entity) (newX newY : Z) : result bool :=
  let '(gridX, gridY) := GetGridCell newX newY in
  for_each
    (fun found dy =>
       for_each (check_cell store sg entity newX newY gridX gridY dy)
         (seqZ (-1) 3) found)
    (seqZ (-1) 3) false.

End Partition.

(** ** Lesson 13: collision shapes *)

Module Shapes.


Record Rectangle : Type := mkRectangle {
  x : Z;
  y : Z;
  width : Z;
  height : Z
}.

Definition RectangleCollision (r1 r2 : Rectangle) : bool :=
  negb ((x r1 + width r1 <=? x r2)
        || (x r2 + width r2 <=? x r1)
        || (y r1 + height r1 <=? y r2)
        || (y r2 + height r2 <=? y r1)).


End Shapes.

(** ** The keyboard of the two demonstrations *)

Module Input.

(** The keys pressed during one frame. *)
Record Keys : Type := mkKeys {
  KEY_W : bool;
  KEY_S : bool;
  KEY_A : bool;
  KEY_D : bool
}.

(** [dx] and [dy] as the four [if (IsKeyPressed(...))] set them. *)
Definition direction (k : Keys) : Z * Z :=
  let dy := if KEY_W k then -1 else 0 in
  let dy := if KEY_S k then 1 else dy in
  let dx := if KEY_A k then -1 else 0 in
  let dx := if KEY_D k then 1 else dx in
  (dx, dy).

End Input.

(** ** Lesson 13: the demonstration *)

Module CollisionDemo.
Import Collision Input.

(** The string literal copied into [map.visual]. *)
Definition visual_rows : list string :=
  [ "####################";
    "#..................#";
    "#..................#";
    "#...~~~~...........#";
    "#...~~~~...........#";
    "#..................#";
    "#......===.........#";
    "#..................#";
    "#...^^^^...........#";
    "#..................#";
    "#..................#";
    "#..................#";
    "#..................#";
    "#..................#";
    "####################" ]%string.

Definition visual_tiles : list ascii :=
  concat (list_ascii_of_string <$> visual_rows).

(** [strcpy(dest, src)] writes the characters of [src] and then the
    terminating NUL to [dest], from its start. *)
Definition strcpy (dest src : list ascii) : result (list ascii) :=
  for_each (fun d ic => write_at d (Z.of_nat (fst ic)) (snd ic))
    (imap (fun i c => (i, c)) (src ++ ["000"%char])) dest.

(** The first statements of [main]: [map.visual], [fresh] from
    [malloc(map.width * map.height)], is filled by [strcpy]. *)
Definition load_visual (fresh : list ascii) : result (list ascii) :=
  strcpy fresh visual_tiles.

(** The layers that [main] means to build: the visual layer holds the
    characters of the literal, and the collision layer is a copy of it with
    the three invisible walls written over it. *)
Definition demo_map : result LayeredMap :=
  let w := 20 in
  let h := 15 in
  collision <- for_each (fun c i => write_at c (10 * w + 10 + i) "#"%char)
                 (seqZ 0 3) visual_tiles ;;
  Done (mkMap visual_tiles collision w h).

Definition demo_player : Entity := mkEntity 5 5 "@" true true 1.

Definition demo_npc : Entity := mkEntity 10 5 "N" true true 2.

(** The input handling of one frame, and the frames one after the other:
    the part of the main loop that changes the entities. *)
Definition handle_input (map : LayeredMap) (rest : list Entity)
    (player : Entity) (k : Keys) : result Entity :=
  let '(dx, dy) := direction k in
  move_player map player rest dx dy.

Definition play (map : LayeredMap) (rest : list Entity) (player : Entity)
    (frames : list Keys) : result Entity :=
  for_each (handle_input map rest) frames player.

End CollisionDemo.

(** ** Lesson 14: smarter movement, personalities and groups *)

Module Squad.
Import AI.

(** [MoveTowardsTargetSmart] calls a [CanMoveTo(x, y, map, mapWidth,
    mapHeight)] that the lesson does not give; it is the parameter
    [canMoveTo]. *)
Definition MoveTowardsTargetSmart
    (canMoveTo : Z -> Z -> list ascii -> Z -> Z -> result bool)
    (enemy : Enemy) (targetX targetY : Z)
    (map : list ascii) (mapWidth mapHeight : Z) : result Enemy :=
  let dx := if targetX >? x enemy then 1
            else if targetX <? x enemy then -1 else 0 in
  let dy := if targetY >? y enemy then 1
            else if targetY <? y enemy then -1 else 0 in
  direct_x <- (if negb (dx =? 0)
               then canMoveTo (x enemy + dx) (y enemy) map mapWidth mapHeight
               else Done false) ;;
  if direct_x then Done (set_pos enemy (x enemy + dx) (y enemy))
  else
    direct_y <- (if negb (dy =? 0)
                 then canMoveTo (x enemy) (y enemy + dy) map mapWidth mapHeight
                 else Done false) ;;
    if direct_y then Done (set_pos enemy (x enemy) (y enemy + dy))
    else if negb (dx =? 0) then
      down <- canMoveTo (x enemy) (y enemy + 1) map mapWidth mapHeight ;;
      if down then Done (set_pos enemy (x enemy) (y enemy + 1))
      else
        up <- canMoveTo (x enemy) (y enemy - 1) map mapWidth mapHeight ;;
        if up then Done (set_pos enemy (x enemy) (y enemy - 1))
        else Done enemy
    else if negb (dy =? 0) then
      right <- canMoveTo (x enemy + 1) (y enemy) map mapWidth mapHeight ;;
      if right then Done (set_pos enemy (x enemy + 1) (y enemy))
      else
        left <- canMoveTo (x enemy - 1) (y enemy) map mapWidth mapHeight ;;
        if left then Done (set_pos enemy (x enemy - 1) (y enemy))
        else Done enemy
    else Done enemy.

(** *** Personalities *)

Definition f32_0_2 : spec_float := S754_finite false 13421773 (-26).
Definition f32_0_4 : spec_float := S754_finite false 13421773 (-25).
Definition f32_0_6 : spec_float := S754_finite false 10066330 (-24).
Definition f32_0_8 : spec_float := S754_finite false 13421773 (-24).
Definition f32_1_5 : spec_float := S754_finite false 12582912 (-23).
Definition f32_2 : spec_float := S754_finite false 8388608 (-22).

(** [(rand() % 20 - 10) / 100.0f] for the value [rnd] of [rand()]. *)
Definition jitter (rnd : Z) : spec_float :=
  f32_div (f32_of_int (Z.rem rnd 20 - 10)) (f32_of_int 100).

(** [CreateEnemy].  [fresh] is the content of the memory that [malloc]
    returns: the fields that the function does not set keep it.  [rnd1] and
    [rnd2] are the values of the two calls of [rand()].  The list link
    [next] is the place in the list of enemies. *)
Definition CreateEnemy (fresh : Enemy) (rnd1 rnd2 : Z) (ex ey : Z)
    (ty : AIType) : Enemy :=
  let e :=
    mkEnemy ex ey (symbol fresh) (health fresh) (maxHealth fresh) ty
      AI_STATE_IDLE (sightRange fresh) (hearingRange fresh) false
      (lastSeenPlayerX fresh) (lastSeenPlayerY fresh)
      (moveSpeed fresh) (f32_of_int 0) (patrolIndex fresh)
      (attackDamage fresh) (attackCooldown fresh) (f32_of_int 0)
      (courage fresh) (aggression fresh) in
  let typed (sym : ascii) (hp sight hearing : Z) (speed : spec_float)
      (dmg : Z) (cour aggr : spec_float) :=
    mkEnemy (x e) (y e) sym hp hp (type e) (state e) sight hearing
      (canSeePlayer e) (lastSeenPlayerX e) (lastSeenPlayerY e)
      speed (timeSinceMove e) (patrolIndex e) dmg (attackCooldown e)
      (timeSinceAttack e) cour aggr in
  let e :=
    match ty with
    | AI_TYPE_ZOMBIE => typed "z"%char 30 5 3 f32_0_5 10 f32_one f32_one
    | AI_TYPE_GOBLIN => typed "g"%char 15 7 5 f32_2 5 f32_0_2 f32_0_4
    | AI_TYPE_GUARD => typed "G"%char 50 8 6 f32_one 15 f32_0_8 f32_0_6
    | AI_TYPE_ARCHER => typed "a"%char 20 12 4 f32_1_5 8 f32_0_5 f32_0_7
    | AI_TYPE_BOSS => e
    end in
  let courage1 := f32_add (courage e) (jitter rnd1) in
  let aggression1 := f32_add (aggression e) (jitter rnd2) in
  let courage2 := if SFltb courage1 (f32_of_int 0) then f32_of_int 0
                  else courage1 in
  let courage3 := if SFltb (f32_of_int 1) courage2 then f32_of_int 1
                  else courage2 in
  let aggression2 := if SFltb aggression1 (f32_of_int 0) then f32_of_int 0
                     else aggression1 in
  let aggression3 := if SFltb (f32_of_int 1) aggression2 then f32_of_int 1
                     else aggression2 in
  mkEnemy (x e) (y e) (symbol e) (health e) (maxHealth e) (type e) (state e)
    (sightRange e) (hearingRange e) (canSeePlayer e)
    (lastSeenPlayerX e) (lastSeenPlayerY e) (moveSpeed e) (timeSinceMove e)
    (patrolIndex e) (attackDamage e) (attackCooldown e) (timeSinceAttack e)
    courage3 aggression3.

(** *** Flanking *)

(** The counters [alliesNorth], [alliesSouth], [alliesEast] and
    [alliesWest]. *)
Record Allies : Type := mkAllies {
  alliesNorth : Z;
  alliesSouth : Z;
  alliesEast : Z;
  alliesWest : Z
}.

(** The body of the loop over the enemies: [self] is the place of [enemy]
    in the list, and [i] the place of [current]. *)
Definition count_ally (self : nat) (player : Player) (n : Allies)
    (ic : nat * Enemy) : Allies :=
  let '(i, current) := ic in
  if negb (Nat.eqb i self)
     && match state current with AI_STATE_CHASE => true | _ => false end
  then
    let dx := x current - px player in
    let dy := y current - py player in
    if Z.abs dx >? Z.abs dy then
      if dx >? 0
      then mkAllies (alliesNorth n) (alliesSouth n) (alliesEast n + 1)
             (alliesWest n)
      else mkAllies (alliesNorth n) (alliesSouth n) (alliesEast n)
             (alliesWest n + 1)
    else
      if dy >? 0
      then mkAllies (alliesNorth n) (alliesSouth n + 1) (alliesEast n)
             (alliesWest n)
      else mkAllies (alliesNorth n + 1) (alliesSouth n) (alliesEast n)
             (alliesWest n)
  else n.

Definition count_allies (self : nat) (allEnemies : list Enemy)
    (player : Player) : Allies :=
  foldl (count_ally self player) (mkAllies 0 0 0 0)
    (imap (fun i current => (i, current)) allEnemies).

(** The choice of the least crowded direction. *)
Definition flank_target (n : Allies) (player : Player) : Z * Z :=
  let targetX := px player in
  let minAllies := alliesNorth n in
  let targetY := py player - 2 in
  let '(minAllies, targetX, targetY) :=
    if alliesSouth n <? minAllies
    then (alliesSouth n, targetX, py player + 2)
    else (minAllies, targetX, targetY) in
  let '(minAllies, targetX, targetY) :=
    if alliesEast n <? minAllies
    then (alliesEast n, px player + 2, py player)
    else (minAllies, targetX, targetY) in
  let '(targetX, targetY) :=
    if alliesWest n <? minAllies
    then (px player - 2, py player)
    else (targetX, targetY) in
  (targetX, targetY).

(** [UpdateFlankingBehavior] names [map] and [mapWidth] without declaring
    them; they are arguments here.  The enemy is given by its place [self]
    in the list. *)
Definition UpdateFlankingBehavior (ex : Exercises) (self : nat)
    (allEnemies : list Enemy) (player : Player)
    (map : list ascii) (mapWidth : Z) : result (list Enemy) :=
  match allEnemies !! self with
  | None => Fault
  | Some enemy =>
      let '(targetX, targetY) :=
        flank_target (count_allies self allEnemies player) player in
      moved <- MoveTowardsTarget ex enemy targetX targetY map mapWidth ;;
      Done (<[self := moved]> allEnemies)
  end.

End Squad.

(** ** Lesson 14: the demonstration *)

Module AIDemo.
Import AI Input.

Definition mapWidth : Z := 30.
Definition mapHeight : Z := 20.

(** The map of [main]: [memset] with walls, the rooms carved out, then the
    corridor. *)
Definition build_map : result (list ascii) :=
  let map := replicate (Z.to_nat (mapWidth * mapHeight)) "#"%char in
  map <- for_each
           (fun map y =>
              for_each
                (fun map x =>
                   if ((x <? 10) || (x >? 20)) || ((y <? 7) || (y >? 13))
                   then write_at map (y * mapWidth + x) "."%char
                   else Done map)
                (seqZ 1 (mapWidth - 2)) map)
           (seqZ 1 (mapHeight - 2)) map ;;
  for_each (fun map x => write_at map (10 * mapWidth + x) "."%char)
    (seqZ 10 11) map.

(** The loop that looks for an enemy on the tile the player moves to. *)
Fixpoint blocked_by (enemies : list Enemy) (newX newY : Z) : bool :=
  match enemies with
  | [] => false
  | current :: next =>
      if (x current =? newX) && (y current =? newY) then true
      else blocked_by next newX newY
  end.

(** The player input of one frame. *)
Definition player_input (map : list ascii) (mapWidth : Z)
    (enemies : list Enemy) (player : Player) (k : Keys) : result Player :=
  let '(dx, dy) := direction k in
  if negb (dx =? 0) || negb (dy =? 0) then
    let newX := px player + dx in
    let newY := py player + dy in
    t <- read_at map (newY * mapWidth + newX) ;;
    if negb (is_wall t) then
      if negb (blocked_by enemies newX newY)
      then Done (mkPlayer newX newY (phealth player) (pmaxHealth player))
      else Done player
    else Done player
  else Done player.

Definition f32_5 : spec_float := S754_finite false 10485760 (-21).
Definition f32_minus_1 : spec_float := S754_finite true 8388608 (-23).

(** "Update alert timer". *)
Definition update_alert_timer (alerts : AlertSystem) (deltaTime : spec_float)
  : AlertSystem :=
  if SFleb (f32_of_int 0) (alertTime alerts) then
    let t := f32_add (alertTime alerts) deltaTime in
    if SFltb f32_5 t
    then mkAlert (alertX alerts) (alertY alerts) f32_minus_1 (alerterId alerts)
    else mkAlert (alertX alerts) (alertY alerts) t (alerterId alerts)
  else alerts.

End AIDemo.

(** ** Lesson 17a: items *)

Module Items.

(** [enum ItemType]: one bit per category, combined with [|]. *)
Definition ITEM_WEAPON : Z := Z.shiftl 1 0.
Definition ITEM_ARMOR : Z := Z.shiftl 1 1.
Definition ITEM_CONSUMABLE : Z := Z.shiftl 1 2.
Definition ITEM_KEY : Z := Z.shiftl 1 3.
Definition ITEM_MAGICAL : Z := Z.shiftl 1 4.

Inductive ItemRarity : Set :=
| RARITY_COMMON
| RARITY_RARE
| RARITY_EPIC.

(** [struct Item], without its colour. *)
Record Item : Type := mkItem {
  id : Z;
  name : string;
  symbol : ascii;
  type : Z;
  rarity : ItemRarity;
  value : Z;
  damageBonus : Z;
  defenseBonus : Z
}.

(** The test [item.type & flag] of an [if]. *)
Definition has_type (it : Item) (flag : Z) : bool :=
  negb (Z.land (type it) flag =? 0).

Definition MAX_ITEMS : Z := 32.

(** The item database: the array [g_items] and [g_itemCount]. *)
Record Database : Type := mkDatabase {
  g_items : list Item;
  g_itemCount : Z
}.

(** Static storage starts out as zeroes. *)
Definition no_item : Item :=
  mkItem 0 "" "000"%char 0 RARITY_COMMON 0 0 0.

Definition initial : Database :=
  mkDatabase (replicate (Z.to_nat MAX_ITEMS) no_item) 0.

Definition addItem (db : Database) (it : Item) : result Database :=
  if g_itemCount db <? MAX_ITEMS then
    items <- write_at (g_items db) (g_itemCount db) it ;;
    Done (mkDatabase items (g_itemCount db + 1))
  else Done db.

End Items.

(** * Specification vocabulary

    The notions in which the properties of the code are stated, the
    invariants of its loops, and the maps and agents of the scenarios. *)

Module Grid.

(** A map of [w] columns and [h] rows, one character per tile. *)
Definition well_formed (map : list ascii) (w h : Z) : Prop :=
  0 < w /\ 0 < h /\ Z.of_nat (length map) = w * h.

Definition in_bounds (w h : Z) (p : Z * Z) : Prop :=
  0 <= fst p < w /\ 0 <= snd p < h.

End Grid.

Module CollisionSpec.
Import Collision.

(** An entity that blocks the tile [(qx, qy)] for a mover of identifier
    [excludeId]. *)
Definition blocks (qx qy excludeId : Z) (e : Entity) : Prop :=
  isAlive e = true /\ isSolid e = true /\
  x e = qx /\ y e = qy /\ id e <> excludeId.

(** No two live solid entities of the list stand on the same tile. *)
Definition no_overlap (es : list Entity) : Prop :=
  forall i j e1 e2,
    es !! i = Some e1 -> es !! j = Some e2 -> i <> j ->
    isAlive e1 = true -> isSolid e1 = true ->
    isAlive e2 = true -> isSolid e2 = true ->
    (x e1, y e1) <> (x e2, y e2).

Definition out_of_bounds (map : LayeredMap) (nx ny : Z) : Prop :=
  nx < 0 \/ nx >= width map \/ ny < 0 \/ ny >= height map.

(** The tile that [CheckAllCollisions] reports: the destination tile when a
    rule names it, the initial ['.'] otherwise. *)
Definition reported_tile (t : ascii) : ascii :=
  match classify_tile t with
  | COLLISION_NONE => "."%char
  | _ => t
  end.

(** A small map: a pressure plate, a wall and a floor tile in one row. *)
Definition strip : LayeredMap :=
  mkMap ["."; "="; "#"; "."]%char ["."; "="; "#"; "."]%char 4 1.

Definition hero : Entity := mkEntity 0 0 "@" true true 1.

Definition npc : Entity := mkEntity 1 0 "N" true true 2.

End CollisionSpec.

Module AISpec.
Import AI.

(** ** Lines of sight *)

(** One step of the integer line drawing: the state is the current tile and
    the error term. *)
Definition line_step (dx dy sx sy : Z) (p : Z * Z * Z) : Z * Z * Z :=
  let '(cx, cy, err) := p in
  let e2 := 2 * err in
  let '(err1, cx1) := if e2 >? - dy then (err - dy, cx + sx) else (err, cx) in
  let '(err2, cy1) := if e2 <? dx then (err1 + dx, cy + sy) else (err1, cy) in
  (cx1, cy1, err2).

Fixpoint line_from (n : nat) (tx ty dx dy sx sy : Z) (cx cy err : Z)
  : list (Z * Z) :=
  (cx, cy) ::
  if negb (cx =? tx) || negb (cy =? ty) then
    match n with
    | O => []
    | S n' =>
        let '(cx1, cy1, err1) := line_step dx dy sx sy (cx, cy, err) in
        line_from n' tx ty dx dy sx sy cx1 cy1 err1
    end
  else [].

(** The Bresenham line from [(x0, y0)] to [(x1, y1)], both ends included. *)
Definition bresenham_line (x0 y0 x1 y1 : Z) : list (Z * Z) :=
  let dx := Z.abs (x1 - x0) in
  let dy := Z.abs (y1 - y0) in
  let sx := if x0 <? x1 then 1 else -1 in
  let sy := if y0 <? y1 then 1 else -1 in
  line_from (Z.to_nat (dx + dy)) x1 y1 dx dy sx sy x0 y0 (dx - dy).

(** The tiles between the observer and the target: the line without its
    last tile, the target. *)
Definition tested_tiles (x0 y0 x1 y1 : Z) : list (Z * Z) :=
  removelast (bresenham_line x0 y0 x1 y1).

(** Reading the tiles of [pts] in order until one is a wall. *)
Fixpoint scan (map : list ascii) (mapWidth : Z) (pts : list (Z * Z))
  : result bool :=
  match pts with
  | [] => Done true
  | p :: rest =>
      t <- read_at map (snd p * mapWidth + fst p) ;;
      if is_wall t then Done false else scan map mapWidth rest
  end.

(** A tile that can be read and is not a wall; a tile that is a wall. *)
Definition clear_tile (map : list ascii) (mapWidth : Z) (p : Z * Z) : Prop :=
  exists t, read_at map (snd p * mapWidth + fst p) = Done t /\ is_wall t = false.

Definition solid_tile (map : list ascii) (mapWidth : Z) (p : Z * Z) : Prop :=
  exists t, read_at map (snd p * mapWidth + fst p) = Done t /\ is_wall t = true.

(** The tile [p] lies on the straight segment from the centre of tile [a]
    to the centre of tile [b]: the point of the segment at some parameter
    [n / m] between 0 and 1 is in the closed unit square centred on [p]. *)
Definition on_segment (a b p : Z * Z) : Prop :=
  exists n m,
    0 < m /\ 0 <= n <= m /\
    Z.abs (2 * (m * (fst a - fst p) + n * (fst b - fst a))) <= m /\
    Z.abs (2 * (m * (snd a - snd p) + n * (snd b - snd a))) <= m.

Section Line.
Variables (tx ty dx dy sx sy : Z).

(** The loop invariant: [rx] and [ry] are the steps still to take along
    each axis. *)
Definition on_line (cx cy err rx ry : Z) : Prop :=
  (sx = 1 \/ sx = -1) /\ (sy = 1 \/ sy = -1) /\
  0 <= rx <= dx /\ 0 <= ry <= dy /\
  tx = cx + sx * rx /\ ty = cy + sy * ry /\
  err = dx - dy + rx * dy - ry * dx.

(** The line stays within half a tile of the straight segment, measured
    along the minor axis: with [rx] and [ry] steps to go, the cross product
    of what is left with the direction of the segment is at most half the
    longer side. *)
Definition in_band (rx ry : Z) : Prop :=
  Z.abs (2 * (ry * dx - rx * dy)) <= Z.max dx dy.

End Line.

(** ** Distance fields *)

Fixpoint unlabelled (distanceMap : list Z) : nat :=
  match distanceMap with
  | [] => O
  | v :: rest => (if v =? -1 then 1 else 0) + unlabelled rest
  end.

(** The loop state moves on: no cell loses its label, and a state flagged
    as changed has fewer unlabelled cells than one that is not. *)
Definition advances (st st' : list Z * bool) : Prop :=
  (unlabelled (fst st') <= unlabelled (fst st))%nat /\
  (snd st' = true ->
   snd st = true \/ (unlabelled (fst st') < unlabelled (fst st))%nat).

Section Flood.
Variables (map : list ascii) (w h : Z) (tx ty : Z).

Definition inb (cx cy : Z) : Prop := 0 <= cx < w /\ 0 <= cy < h.

(** The label of a cell in a distance map, and the tile of a cell. *)
Definition label (distanceMap : list Z) (cx cy : Z) : Z :=
  default (-1) (distanceMap !! Z.to_nat (cy * w + cx)).

Definition tile_at (cx cy : Z) : ascii :=
  default "#"%char (map !! Z.to_nat (cy * w + cx)).

(** A cell that can be walked on. *)
Definition walkable (cx cy : Z) : Prop :=
  inb cx cy /\ is_wall (tile_at cx cy) = false.

(** [(nx, ny)] is one of the four neighbours of [(cx, cy)]. *)
Definition next_to (cx cy nx ny : Z) : Prop :=
  Z.abs (nx - cx) + Z.abs (ny - cy) = 1.

(** During the turn of the [while] loop for the distance [cur]:
    the seed is labelled 0 and is the only cell so; labels run from -1 (not
    reached) to [cur + 1]; a cell labelled [d >= 1] is walkable and has a
    neighbour labelled [d - 1]; the walkable neighbours of a cell labelled
    below [cur], and the pairs [Q] already handled in this turn, are
    labelled; a labelled walkable neighbour exceeds a labelled cell by at
    most 1; and as long as [changed] is false no label exceeds [cur]. *)
Record inv (cur : Z) (Q : Z -> Z -> Z -> Z -> Prop) (st : list Z * bool)
  : Prop := mk_inv {
  inv_len : Z.of_nat (length (fst st)) = w * h;
  inv_seed : label (fst st) tx ty = 0;
  inv_range : forall cx cy,
    inb cx cy -> -1 <= label (fst st) cx cy <= cur + 1;
  inv_zero : forall cx cy,
    inb cx cy -> label (fst st) cx cy = 0 -> cx = tx /\ cy = ty;
  inv_parent : forall cx cy,
    inb cx cy -> 1 <= label (fst st) cx cy ->
    walkable cx cy /\
    exists qx qy, inb qx qy /\ next_to qx qy cx cy /\
                  label (fst st) qx qy = label (fst st) cx cy - 1;
  inv_closed : forall cx cy nx ny,
    inb cx cy -> next_to cx cy nx ny -> walkable nx ny ->
    0 <= label (fst st) cx cy < cur \/
    (label (fst st) cx cy = cur /\ Q cx cy nx ny) ->
    0 <= label (fst st) nx ny;
  inv_lip : forall cx cy nx ny,
    inb cx cy -> next_to cx cy nx ny -> walkable nx ny ->
    0 <= label (fst st) cx cy -> 0 <= label (fst st) nx ny ->
    label (fst st) nx ny <= label (fst st) cx cy + 1;
  inv_flag : snd st = false ->
    forall cx cy, inb cx cy -> label (fst st) cx cy <= cur
}.

(** A distance map on which the flood fill has come to rest. *)
Definition settled (dm : list Z) : Prop :=
  exists cur, inv cur (fun _ _ _ _ => True) (dm, false).

(** [reach k cx cy]: some walk of [k] steps leads from the seed to
    [(cx, cy)], each step going to a walkable neighbour. *)
Inductive reach : nat -> Z -> Z -> Prop :=
| reach_seed : reach O tx ty
| reach_step k cx cy nx ny :
    reach k cx cy -> next_to cx cy nx ny -> walkable nx ny ->
    reach (S k) nx ny.

(** The distance in steps from the seed: the length of a shortest walk. *)
Definition hops (cx cy : Z) (d : nat) : Prop :=
  reach d cx cy /\ forall k, reach k cx cy -> (d <= k)%nat.

(** [q] is no nearer to the seed than [p]. *)
Definition away (p q : Z * Z) : Prop :=
  exists dp dq, hops (fst p) (snd p) dp /\ hops (fst q) (snd q) dq /\
                (dp <= dq)%nat.

(** A path of neighbouring cells in which every step leads away from the
    seed. *)
Fixpoint leads_away (path : list (Z * Z)) : Prop :=
  match path with
  | p :: (q :: _) as rest =>
      next_to (fst p) (snd p) (fst q) (snd q) /\ away p q /\ leads_away rest
  | _ => True
  end.

Fixpoint non_decreasing (l : list Z) : Prop :=
  match l with
  | a :: (b :: _) as rest => a <= b /\ non_decreasing rest
  | _ => True
  end.

(** A walk over walkable cells in which every step goes one tile further
    from the seed, in Manhattan distance. *)
Fixpoint steps_out (path : list (Z * Z)) : Prop :=
  match path with
  | p :: (q :: _) as rest =>
      next_to (fst p) (snd p) (fst q) (snd q) /\
      walkable (fst q) (snd q) /\
      ManhattanDistance tx ty (fst q) (snd q) =
        ManhattanDistance tx ty (fst p) (snd p) + 1 /\
      steps_out rest
  | _ => True
  end.

End Flood.

(** ** Maps and agents of the scenarios *)

(** An enemy that only looks: position and sight range matter. *)
Definition observer (ox oy range : Z) : Enemy :=
  mkEnemy ox oy "e" 1 1 AI_TYPE_ZOMBIE AI_STATE_IDLE range 0 false 0 0
    f32_one f32_zero 0 0 f32_zero f32_zero f32_one f32_one.

(** The open 5 x 5 map of the scenarios, and the same with a wall at (2,2). *)
Definition open5 : list ascii := replicate 25 "."%char.

Definition walled5 : list ascii := <[12%nat := "#"%char]> open5.

(** The 5 x 5 map whose only wall is the tile (4,4). *)
Definition corner5 : list ascii := <[24%nat := "#"%char]> open5.

(** A timid enemy of the scenarios: courage and aggression 0.1f. *)
Definition f32_0_1 : spec_float := S754_finite false 13421773 (-27).

Definition timid (ex ey range hp : Z) (s : AIState) : Enemy :=
  mkEnemy ex ey "g" hp 15 AI_TYPE_GOBLIN s range 5 false 0 0
    f32_one f32_zero 0 5 f32_zero f32_zero f32_0_1 f32_0_1.

(** The functions left to the reader, taken as doing nothing. *)
Definition idle_exercises : Exercises :=
  mkExercises
    (fun _ _ _ _ => Done false)
    (fun e p _ _ _ => Done (e, p))
    (fun e p _ _ _ => Done (e, p))
    (fun e p _ => Done (e, p))
    (fun e p _ => Done (e, p)).

(** A world with an idle enemy that sees the player and a dead one; no
    alert is active ([alertTime] is -1.0f). *)
Definition two_enemies : World :=
  mkWorld [timid 0 0 10 15 AI_STATE_IDLE; timid 4 4 10 0 AI_STATE_DEAD]
    (mkPlayer 3 0 100 100)
    (mkAlert 0 0 (S754_finite true 8388608 (-23)) (-1)) false.

(** The distance map of the open 5 x 5 map seeded at (4,4). *)
Definition field5 : list Z :=
  [8; 7; 6; 5; 4;
   7; 6; 5; 4; 3;
   6; 5; 4; 3; 2;
   5; 4; 3; 2; 1;
   4; 3; 2; 1; 0].

(** A corridor of three floor tiles. *)
Definition row3 : list ascii := ["."; "."; "."]%char.

(** The corridor with a wall between the enemy at (0,0) and the target at
    (2,0). *)
Definition blocked3 : list ascii := ["."; "#"; "."]%char.

End AISpec.

Module ShapesSpec.
Import Shapes.

(** The tile [(px, py)] is one of the tiles of the rectangle [r]. *)
Definition covers (r : Rectangle) (px py : Z) : Prop :=
  x r <= px < x r + width r /\ y r <= py < y r + height r.

End ShapesSpec.

Module PassageSpec.
Import Collision CollisionSpec.

(** The rule [r] makes the tile [t] solid. *)
Definition forbids (t : ascii) (r : CollisionRule) : Prop :=
  tile r = t /\ rule_type r = COLLISION_SOLID.

(** The entity [p] stands inside the map, on a tile that the default rules
    do not make solid, and no entity of [others] blocks its tile. *)
Definition stands_free (m : LayeredMap) (others : list Entity) (p : Entity)
  : Prop :=
  ~ out_of_bounds m (x p) (y p) /\
  (exists t, read_at (collision m) (y p * width m + x p) = Done t /\
             classify_tile t <> COLLISION_SOLID) /\
  forall e, In e others -> ~ blocks (x p) (y p) (id p) e.

(** Two entities that differ in their position at most. *)
Definition same_entity (p q : Entity) : Prop :=
  symbol p = symbol q /\ isSolid p = isSolid q /\ isAlive p = isAlive q /\
  id p = id q.

End PassageSpec.

Module PartitionSpec.
Import Collision Partition.

(** The grid has as many rows and cells as its dimensions say. *)
Definition shaped (sg : SpatialGrid) : Prop :=
  length (grid sg) = Z.to_nat (gridHeight sg) /\
  forall row, In row (grid sg) -> length row = Z.to_nat (gridWidth sg).

(** [node] is one of the nodes of the cell [(gx, gy)]. *)
Definition in_cell (sg : SpatialGrid) (gx gy : Z) (node : nat) : Prop :=
  0 <= gx /\ 0 <= gy /\
  exists row nodes,
    grid sg !! Z.to_nat gy = Some row /\ row !! Z.to_nat gx = Some nodes /\
    In node nodes.

(** Every node leads to an entity of the store, and the tile on which that
    entity stands belongs to the cell of the node. *)
Definition up_to_date (store : list Entity) (sg : SpatialGrid) : Prop :=
  forall gx gy node,
    in_cell sg gx gy node ->
    exists e, store !! node = Some e /\ GetGridCell (x e) (y e) = (gx, gy).

(** [e] is an entity other than [entity] on the tile [(newX, newY)]. *)
Definition in_the_way (entity : Entity) (newX newY : Z) (e : Entity) : Prop :=
  x e = newX /\ y e = newY /\ id e <> id entity.

(** A grid over a world of 25 x 15 tiles with the entities of [store]
    registered: the first in the cell (0,0), the second in the cell
    (2,1). *)
Definition store3 : list Entity :=
  [ mkEntity 3 4 "@" true true 1;
    mkEntity 21 12 "N" true false 2 ].

Definition grid3 : SpatialGrid :=
  mkGrid [ [ [0%nat]; []; [] ]; [ []; []; [1%nat] ] ] 3 2.

End PartitionSpec.

Module CollisionDemoSpec.
Import Collision CollisionDemo Input.

(** The map that [main] builds. *)
Definition demo_layers : LayeredMap :=
  match demo_map with
  | Done m => m
  | _ => mkMap [] [] 0 0
  end.

(** Up and right together, then left, then down twice. *)
Definition some_frames : list Keys :=
  [ mkKeys true false false true;
    mkKeys false false true false;
    mkKeys false true false false;
    mkKeys false true false false ].

End CollisionDemoSpec.

Module SquadSpec.
Import AI Squad.

(** What no movement or perception changes: the looks, the health and the
    character of an enemy. *)
Definition keeps_traits (e e' : Enemy) : Prop :=
  symbol e' = symbol e /\ health e' = health e /\
  maxHealth e' = maxHealth e /\ type e' = type e /\
  sightRange e' = sightRange e /\ hearingRange e' = hearingRange e /\
  moveSpeed e' = moveSpeed e /\ patrolIndex e' = patrolIndex e /\
  attackDamage e' = attackDamage e /\
  attackCooldown e' = attackCooldown e /\
  timeSinceAttack e' = timeSinceAttack e /\
  courage e' = courage e /\ aggression e' = aggression e.

(** [e'] is [e] or [e] moved to one of the four tiles next to it. *)
Definition stepped (e e' : Enemy) : Prop :=
  e' = e \/
  exists nx ny, e' = set_pos e nx ny /\
                Z.abs (nx - x e) + Z.abs (ny - y e) = 1.

(** A [CanMoveTo] that lets every move through, and one that lets none. *)
Definition open_ground : Exercises :=
  mkExercises
    (fun _ _ _ _ => Done true)
    (fun e p _ _ _ => Done (e, p))
    (fun e p _ _ _ => Done (e, p))
    (fun e p _ => Done (e, p))
    (fun e p _ => Done (e, p)).

(** *** Personalities *)

(** The values that [(rand() % 20 - 10) / 100.0f] takes. *)
Definition jitters : list spec_float :=
  (fun k => f32_div (f32_of_int (k - 10)) (f32_of_int 100)) <$> seqZ 0 20.

Definition within01 (c : spec_float) : bool :=
  SFleb (f32_of_int 0) c && SFleb c (f32_of_int 1).

(** The two [if] that bring a trait back between 0 and 1. *)
Definition clamped (c : spec_float) : spec_float :=
  let c := if SFltb c (f32_of_int 0) then f32_of_int 0 else c in
  if SFltb (f32_of_int 1) c then f32_of_int 1 else c.

(** The courage and the aggression that the [switch] gives each type. *)
Definition base_courage (fresh : Enemy) (ty : AIType) : spec_float :=
  match ty with
  | AI_TYPE_ZOMBIE => f32_one
  | AI_TYPE_GOBLIN => f32_0_2
  | AI_TYPE_GUARD => f32_0_8
  | AI_TYPE_ARCHER => f32_0_5
  | AI_TYPE_BOSS => courage fresh
  end.

Definition base_aggression (fresh : Enemy) (ty : AIType) : spec_float :=
  match ty with
  | AI_TYPE_ZOMBIE => f32_one
  | AI_TYPE_GOBLIN => f32_0_4
  | AI_TYPE_GUARD => f32_0_6
  | AI_TYPE_ARCHER => f32_0_7
  | AI_TYPE_BOSS => aggression fresh
  end.

(** *** Flanking *)

Inductive Side : Set := North | South | East | West.

Definition Side_eqb (a b : Side) : bool :=
  match a, b with
  | North, North | South, South | East, East | West, West => true
  | _, _ => false
  end.

(** The side of the player on which an enemy stands: east or west when it
    is further away along x than along y, south or north otherwise. *)
Definition side_of (player : Player) (current : Enemy) : Side :=
  let dx := x current - px player in
  let dy := y current - py player in
  if Z.abs dx >? Z.abs dy
  then (if dx >? 0 then East else West)
  else (if dy >? 0 then South else North).

(** The allies of the enemy at place [self] that chase the player from the
    side [s]. *)
Definition chasing_from (self : nat) (player : Player) (s : Side)
    (ic : nat * Enemy) : bool :=
  negb (Nat.eqb (fst ic) self)
  && match state (snd ic) with AI_STATE_CHASE => true | _ => false end
  && Side_eqb (side_of player (snd ic)) s.

Definition chasers (self : nat) (allEnemies : list Enemy) (player : Player)
    (s : Side) : Z :=
  Z.of_nat (length (List.filter (chasing_from self player s)
                      (imap (fun i current => (i, current)) allEnemies))).

(** The tile two steps from the player on the side [s]. *)
Definition approach (player : Player) (s : Side) : Z * Z :=
  match s with
  | North => (px player, py player - 2)
  | South => (px player, py player + 2)
  | East => (px player + 2, py player)
  | West => (px player - 2, py player)
  end.

(** The order in which the sides are tried. *)
Definition rank (s : Side) : Z :=
  match s with North => 0 | South => 1 | East => 2 | West => 3 end.

End SquadSpec.

Module AIDemoSpec.
Import AI AISpec AIDemo.

(** The tiles on the edge of the map are walls. *)
Definition walled_in (map : list ascii) (w h : Z) : Prop :=
  forall cx cy,
    inb w h cx cy -> cx = 0 \/ cx = w - 1 \/ cy = 0 \/ cy = h - 1 ->
    is_wall (tile_at map w cx cy) = true.

(** The same, as a test that can be run. *)
Definition edge_is_wall (map : list ascii) (w h : Z) : bool :=
  forallb
    (fun cy =>
       forallb
         (fun cx =>
            implb ((cx =? 0) || (cx =? w - 1) || (cy =? 0) || (cy =? h - 1))
              (is_wall (tile_at map w cx cy)))
         (seqZ 0 w))
    (seqZ 0 h).

(** The map that [main] builds. *)
Definition demo_tiles : list ascii :=
  match build_map with
  | Done map => map
  | _ => []
  end.

(** The player and the four enemies of [main], the garbage in the memory of
    the enemies and the draws of [rand()] left open. *)
Definition demo_hero : Player := mkPlayer 5 10 100 100.

End AIDemoSpec.

Module AlertSpec.
Import AI.




End AlertSpec.

Module ItemsSpec.
Import Items.

(** The five categories. *)
Definition categories : list Z :=
  [ITEM_WEAPON; ITEM_ARMOR; ITEM_CONSUMABLE; ITEM_KEY; ITEM_MAGICAL].

(** The type of an item that belongs to the categories [cs]: their flags
    joined with [|]. *)
Definition joined (cs : list Z) : Z := foldr Z.lor 0 cs.

(** The calls [addItem(it)] for the items of [its], in order. *)
Definition add_all (db : Database) (its : list Item) : result Database :=
  for_each addItem its db.

(** The items in the database: the first [g_itemCount] entries of the
    array. *)
Definition stored (db : Database) : list Item :=
  take (Z.to_nat (g_itemCount db)) (g_items db).

Definition potion : Item :=
  mkItem 1 "Health Potion" "!" ITEM_CONSUMABLE RARITY_COMMON 25 0 0.

End ItemsSpec.

Module TrailSpec.
Import AI.

(** [n] calls of [MoveWithBreadcrumbs] towards the same target. *)
Fixpoint breadcrumb_walk (n : nat) (fuel : nat) (enemy : Enemy)
    (targetX targetY : Z) (map : list ascii) (mapWidth mapHeight : Z)
  : result Enemy :=
  match n with
  | O => Done enemy
  | S n' =>
      moved <- MoveWithBreadcrumbs fuel enemy targetX targetY map
                 mapWidth mapHeight ;;
      breadcrumb_walk n' fuel moved targetX targetY map mapWidth mapHeight
  end.

End TrailSpec.

(** * Grids held in flat arrays *)

Module GridFacts.
Import Grid.

Lemma index_range w h cx cy :
  0 <= cx < w -> 0 <= cy < h -> 0 <= cy * w + cx < w * h.
Proof. intros. nia. Qed.

Lemma index_inj w cx cy cx' cy' :
  0 <= cx < w -> 0 <= cx' < w ->
  cy * w + cx = cy' * w + cx' -> cx = cx' /\ cy = cy'.
Proof.
  intros H1 H2 E.
  assert (cy = cy') as -> by nia. split; [lia|reflexivity].
Qed.

Lemma read_at_Some {A} (arr : list A) (i : Z) (a : A) :
  read_at arr i = Done a <-> 0 <= i /\ arr !! Z.to_nat i = Some a.
Proof.
  unfold read_at. destruct (Z.ltb_spec i 0).
  - split; [discriminate|lia].
  - destruct (arr !! Z.to_nat i) eqn:E; split.
    + intros [= ->]. split; [lia|reflexivity].
    + intros [_ [= ->]]. reflexivity.
    + discriminate.
    + intros [_ [=]].
Qed.

Lemma read_at_in_range {A} (arr : list A) (i : Z) :
  0 <= i < Z.of_nat (length arr) -> exists a, read_at arr i = Done a.
Proof.
  intros Hi. destruct (lookup_lt_is_Some_2 arr (Z.to_nat i)) as [a Ha]; [lia|].
  exists a. apply read_at_Some. split; [lia|assumption].
Qed.

Lemma read_in_bounds map w h p :
  well_formed map w h -> in_bounds w h p ->
  exists t, read_at map (snd p * w + fst p) = Done t.
Proof.
  intros (Hw & Hh & Hlen) [Hx Hy]. apply read_at_in_range.
  rewrite Hlen. apply index_range; assumption.
Qed.

End GridFacts.

(** * Line of sight *)

Module Sight.
Import AI AISpec.

(** ** The loop follows the line *)

#[local] Arguments line_step : simpl never.

Section Line.
Variables (tx ty dx dy sx sy : Z).

#[local] Abbreviation on_line := (AISpec.on_line tx ty dx dy sx sy).
#[local] Abbreviation in_band := (AISpec.in_band dx dy).

Lemma at_target_iff cx cy err rx ry :
  on_line cx cy err rx ry ->
  negb (cx =? tx) || negb (cy =? ty) = false <-> rx = 0 /\ ry = 0.
Proof.
  intros (Hsx & Hsy & Hrx & Hry & Htx & Hty & _).
  rewrite orb_false_iff, !negb_false_iff, !Z.eqb_eq. nia.
Qed.

Lemma moving_pos cx cy err rx ry :
  on_line cx cy err rx ry ->
  negb (cx =? tx) || negb (cy =? ty) = true -> 0 < rx + ry.
Proof.
  intros Hinv E. destruct (Z.eq_dec (rx + ry) 0) as [H0|H0].
  - assert (rx = 0 /\ ry = 0) as H00
      by (destruct Hinv as (_ & _ & ? & ? & _); lia).
    apply (at_target_iff _ _ _ _ _ Hinv) in H00. congruence.
  - destruct Hinv as (_ & _ & ? & ? & _). lia.
Qed.

Lemma at_target cx cy :
  negb (cx =? tx) || negb (cy =? ty) = false -> cx = tx /\ cy = ty.
Proof.
  intros E. apply orb_false_iff in E as [E1 E2].
  apply negb_false_iff, Z.eqb_eq in E1, E2. auto.
Qed.

Lemma line_step_on_line cx cy err rx ry :
  on_line cx cy err rx ry -> 0 < rx + ry ->
  exists cx1 cy1 err1 rx1 ry1,
    line_step dx dy sx sy (cx, cy, err) = (cx1, cy1, err1) /\
    on_line cx1 cy1 err1 rx1 ry1 /\
    rx1 <= rx /\ ry1 <= ry /\ rx1 + ry1 < rx + ry /\
    rx - rx1 <= 1 /\ ry - ry1 <= 1.
Proof.
  intros (Hsx & Hsy & Hrx & Hry & Htx & Hty & Herr) Hpos.
  unfold line_step. rewrite Z.gtb_ltb.
  destruct (Z.ltb_spec (- dy) (2 * err)) as [E1|E1];
    destruct (Z.ltb_spec (2 * err) dx) as [E2|E2].
  - exists (cx + sx), (cy + sy), (err - dy + dx), (rx - 1), (ry - 1).
    assert (1 <= rx) by nia. assert (1 <= ry) by nia.
    split; [reflexivity|]. unfold on_line. repeat split; try lia; nia.
  - exists (cx + sx), cy, (err - dy), (rx - 1), ry.
    assert (1 <= rx) by nia.
    split; [reflexivity|]. unfold on_line. repeat split; try lia; nia.
  - exists cx, (cy + sy), (err + dx), rx, (ry - 1).
    assert (1 <= ry) by nia.
    split; [reflexivity|]. unfold on_line. repeat split; try lia; nia.
  - exfalso. nia.
Qed.


Lemma sight_loop_unfold fuel map w cx cy err :
  sight_loop fuel map w tx ty dx dy sx sy cx cy err =
  if negb (cx =? tx) || negb (cy =? ty) then
    match fuel with
    | O => Timeout
    | S fuel' =>
        t <- read_at map (cy * w + cx) ;;
        if is_wall t then Done false
        else
          let '(cx1, cy1, err1) := line_step dx dy sx sy (cx, cy, err) in
          sight_loop fuel' map w tx ty dx dy sx sy cx1 cy1 err1
    end
  else Done true.
Proof.
  destruct fuel; simpl; [reflexivity|].
  destruct (negb (cx =? tx) || negb (cy =? ty)); [|reflexivity].
  destruct (read_at map (cy * w + cx)); simpl; try reflexivity.
  destruct (is_wall a); [reflexivity|].
  unfold line_step.
  destruct (2 * err >? - dy); destruct (2 * err <? dx); reflexivity.
Qed.

(** With fuel for the steps that remain, the loop reads the tiles of the
    line in order, the target left out. *)
Lemma sight_loop_line map w n :
  forall fuel cx cy err rx ry,
    on_line cx cy err rx ry ->
    (Z.to_nat (rx + ry) <= n)%nat -> (Z.to_nat (rx + ry) <= fuel)%nat ->
    sight_loop fuel map w tx ty dx dy sx sy cx cy err =
    scan map w (removelast (line_from n tx ty dx dy sx sy cx cy err)).
Proof.
  induction n as [|n IH]; intros fuel cx cy err rx ry Hinv Hn Hfuel;
    rewrite sight_loop_unfold; simpl;
    destruct (negb (cx =? tx) || negb (cy =? ty)) eqn:E; try reflexivity.
  - pose proof (moving_pos _ _ _ _ _ Hinv E). lia.
  - pose proof (moving_pos _ _ _ _ _ Hinv E) as Hpos.
    destruct fuel as [|fuel]; [lia|].
    destruct (line_step_on_line _ _ _ _ _ Hinv Hpos)
      as (cx1 & cy1 & err1 & rx1 & ry1 & Hstep & Hinv1 & ? & ? & ? & ? & ?).
    rewrite Hstep.
    assert (exists q l, line_from n tx ty dx dy sx sy cx1 cy1 err1 = q :: l)
      as (q & l & Hl) by (destruct n; simpl; eauto).
    rewrite Hl.
    change (removelast ((cx, cy) :: q :: l))
      with ((cx, cy) :: removelast (q :: l)).
    rewrite <- Hl. cbn [scan fst snd].
    destruct (read_at map (cy * w + cx)) as [t| |]; simpl; try reflexivity.
    destruct (is_wall t); [reflexivity|].
    apply (IH fuel cx1 cy1 err1 rx1 ry1 Hinv1); lia.
Qed.

(** The line ends at the target... *)
Lemma line_from_last n :
  forall cx cy err rx ry,
    on_line cx cy err rx ry -> (Z.to_nat (rx + ry) <= n)%nat ->
    list.last (line_from n tx ty dx dy sx sy cx cy err) = Some (tx, ty).
Proof.
  induction n as [|n IH]; intros cx cy err rx ry Hinv Hn; simpl;
    destruct (negb (cx =? tx) || negb (cy =? ty)) eqn:E;
    try (apply at_target in E as [-> ->]; reflexivity).
  - pose proof (moving_pos _ _ _ _ _ Hinv E). lia.
  - pose proof (moving_pos _ _ _ _ _ Hinv E) as Hpos.
    destruct (line_step_on_line _ _ _ _ _ Hinv Hpos)
      as (cx1 & cy1 & err1 & rx1 & ry1 & Hstep & Hinv1 & ? & ? & ? & ? & ?).
    rewrite Hstep.
    assert (exists q l, line_from n tx ty dx dy sx sy cx1 cy1 err1 = q :: l)
      as (q & l & Hl) by (destruct n; simpl; eauto).
    rewrite Hl. rewrite last_cons_cons. rewrite <- Hl.
    apply (IH cx1 cy1 err1 rx1 ry1 Hinv1). lia.
Qed.

(** ...and every tile of it lies between the current tile and the target,
    at most [rx] columns and [ry] rows before the target; past the first
    tile, strictly nearer to the target. *)
Lemma line_from_box n :
  forall cx cy err rx ry p,
    on_line cx cy err rx ry -> (Z.to_nat (rx + ry) <= n)%nat ->
    In p (line_from n tx ty dx dy sx sy cx cy err) ->
    exists qx qy, 0 <= qx <= rx /\ 0 <= qy <= ry /\
                  tx = fst p + sx * qx /\ ty = snd p + sy * qy /\
                  (p = (cx, cy) \/ qx + qy < rx + ry).
Proof.
  induction n as [|n IH]; intros cx cy err rx ry p Hinv Hn Hin;
    simpl in Hin; (destruct Hin as [<-|Hin];
    [ exists rx, ry; destruct Hinv as (_ & _ & ? & ? & ? & ? & _);
      simpl; repeat split; auto; lia | ]);
    destruct (negb (cx =? tx) || negb (cy =? ty)) eqn:E;
    try (destruct Hin; fail).
  pose proof (moving_pos _ _ _ _ _ Hinv E) as Hpos.
  destruct (line_step_on_line _ _ _ _ _ Hinv Hpos)
    as (cx1 & cy1 & err1 & rx1 & ry1 & Hstep & Hinv1 & ? & ? & ? & ? & ?).
  rewrite Hstep in Hin.
  destruct (IH cx1 cy1 err1 rx1 ry1 p Hinv1 ltac:(lia) Hin)
    as (qx & qy & ? & ? & ? & ? & ?).
  exists qx, qy. repeat split; lia.
Qed.

Lemma line_step_in_band cx cy err rx ry :
  on_line cx cy err rx ry -> in_band rx ry -> 0 < rx + ry ->
  exists cx1 cy1 err1 rx1 ry1,
    line_step dx dy sx sy (cx, cy, err) = (cx1, cy1, err1) /\
    on_line cx1 cy1 err1 rx1 ry1 /\ in_band rx1 ry1 /\
    rx1 <= rx /\ ry1 <= ry /\ rx1 + ry1 < rx + ry.
Proof.
  intros (Hsx & Hsy & Hrx & Hry & Htx & Hty & Herr) Hband Hpos.
  unfold in_band in *. remember (ry * dx - rx * dy) as E eqn:HE.
  assert (err = dx - dy - E) as Herr' by lia.
  unfold line_step. rewrite Z.gtb_ltb.
  destruct (Z.ltb_spec (- dy) (2 * err)) as [E1|E1];
    destruct (Z.ltb_spec (2 * err) dx) as [E2|E2].
  - exists (cx + sx), (cy + sy), (err - dy + dx), (rx - 1), (ry - 1).
    assert (1 <= rx) by nia. assert (1 <= ry) by nia.
    split; [reflexivity|].
    split; [unfold on_line; repeat split; try lia; nia|].
    replace ((ry - 1) * dx - (rx - 1) * dy) with (E - dx + dy) by lia.
    repeat split; lia.
  - exists (cx + sx), cy, (err - dy), (rx - 1), ry.
    assert (1 <= rx) by nia.
    split; [reflexivity|].
    split; [unfold on_line; repeat split; try lia; nia|].
    replace (ry * dx - (rx - 1) * dy) with (E + dy) by lia.
    repeat split; lia.
  - exists cx, (cy + sy), (err + dx), rx, (ry - 1).
    assert (1 <= ry) by nia.
    split; [reflexivity|].
    split; [unfold on_line; repeat split; try lia; nia|].
    replace ((ry - 1) * dx - rx * dy) with (E - dx) by lia.
    repeat split; lia.
  - exfalso. nia.
Qed.

Lemma line_from_in_band n :
  forall cx cy err rx ry p,
    on_line cx cy err rx ry -> in_band rx ry ->
    (Z.to_nat (rx + ry) <= n)%nat ->
    In p (line_from n tx ty dx dy sx sy cx cy err) ->
    exists qx qy, 0 <= qx <= dx /\ 0 <= qy <= dy /\
                  tx = fst p + sx * qx /\ ty = snd p + sy * qy /\
                  in_band qx qy.
Proof.
  induction n as [|n IH]; intros cx cy err rx ry p Hinv Hband Hn Hin;
    simpl in Hin; (destruct Hin as [<-|Hin];
    [ exists rx, ry; destruct Hinv as (_ & _ & ? & ? & ? & ? & _);
      simpl; repeat split; auto; lia | ]);
    destruct (negb (cx =? tx) || negb (cy =? ty)) eqn:E;
    try (destruct Hin; fail).
  pose proof (moving_pos _ _ _ _ _ Hinv E) as Hpos.
  destruct (line_step_in_band _ _ _ _ _ Hinv Hband Hpos)
    as (cx1 & cy1 & err1 & rx1 & ry1 & Hstep & Hinv1 & Hband1 & ? & ? & ?).
  rewrite Hstep in Hin.
  apply (IH cx1 cy1 err1 rx1 ry1 p Hinv1 Hband1 ltac:(lia) Hin).
Qed.

End Line.

Lemma start_on_line x0 y0 x1 y1 :
  on_line x1 y1 (Z.abs (x1 - x0)) (Z.abs (y1 - y0))
    (if x0 <? x1 then 1 else -1) (if y0 <? y1 then 1 else -1)
    x0 y0 (Z.abs (x1 - x0) - Z.abs (y1 - y0))
    (Z.abs (x1 - x0)) (Z.abs (y1 - y0)).
Proof.
  unfold on_line.
  destruct (Z.ltb_spec x0 x1); destruct (Z.ltb_spec y0 y1);
    repeat split; lia.
Qed.

(** ** Facts about the line and the tiles tested *)

Lemma bresenham_line_last x0 y0 x1 y1 :
  list.last (bresenham_line x0 y0 x1 y1) = Some (x1, y1).
Proof.
  unfold bresenham_line.
  eapply line_from_last; [apply start_on_line|lia].
Qed.

Lemma bresenham_line_split x0 y0 x1 y1 :
  bresenham_line x0 y0 x1 y1 = tested_tiles x0 y0 x1 y1 ++ [(x1, y1)].
Proof.
  unfold tested_tiles.
  pose proof (bresenham_line_last x0 y0 x1 y1) as Hlast.
  destruct (bresenham_line x0 y0 x1 y1) as [|q l] eqn:E using rev_ind;
    [discriminate|].
  rewrite last_snoc in Hlast. injection Hlast as ->.
  rewrite removelast_last. reflexivity.
Qed.

(** Every tile of the line lies in the rectangle spanned by its ends. *)
Lemma bresenham_line_box x0 y0 x1 y1 p :
  In p (bresenham_line x0 y0 x1 y1) ->
  Z.min x0 x1 <= fst p <= Z.max x0 x1 /\
  Z.min y0 y1 <= snd p <= Z.max y0 y1.
Proof.
  intros Hin. unfold bresenham_line in Hin.
  eapply line_from_box in Hin; [|apply start_on_line|lia].
  destruct Hin as (qx & qy & Hqx & Hqy & Hx & Hy & _).
  destruct (Z.ltb_spec x0 x1); destruct (Z.ltb_spec y0 y1); lia.
Qed.

Lemma on_segment_sym a b p : on_segment a b p -> on_segment b a p.
Proof.
  intros (n & m & Hm & Hn & Hx & Hy). exists (m - n), m.
  split; [lia|]. split; [lia|]. split.
  - replace (m * (fst b - fst p) + (m - n) * (fst a - fst b))
      with (m * (fst a - fst p) + n * (fst b - fst a)) by ring. exact Hx.
  - replace (m * (snd b - snd p) + (m - n) * (snd a - snd b))
      with (m * (snd a - snd p) + n * (snd b - snd a)) by ring. exact Hy.
Qed.

(** Every tile of the rasterized line lies on the straight segment. *)
Lemma bresenham_line_on_segment x0 y0 x1 y1 p :
  In p (bresenham_line x0 y0 x1 y1) -> on_segment (x0, y0) (x1, y1) p.
Proof.
  intros Hin. unfold bresenham_line in Hin.
  eapply line_from_in_band in Hin;
    [|apply start_on_line|unfold in_band; lia|lia].
  destruct Hin as (qx & qy & Hqx & Hqy & Hx & Hy & Hband).
  unfold in_band in Hband. destruct p as [px py]. cbn [fst snd] in *.
  set (dx := Z.abs (x1 - x0)) in *. set (dy := Z.abs (y1 - y0)) in *.
  set (sx := if x0 <? x1 then 1 else -1) in *.
  set (sy := if y0 <? y1 then 1 else -1) in *.
  assert (x1 - x0 = sx * dx) as Hdx
    by (unfold sx, dx; destruct (Z.ltb_spec x0 x1); lia).
  assert (y1 - y0 = sy * dy) as Hdy
    by (unfold sy, dy; destruct (Z.ltb_spec y0 y1); lia).
  assert (sx * sx = 1) as Hsx2
    by (unfold sx; destruct (x0 <? x1); reflexivity).
  assert (sy * sy = 1) as Hsy2
    by (unfold sy; destruct (y0 <? y1); reflexivity).
  assert (0 <= dx) by (unfold dx; lia). assert (0 <= dy) by (unfold dy; lia).
  assert (Z.abs (2 * (sy * (qy * dx - qx * dy))) <= Z.max dx dy /\
          Z.abs (2 * (sx * (qy * dx - qx * dy))) <= Z.max dx dy)
    as [Hbandy Hbandx].
  { unfold sx, sy. destruct (x0 <? x1); destruct (y0 <? y1); lia. }
  clearbody dx dy sx sy.
  destruct (Z.eq_dec (Z.max dx dy) 0) as [Hzero|Hpos].
  - exists 0, 1. cbn [fst snd].
    assert (dx = 0) by lia. assert (dy = 0) by lia. subst dx dy.
    assert (qx = 0) by lia. assert (qy = 0) by lia. subst qx qy.
    repeat split; lia.
  - destruct (Z.le_ge_cases dy dx) as [Hmajor|Hmajor].
    + exists (dx - qx), dx. cbn [fst snd].
      split; [lia|]. split; [lia|]. split.
      * replace (dx * (x0 - px) + (dx - qx) * (x1 - x0)) with 0; [lia|].
        rewrite Hdx. replace (x0 - px) with (sx * qx - sx * dx) by lia. ring.
      * replace (dx * (y0 - py) + (dx - qx) * (y1 - y0))
          with (sy * (qy * dx - qx * dy)); [lia|].
        rewrite Hdy. replace (y0 - py) with (sy * qy - sy * dy) by lia. ring.
    + exists (dy - qy), dy. cbn [fst snd].
      split; [lia|]. split; [lia|]. split.
      * replace (dy * (x0 - px) + (dy - qy) * (x1 - x0))
          with (- (sx * (qy * dx - qx * dy))); [lia|].
        rewrite Hdx. replace (x0 - px) with (sx * qx - sx * dx) by lia. ring.
      * replace (dy * (y0 - py) + (dy - qy) * (y1 - y0)) with 0; [lia|].
        rewrite Hdy. replace (y0 - py) with (sy * qy - sy * dy) by lia. ring.
Qed.

Lemma tested_self x0 y0 : tested_tiles x0 y0 x0 y0 = [].
Proof.
  unfold tested_tiles, bresenham_line.
  rewrite !Z.sub_diag. simpl. rewrite !Z.eqb_refl. reflexivity.
Qed.

Lemma line_from_cons n tx ty dx dy sx sy cx cy err :
  exists l, line_from n tx ty dx dy sx sy cx cy err = (cx, cy) :: l.
Proof. destruct n; simpl; eauto. Qed.

(** The observer's own tile is the first one tested. *)
Lemma tested_head x0 y0 x1 y1 :
  (x0, y0) <> (x1, y1) ->
  exists l, tested_tiles x0 y0 x1 y1 = (x0, y0) :: l.
Proof.
  intros Hne.
  pose proof (bresenham_line_split x0 y0 x1 y1) as Hsplit.
  destruct (line_from_cons (Z.to_nat (Z.abs (x1 - x0) + Z.abs (y1 - y0)))
              x1 y1 (Z.abs (x1 - x0)) (Z.abs (y1 - y0))
              (if x0 <? x1 then 1 else -1) (if y0 <? y1 then 1 else -1)
              x0 y0 (Z.abs (x1 - x0) - Z.abs (y1 - y0))) as [l Hl].
  fold (bresenham_line x0 y0 x1 y1) in Hl. rewrite Hl in Hsplit.
  destruct (tested_tiles x0 y0 x1 y1) as [|q t].
  - simpl in Hsplit. congruence.
  - simpl in Hsplit. injection Hsplit as <- _. eauto.
Qed.

Lemma removelast_line_not_target n tx ty dx dy sx sy :
  forall cx cy err p,
    In p (removelast (line_from n tx ty dx dy sx sy cx cy err)) ->
    p <> (tx, ty).
Proof.
  induction n as [|n IH]; intros cx cy err p Hin; simpl in Hin;
    destruct (negb (cx =? tx) || negb (cy =? ty)) eqn:E;
    try (destruct Hin; fail).
  destruct (line_step dx dy sx sy (cx, cy, err)) as [[cx1 cy1] err1].
  destruct (line_from_cons n tx ty dx dy sx sy cx1 cy1 err1) as [l Hl].
  rewrite Hl in Hin.
  change (removelast ((cx, cy) :: (cx1, cy1) :: l))
    with ((cx, cy) :: removelast ((cx1, cy1) :: l)) in Hin.
  rewrite <- Hl in Hin. destruct Hin as [<-|Hin].
  - intros [= -> ->]. rewrite !Z.eqb_refl in E. discriminate.
  - eapply IH, Hin.
Qed.

(** The target is not among the tiles tested. *)
Lemma tested_not_target x0 y0 x1 y1 :
  ~ In (x1, y1) (tested_tiles x0 y0 x1 y1).
Proof.
  intros Hin. apply removelast_line_not_target in Hin. congruence.
Qed.

Lemma scan_clear map w pts :
  (forall p, In p pts -> clear_tile map w p) -> scan map w pts = Done true.
Proof.
  induction pts as [|q pts IH]; intros Hall; simpl; [reflexivity|].
  destruct (Hall q (or_introl eq_refl)) as (t & -> & Ht). simpl.
  rewrite Ht. apply IH. intros p Hp. apply Hall. right. exact Hp.
Qed.

Lemma scan_blocked map w pre q post :
  (forall p, In p pre -> clear_tile map w p) -> solid_tile map w q ->
  scan map w (pre ++ q :: post) = Done false.
Proof.
  induction pre as [|a pre IH]; intros Hall (t & Hq & Ht); simpl.
  - rewrite Hq. simpl. rewrite Ht. reflexivity.
  - destruct (Hall a (or_introl eq_refl)) as (ta & -> & Hta). simpl.
    rewrite Hta. apply IH; [|exists t; auto].
    intros p Hp. apply Hall. right. exact Hp.
Qed.

Lemma scan_ext map map' w pts :
  (forall p, In p pts ->
     read_at map' (snd p * w + fst p) = read_at map (snd p * w + fst p)) ->
  scan map' w pts = scan map w pts.
Proof.
  induction pts as [|q pts IH]; intros Hall; simpl; [reflexivity|].
  rewrite (Hall q (or_introl eq_refl)).
  destruct (read_at map (snd q * w + fst q)); simpl; try reflexivity.
  destruct (is_wall a); [reflexivity|].
  apply IH. intros p Hp. apply Hall. right. exact Hp.
Qed.

(** [CanSeePosition] is the range test followed by the scan of the tiles
    tested. *)
Lemma CanSeePosition_scan fuel e tx ty map w :
  (Z.to_nat (ManhattanDistance (x e) (y e) tx ty) <= fuel)%nat ->
  CanSeePosition fuel e tx ty map w =
  if ManhattanDistance (x e) (y e) tx ty >? sightRange e then Done false
  else scan map w (tested_tiles (x e) (y e) tx ty).
Proof.
  intros Hfuel. unfold CanSeePosition, tested_tiles, bresenham_line.
  destruct (ManhattanDistance (x e) (y e) tx ty >? sightRange e);
    [reflexivity|].
  unfold ManhattanDistance in Hfuel.
  eapply sight_loop_line; [apply start_on_line|lia|lia].
Qed.

(** ** The claims about line of sight *)

(** C2.  [CanSeePosition] answers false when the Manhattan distance from the
    observer to the target exceeds the observer's sight range.  Within
    range it reads the tiles of the Bresenham line from the observer to the
    target in order ([scan] over [tested_tiles]) and answers false at the
    first wall, true when there is none: all tiles clear gives true, a wall
    after clear tiles gives false whatever follows it.  On the open 5 x 5
    map an observer at (0,0) with sight range 10 sees (4,4); with a wall at
    (2,2) it does not. *)
Theorem canSee_rasterizes fuel e tx ty map w :
  (Z.to_nat (ManhattanDistance (x e) (y e) tx ty) <= fuel)%nat ->
  (ManhattanDistance (x e) (y e) tx ty > sightRange e ->
   CanSeePosition fuel e tx ty map w = Done false) /\
  (ManhattanDistance (x e) (y e) tx ty <= sightRange e ->
   CanSeePosition fuel e tx ty map w =
   scan map w (tested_tiles (x e) (y e) tx ty)) /\
  (ManhattanDistance (x e) (y e) tx ty <= sightRange e ->
   (forall p, In p (tested_tiles (x e) (y e) tx ty) -> clear_tile map w p) ->
   CanSeePosition fuel e tx ty map w = Done true) /\
  (ManhattanDistance (x e) (y e) tx ty <= sightRange e ->
   forall pre q post,
     tested_tiles (x e) (y e) tx ty = pre ++ q :: post ->
     (forall p, In p pre -> clear_tile map w p) -> solid_tile map w q ->
     CanSeePosition fuel e tx ty map w = Done false) /\
  ((8 <= fuel)%nat ->
   CanSeePosition fuel (observer 0 0 10) 4 4 open5 5 = Done true /\
   CanSeePosition fuel (observer 0 0 10) 4 4 walled5 5 = Done false).
Proof.
  intros Hfuel. pose proof (CanSeePosition_scan fuel e tx ty map w Hfuel) as Heq.
  split; [|split; [|split; [|split]]].
  - intros Hfar. rewrite Heq.
    destruct (Z.gtb_spec (ManhattanDistance (x e) (y e) tx ty) (sightRange e));
      [reflexivity|lia].
  - intros Hnear. rewrite Heq.
    destruct (Z.gtb_spec (ManhattanDistance (x e) (y e) tx ty) (sightRange e));
      [lia|reflexivity].
  - intros Hnear Hclear. rewrite Heq.
    destruct (Z.gtb_spec (ManhattanDistance (x e) (y e) tx ty) (sightRange e));
      [lia|]. apply scan_clear, Hclear.
  - intros Hnear pre q post Hsplit Hclear Hsolid. rewrite Heq.
    destruct (Z.gtb_spec (ManhattanDistance (x e) (y e) tx ty) (sightRange e));
      [lia|]. rewrite Hsplit. apply scan_blocked; assumption.
  - intros H8. rewrite !CanSeePosition_scan by exact H8.
    split; reflexivity.
Qed.

Lemma canSee_rasterizes_witness :
  CanSeePosition 8 (observer 0 0 10) 4 4 walled5 5 =
    scan walled5 5 (tested_tiles 0 0 4 4) /\
  CanSeePosition 8 (observer 0 0 10) 4 4 open5 5 = Done true /\
  CanSeePosition 8 (observer 0 0 10) 4 4 walled5 5 = Done false.
Proof.
  destruct (canSee_rasterizes 8 (observer 0 0 10) 4 4 walled5 5)
    as (_ & Hscan & _ & _ & Hscen).
  - vm_compute. lia.
  - split; [apply Hscan; vm_compute; discriminate|].
    apply Hscen. lia.
Defined.

(** C10.  The tiles tested are those of the Bresenham line from the observer
    to the target without the target: the line is the tested tiles followed
    by the target, the target is not among them, and the observer's own
    tile is the first of them.  The answer depends on the map through these
    tiles only.  So, for a target in range, the scan answers true when the
    tiles tested are clear, whatever stands on the target tile; an observer
    on a wall tile sees no position but its own; and an observer whose
    sight range is not negative sees its own position. *)
Theorem canSee_tests_line_without_target fuel e tx ty map w :
  (Z.to_nat (ManhattanDistance (x e) (y e) tx ty) <= fuel)%nat ->
  bresenham_line (x e) (y e) tx ty =
    tested_tiles (x e) (y e) tx ty ++ [(tx, ty)] /\
  ~ In (tx, ty) (tested_tiles (x e) (y e) tx ty) /\
  ((x e, y e) <> (tx, ty) ->
   exists l, tested_tiles (x e) (y e) tx ty = (x e, y e) :: l) /\
  (forall map',
     (forall p, In p (tested_tiles (x e) (y e) tx ty) ->
        read_at map' (snd p * w + fst p) = read_at map (snd p * w + fst p)) ->
     CanSeePosition fuel e tx ty map' w = CanSeePosition fuel e tx ty map w) /\
  (ManhattanDistance (x e) (y e) tx ty <= sightRange e ->
   (forall p, In p (tested_tiles (x e) (y e) tx ty) -> clear_tile map w p) ->
   CanSeePosition fuel e tx ty map w = Done true) /\
  (solid_tile map w (x e, y e) -> (x e, y e) <> (tx, ty) ->
   CanSeePosition fuel e tx ty map w = Done false) /\
  ((x e, y e) = (tx, ty) -> 0 <= sightRange e ->
   CanSeePosition fuel e tx ty map w = Done true).
Proof.
  intros Hfuel.
  pose proof (CanSeePosition_scan fuel e tx ty map w Hfuel) as Heq.
  split; [apply bresenham_line_split|].
  split; [apply tested_not_target|].
  split; [apply tested_head|].
  split; [|split; [|split]].
  - intros map' Hsame. rewrite Heq, (CanSeePosition_scan _ _ _ _ map') by lia.
    destruct (_ >? _); [reflexivity|]. apply scan_ext, Hsame.
  - intros Hnear Hclear. rewrite Heq.
    destruct (Z.gtb_spec (ManhattanDistance (x e) (y e) tx ty) (sightRange e));
      [lia|]. apply scan_clear, Hclear.
  - intros Hsolid Hne. rewrite Heq.
    destruct (_ >? _); [reflexivity|].
    destruct (tested_head _ _ _ _ Hne) as [l ->].
    apply (scan_blocked map w [] (x e, y e) l); [intros p []|assumption].
  - intros [= <- <-] Hrange. rewrite Heq.
    unfold ManhattanDistance. rewrite !Z.sub_diag, tested_self.
    change (Z.abs 0 + Z.abs 0) with 0.
    destruct (Z.gtb_spec 0 (sightRange e)); [lia|reflexivity].
Qed.

Lemma canSee_tests_line_without_target_witness :
  solid_tile corner5 5 (4, 4) /\
  CanSeePosition 8 (observer 0 0 10) 4 4 corner5 5 = Done true /\
  CanSeePosition 8 (observer 4 4 10) 0 0 corner5 5 = Done false.
Proof.
  split; [exists "#"%char; split; reflexivity|]. split.
  - destruct (canSee_tests_line_without_target 8 (observer 0 0 10) 4 4
                corner5 5) as (_ & _ & _ & _ & Hclear & _).
    + vm_compute. lia.
    + apply Hclear; [vm_compute; discriminate|].
      intros p Hp. vm_compute in Hp.
      destruct Hp as [<-|[<-|[<-|[<-|[]]]]];
        exists "."%char; split; reflexivity.
  - destruct (canSee_tests_line_without_target 8 (observer 4 4 10) 0 0
                corner5 5) as (_ & _ & _ & _ & _ & Hwall & _).
    + vm_compute. lia.
    + apply Hwall; [exists "#"%char; split; reflexivity|discriminate].
Defined.

(** The rasterization depends on the direction: from (0,0) to (2,1) it
    passes through (1,0), from (2,1) to (0,0) through (1,1); both tiles lie
    on the straight segment. *)
Lemma bresenham_line_direction :
  bresenham_line 0 0 2 1 = [(0, 0); (1, 0); (2, 1)] /\
  bresenham_line 2 1 0 0 = [(2, 1); (1, 1); (0, 0)] /\
  on_segment (0, 0) (2, 1) (1, 0) /\ on_segment (0, 0) (2, 1) (1, 1).
Proof.
  split; [reflexivity|]. split; [reflexivity|].
  split; [exists 1, 2|exists 3, 4]; simpl; lia.
Qed.

(** With clear tiles on the lines rasterized from both ends, both answers
    are the range test. *)
Lemma canSee_on_clear_lines fuel a b map w :
  sightRange a = sightRange b ->
  (Z.to_nat (ManhattanDistance (x a) (y a) (x b) (y b)) <= fuel)%nat ->
  (forall p, In p (bresenham_line (x a) (y a) (x b) (y b)) ->
     clear_tile map w p) ->
  (forall p, In p (bresenham_line (x b) (y b) (x a) (y a)) ->
     clear_tile map w p) ->
  CanSeePosition fuel a (x b) (y b) map w =
    Done (ManhattanDistance (x a) (y a) (x b) (y b) <=? sightRange a) /\
  CanSeePosition fuel b (x a) (y a) map w =
    Done (ManhattanDistance (x a) (y a) (x b) (y b) <=? sightRange a).
Proof.
  intros Hrange Hfuel Hab Hba.
  assert (ManhattanDistance (x b) (y b) (x a) (y a) =
          ManhattanDistance (x a) (y a) (x b) (y b)) as Hsym
    by (unfold ManhattanDistance; lia).
  rewrite !CanSeePosition_scan by (rewrite ?Hsym; exact Hfuel).
  rewrite Hsym, <- Hrange, !scan_clear.
  - rewrite Z.gtb_ltb, Z.leb_antisym.
    destruct (_ <? _); split; reflexivity.
  - intros p Hp. apply Hba. rewrite bresenham_line_split.
    apply in_or_app. left. exact Hp.
  - intros p Hp. apply Hab. rewrite bresenham_line_split.
    apply in_or_app. left. exact Hp.
Qed.

(** C6.  On a well-formed map, for two agents inside it with the same sight
    range: when no tile on the straight segment between them is a wall,
    each sees the other's position exactly when the other sees its own;
    both answers are the range test.  (The tiles rasterized from either
    end lie on the segment.) *)
Theorem canSee_symmetric fuel a b map w h :
  Grid.well_formed map w h ->
  Grid.in_bounds w h (x a, y a) -> Grid.in_bounds w h (x b, y b) ->
  sightRange a = sightRange b ->
  (Z.to_nat (ManhattanDistance (x a) (y a) (x b) (y b)) <= fuel)%nat ->
  (forall p, on_segment (x a, y a) (x b, y b) p -> ~ solid_tile map w p) ->
  CanSeePosition fuel a (x b) (y b) map w =
  CanSeePosition fuel b (x a) (y a) map w /\
  CanSeePosition fuel a (x b) (y b) map w =
  Done (ManhattanDistance (x a) (y a) (x b) (y b) <=? sightRange a).
Proof.
  intros Hwf [Hax Hay] [Hbx Hby] Hrange Hfuel Hfree. cbn [fst snd] in *.
  assert (forall p, on_segment (x a, y a) (x b, y b) p ->
            Z.min (x a) (x b) <= fst p <= Z.max (x a) (x b) /\
            Z.min (y a) (y b) <= snd p <= Z.max (y a) (y b) ->
            clear_tile map w p) as Hclear.
  { intros p Hseg Hbox.
    destruct (GridFacts.read_in_bounds map w h p Hwf) as [t Ht].
    { unfold Grid.in_bounds. lia. }
    exists t. split; [exact Ht|].
    destruct (is_wall t) eqn:Hw; [|reflexivity].
    exfalso. apply (Hfree p Hseg). exists t. auto. }
  destruct (canSee_on_clear_lines fuel a b map w Hrange Hfuel) as [Hab Hba].
  - intros p Hp. apply Hclear.
    + apply bresenham_line_on_segment, Hp.
    + apply bresenham_line_box, Hp.
  - intros p Hp. apply Hclear.
    + apply on_segment_sym, bresenham_line_on_segment, Hp.
    + apply bresenham_line_box in Hp. lia.
  - rewrite Hab, Hba. split; reflexivity.
Qed.

Lemma open5_no_wall p : ~ solid_tile open5 5 p.
Proof.
  intros (t & Hread & Hwall). apply GridFacts.read_at_Some in Hread as [_ Hl].
  unfold open5 in Hl. apply lookup_replicate in Hl as [-> _]. discriminate.
Qed.

Lemma canSee_symmetric_witness :
  CanSeePosition 3 (observer 0 0 10) 2 1 open5 5 =
  CanSeePosition 3 (observer 2 1 10) 0 0 open5 5.
Proof.
  apply (canSee_symmetric 3 (observer 0 0 10) (observer 2 1 10) open5 5 5).
  - unfold Grid.well_formed. simpl. lia.
  - unfold Grid.in_bounds. simpl. lia.
  - unfold Grid.in_bounds. simpl. lia.
  - reflexivity.
  - vm_compute. lia.
  - intros p _. apply open5_no_wall.
Defined.

(** Sight is not symmetric without the hypothesis: with a wall on (1,1),
    a tile of the segment between (0,0) and (2,1), the observer at (0,0)
    sees (2,1) and the observer at (2,1) does not see (0,0). *)
Lemma canSee_one_way :
  CanSeePosition 3 (observer 0 0 10) 2 1 (<[6%nat := "#"%char]> open5) 5 =
    Done true /\
  CanSeePosition 3 (observer 2 1 10) 0 0 (<[6%nat := "#"%char]> open5) 5 =
    Done false.
Proof. split; reflexivity. Qed.

(** An observer whose sight range is negative does not see its own
    position: the range test comes first. *)
Lemma canSee_own_position_negative_range :
  sightRange (observer 0 0 (-1)) < 0 /\
  CanSeePosition 0 (observer 0 0 (-1)) 0 0 open5 5 = Done false.
Proof. split; reflexivity. Qed.

(** ** Memory safety of the sight test *)

Lemma scan_total map w pts :
  (forall p, In p pts -> exists t, read_at map (snd p * w + fst p) = Done t) ->
  exists b, scan map w pts = Done b.
Proof.
  induction pts as [|q pts IH]; intros Hall; simpl; [exists true; reflexivity|].
  destruct (Hall q (or_introl eq_refl)) as [t ->]. simpl.
  destruct (is_wall t); [exists false; reflexivity|].
  apply IH. intros p Hp. apply Hall. right. exact Hp.
Qed.

(** X1.  On a well-formed map, with the observer and the target inside it,
    [CanSeePosition] returns an answer: the loop ends within as many turns
    as the Manhattan distance, and every read of [map] is inside the
    array. *)
Theorem canSee_returns fuel e tx ty map w h :
  Grid.well_formed map w h ->
  Grid.in_bounds w h (x e, y e) -> Grid.in_bounds w h (tx, ty) ->
  (Z.to_nat (ManhattanDistance (x e) (y e) tx ty) <= fuel)%nat ->
  exists b, CanSeePosition fuel e tx ty map w = Done b.
Proof.
  intros Hwf [Hex Hey] [Htx Hty] Hfuel. cbn [fst snd] in *.
  rewrite CanSeePosition_scan by exact Hfuel.
  destruct (_ >? _); [exists false; reflexivity|].
  apply scan_total. intros p Hp.
  apply (GridFacts.read_in_bounds map w h p Hwf).
  assert (In p (bresenham_line (x e) (y e) tx ty)) as Hline
    by (rewrite bresenham_line_split; apply in_or_app; left; exact Hp).
  apply bresenham_line_box in Hline. unfold Grid.in_bounds. lia.
Qed.

Lemma canSee_returns_witness :
  exists b, CanSeePosition 8 (observer 4 4 10) 0 0 corner5 5 = Done b.
Proof.
  apply (canSee_returns 8 (observer 4 4 10) 0 0 corner5 5 5).
  - unfold Grid.well_formed. simpl. lia.
  - unfold Grid.in_bounds. simpl. lia.
  - unfold Grid.in_bounds. simpl. lia.
  - vm_compute. lia.
Defined.

End Sight.

(** * The behaviour state machine *)

Module Machine.
Import AI AISpec.

(** A generic rule for loops: what every turn preserves holds at the end. *)
Lemma for_each_preserves {A S} (I : S -> Prop) (body : S -> A -> result S) l :
  (forall s a s', I s -> body s a = Done s' -> I s') ->
  forall s s', I s -> for_each body l s = Done s' -> I s'.
Proof.
  intros Hbody. induction l as [|a l IH]; intros s s' Hs Hrun; simpl in Hrun.
  - injection Hrun as <-. exact Hs.
  - destruct (body s a) as [s1| |] eqn:E; simpl in Hrun; try discriminate.
    eapply IH; [|exact Hrun]. eapply Hbody; eauto.
Qed.

Lemma perception_keeps_state fuel e p map w e1 :
  UpdateEnemyPerception fuel e p map w = Done e1 ->
  state e1 = state e /\ x e1 = x e /\ y e1 = y e /\
  health e1 = health e /\ courage e1 = courage e /\
  aggression e1 = aggression e.
Proof.
  unfold UpdateEnemyPerception.
  destruct (CanSeePosition fuel e (px p) (py p) map w) as [[|]| |];
    simpl; intros [= <-]; repeat split; reflexivity.
Qed.

Lemma perception_sees fuel e p map w :
  CanSeePosition fuel e (px p) (py p) map w = Done true ->
  UpdateEnemyPerception fuel e p map w =
  Done (set_perception e true (px p) (py p)).
Proof. unfold UpdateEnemyPerception. intros ->. reflexivity. Qed.

(** A distance below 5 is below 5 as a [float] too. *)
Lemma small_distance_f32 d :
  0 <= d < 5 -> SFltb (f32_of_int d) (f32_of_int 5) = true.
Proof.
  intros Hd.
  assert (d = 0 \/ d = 1 \/ d = 2 \/ d = 3 \/ d = 4) as Hcases by lia.
  destruct Hcases as [->|[->|[->|[->| ->]]]]; reflexivity.
Qed.

(** [RaiseAlert] changes idle enemies only. *)
Lemma RaiseAlert_lookup alerter es al i e :
  es !! i = Some e -> state e <> AI_STATE_IDLE ->
  fst (RaiseAlert alerter es al) !! i = Some e.
Proof.
  intros Hi Hstate. unfold RaiseAlert.
  destruct (es !! alerter) as [a|]; simpl; [|exact Hi].
  rewrite list_lookup_imap, Hi. simpl.
  destruct (state e); try congruence; rewrite andb_false_r; reflexivity.
Qed.

(** ** The claims about the state machine *)

(** C8.  An idle enemy that sees its target this tick, at a Manhattan
    distance below 5, with courage below 0.3f, is in the flee state when
    [UpdateEnemyAI] returns, whatever its aggression and whatever [rand()]
    gives: the flee test comes before the chase test.  So does the enemy
    with courage 0.1 and aggression 0.1 that sees its target at distance 3. *)
Theorem idle_enemy_flees ex fuel rnd e p map w dt :
  state e = AI_STATE_IDLE ->
  CanSeePosition fuel e (px p) (py p) map w = Done true ->
  ManhattanDistance (x e) (y e) (px p) (py p) < 5 ->
  SFltb (courage e) f32_0_3 = true ->
  (exists e', UpdateEnemyAI ex fuel rnd e p map w dt = Done (e', p) /\
              state e' = AI_STATE_FLEE) /\
  (exists e', UpdateEnemyAI ex 3 rnd (timid 0 0 10 15 AI_STATE_IDLE)
                (mkPlayer 3 0 100 100) open5 5 dt =
              Done (e', mkPlayer 3 0 100 100) /\
              state e' = AI_STATE_FLEE).
Proof.
  intros Hidle Hsees Hdist Hcourage.
  assert (forall ex' fuel' e0 p0 map0 w0,
            state e0 = AI_STATE_IDLE ->
            CanSeePosition fuel' e0 (px p0) (py p0) map0 w0 = Done true ->
            ManhattanDistance (x e0) (y e0) (px p0) (py p0) < 5 ->
            SFltb (courage e0) f32_0_3 = true ->
            exists e', UpdateEnemyAI ex' fuel' rnd e0 p0 map0 w0 dt =
                       Done (e', p0) /\ state e' = AI_STATE_FLEE) as Hgen.
  { clear. intros ex fuel e p map w Hidle Hsees Hdist Hcourage.
    unfold UpdateEnemyAI. rewrite (perception_sees _ _ _ _ _ Hsees).
    cbn [bind set_perception state]. rewrite Hidle.
    eexists. split; [reflexivity|].
    unfold UpdateIdleState. cbn [canSeePlayer set_perception courage x y].
    rewrite Hcourage, small_distance_f32; [reflexivity|].
    unfold ManhattanDistance in *. lia. }
  split; [apply Hgen; assumption|].
  apply Hgen; reflexivity.
Qed.

Lemma idle_enemy_flees_witness :
  exists e',
    UpdateEnemyAI idle_exercises 3 0 (timid 0 0 10 15 AI_STATE_IDLE)
      (mkPlayer 3 0 100 100) open5 5 f32_zero =
    Done (e', mkPlayer 3 0 100 100) /\ state e' = AI_STATE_FLEE.
Proof.
  apply (idle_enemy_flees idle_exercises 3 0 (timid 0 0 10 15 AI_STATE_IDLE)
           (mkPlayer 3 0 100 100) open5 5 f32_zero).
  - reflexivity.
  - reflexivity.
  - vm_compute. reflexivity.
  - reflexivity.
Defined.

(** An idle enemy whose health is 0 and that does not see the player stays
    idle: the update does not look at the health. *)
Lemma idle_enemy_without_health_stays_idle :
  health (timid 0 0 0 0 AI_STATE_IDLE) <= 0 /\
  exists e',
    UpdateEnemyAI idle_exercises 0 500 (timid 0 0 0 0 AI_STATE_IDLE)
      (mkPlayer 3 0 100 100) open5 5 f32_zero =
    Done (e', mkPlayer 3 0 100 100) /\
    state e' = AI_STATE_IDLE /\ state e' <> AI_STATE_DEAD.
Proof.
  split; [simpl; lia|]. eexists. split; [reflexivity|].
  split; [reflexivity|discriminate].
Qed.

(** C7, as the code has it.  No transition leaves the dead state: on a dead
    enemy [UpdateEnemyAI] only refreshes the perception and leaves the state
    dead, and the update loop of [main] leaves a dead enemy as it was, alerts
    raised by others included.  No transition enters it either: from an idle
    or chasing enemy that is not dead, the idle and chase updates and the
    alerts give a state that is not dead, whatever the health. *)
Theorem dead_is_terminal ex fuel (rnd : nat -> Z) map w dt :
  (forall r e p r',
     state e = AI_STATE_DEAD ->
     UpdateEnemyAI ex fuel r e p map w dt = Done r' ->
     state (fst r') = AI_STATE_DEAD /\ snd r' = p) /\
  (forall wd wd' i e,
     enemies wd !! i = Some e -> state e = AI_STATE_DEAD ->
     update_enemies ex fuel rnd map w dt wd = Done wd' ->
     enemies wd' !! i = Some e) /\
  (forall r e p,
     state (UpdateIdleState r e p dt) = AI_STATE_DEAD ->
     state e = AI_STATE_DEAD) /\
  (forall e p e',
     UpdateChaseState ex e p map w dt = Done e' ->
     state e' = AI_STATE_DEAD -> state e = AI_STATE_DEAD) /\
  (forall alerter es al i e e',
     es !! i = Some e -> fst (RaiseAlert alerter es al) !! i = Some e' ->
     state e' = AI_STATE_DEAD -> state e = AI_STATE_DEAD).
Proof.
  repeat split.
  - unfold UpdateEnemyAI in H0.
    destruct (UpdateEnemyPerception fuel e p map w) as [e1| |] eqn:E;
      simpl in H0; try discriminate.
    apply perception_keeps_state in E as (Hs & _). rewrite Hs, H in H0.
    injection H0 as <-. simpl. congruence.
  - unfold UpdateEnemyAI in H0.
    destruct (UpdateEnemyPerception fuel e p map w) as [e1| |] eqn:E;
      simpl in H0; try discriminate.
    apply perception_keeps_state in E as (Hs & _). rewrite Hs, H in H0.
    injection H0 as <-. reflexivity.
  - intros wd wd' i e Hi Hdead Hrun. unfold update_enemies in Hrun.
    revert Hrun. apply for_each_preserves with (I := fun s => enemies s !! i = Some e);
      [|exact Hi].
    clear wd wd' Hi. intros s j s' Hs Hstep. unfold update_enemy in Hstep.
    destruct (enemies s !! j) as [current|] eqn:Hj;
      [|injection Hstep as <-; exact Hs].
    assert (state current = AI_STATE_DEAD \/ i <> j) as [Hd|Hne].
    { destruct (Nat.eq_dec i j) as [->|]; [left|right; assumption].
      congruence. }
    { rewrite Hd in Hstep. injection Hstep as <-. exact Hs. }
    assert (forall c : Enemy, <[j:=c]> (enemies s) !! i = Some e) as Hins
      by (intros; rewrite list_lookup_insert_ne by auto; exact Hs).
    destruct (state current);
      try (injection Hstep as <-; exact Hs);
      (destruct (UpdateEnemyAI ex fuel (rnd j) current (player s) map w dt)
         as [r| |]; simpl in Hstep; try discriminate;
       destruct (canSeePlayer (fst r));
       [destruct (SFltb (alertTime (alerts s)) f32_zero)|];
       injection Hstep as <-; cbn [enemies];
       try apply RaiseAlert_lookup; try apply Hins; congruence).
  - intros r e p. unfold UpdateIdleState.
    destruct (canSeePlayer e);
      repeat match goal with
             | |- context [if ?b then _ else _] => destruct b
             end; simpl; auto; discriminate.
  - intros e p e'. unfold UpdateChaseState.
    cbn [canSeePlayer set_timeSinceMove x y moveSpeed timeSinceMove].
    destruct (negb (canSeePlayer e)); [intros [= <-]; discriminate|].
    destruct (_ <=? 1); [intros [= <-]; discriminate|].
    destruct (SFleb _ _); [|intros [= <-]; simpl; auto].
    unfold MoveTowardsTarget.
    cbn [x y set_timeSinceMove].
    destruct (_ >? _);
      repeat match goal with
             | |- context [bind ?c _] => destruct c as [[|]| |]; simpl
             end; intros [= <-]; simpl; auto.
  - intros alerter es al i e e' Hi Hi'. unfold RaiseAlert in Hi'.
    destruct (es !! alerter) as [a|]; simpl in Hi'; [|congruence].
    rewrite list_lookup_imap, Hi in Hi'. simpl in Hi'.
    injection Hi' as <-.
    destruct (negb (i =? alerter)%nat); simpl; [|auto].
    destruct (state e) eqn:Hs; simpl; auto; try congruence.
    destruct (_ <=? _); [|congruence].
    destruct (type e); simpl; try discriminate;
      destruct (SFltb _ _); simpl; congruence.
Qed.

Lemma dead_is_terminal_witness :
  exists wd',
    update_enemies idle_exercises 8 (fun _ => 0) open5 5 f32_zero
      two_enemies = Done wd' /\
    (state <$> enemies wd' !! 0%nat) = Some AI_STATE_FLEE /\
    enemies wd' !! 1%nat = Some (timid 4 4 10 0 AI_STATE_DEAD).
Proof.
  eexists. split; [vm_compute; reflexivity|]. split; [reflexivity|].
  apply (proj1 (proj2 (dead_is_terminal idle_exercises 8 (fun _ => 0)
                         open5 5 f32_zero))
           two_enemies _ 1%nat (timid 4 4 10 0 AI_STATE_DEAD));
    reflexivity.
Defined.

End Machine.

(** * The collision resolver *)

Module Resolver.
Import Collision CollisionSpec.

(** ** Lemmas *)

Lemma bounds_test map nx ny :
  (nx <? 0) || (nx >=? width map) || (ny <? 0) || (ny >=? height map) = true
  <-> out_of_bounds map nx ny.
Proof.
  unfold out_of_bounds.
  rewrite !orb_true_iff, !Z.ltb_lt, !Z.geb_le. lia.
Qed.

Lemma check_rules_default t :
  check_rules defaultRules t (mkResult true COLLISION_NONE None ".") =
  match classify_tile t with
  | COLLISION_SOLID => inl (mkResult false COLLISION_SOLID None t)
  | k => inr (mkResult true k None (reported_tile t))
  end.
Proof.
  destruct t as [[] [] [] [] [] [] [] []]; reflexivity.
Qed.

Lemma GetEntityAt_Some es qx qy ex hit :
  GetEntityAt es qx qy ex = Some hit ->
  In hit es /\ blocks qx qy ex hit.
Proof.
  induction es as [|e es IH]; simpl; [discriminate|].
  destruct (isAlive e && (x e =? qx) && (y e =? qy) && negb (id e =? ex)
            && isSolid e) eqn:E.
  - intros [= <-]. split; [left; reflexivity|].
    rewrite !andb_true_iff, negb_true_iff, !Z.eqb_eq, Z.eqb_neq in E.
    unfold blocks. tauto.
  - intros H. destruct (IH H). split; [right|]; assumption.
Qed.

Lemma GetEntityAt_None es qx qy ex :
  GetEntityAt es qx qy ex = None <->
  forall e, In e es -> ~ blocks qx qy ex e.
Proof.
  induction es as [|e es IH]; simpl; [split; [intros _ ? []|reflexivity]|].
  destruct (isAlive e && (x e =? qx) && (y e =? qy) && negb (id e =? ex)
            && isSolid e) eqn:E.
  - split; [discriminate|]. intros Hall. exfalso.
    apply (Hall e (or_introl eq_refl)).
    rewrite !andb_true_iff, negb_true_iff, !Z.eqb_eq, Z.eqb_neq in E.
    unfold blocks. tauto.
  - rewrite IH. split.
    + intros Hall e' [<-|Hin]; [|apply Hall, Hin].
      intros (Ha & Hs & Hx & Hy & Hid).
      rewrite Ha, Hs in E. apply Z.eqb_eq in Hx, Hy. apply Z.eqb_neq in Hid.
      rewrite Hx, Hy, Hid in E. discriminate.
    + intros Hall e' Hin. apply Hall. right. exact Hin.
Qed.

(** ** The claims about the resolver *)

(** C1.  [CheckAllCollisions] decides a move in three steps and returns at
    the first denial.  (1) A destination outside the map is denied with kind
    SOLID.  (2) Inside, a tile that the rules classify as SOLID is denied,
    the entities not being looked at.  A TRIGGER, DAMAGE or SLOW tile is let
    through by the rule loop with its kind in the result.  (3) Then the
    entities are looked at: a live solid entity at the destination whose
    identifier is not the mover's denies the move (no push, no swap);
    without one the move is allowed and the result carries the kind of the
    tile. *)
Theorem CheckAllCollisions_order map es mover nx ny :
  (out_of_bounds map nx ny ->
   CheckAllCollisions map es mover nx ny =
   Done (mkResult false COLLISION_SOLID None ".")) /\
  (forall t,
     ~ out_of_bounds map nx ny ->
     read_at (collision map) (ny * width map + nx) = Done t ->
     (classify_tile t = COLLISION_SOLID ->
      CheckAllCollisions map es mover nx ny =
      Done (mkResult false COLLISION_SOLID None t)) /\
     (classify_tile t <> COLLISION_SOLID ->
      check_rules defaultRules t (mkResult true COLLISION_NONE None ".") =
      inr (mkResult true (classify_tile t) None (reported_tile t))) /\
     (classify_tile t <> COLLISION_SOLID ->
      (forall e, In e es -> ~ blocks nx ny (id mover) e) ->
      CheckAllCollisions map es mover nx ny =
      Done (mkResult true (classify_tile t) None (reported_tile t))) /\
     (classify_tile t <> COLLISION_SOLID ->
      (exists e, In e es /\ blocks nx ny (id mover) e) ->
      exists hit,
        In hit es /\ blocks nx ny (id mover) hit /\
        CheckAllCollisions map es mover nx ny =
        Done (mkResult false COLLISION_SOLID (Some hit) (reported_tile t)))).
Proof.
  split.
  - intros Hout. unfold CheckAllCollisions.
    apply bounds_test in Hout. rewrite Hout. reflexivity.
  - intros t Hin Hread.
    assert ((nx <? 0) || (nx >=? width map) || (ny <? 0)
            || (ny >=? height map) = false) as Hb.
    { destruct (_ || _) eqn:E; [|reflexivity].
      apply bounds_test in E. contradiction. }
    unfold CheckAllCollisions. rewrite Hb, Hread. cbn [bind].
    rewrite check_rules_default.
    split; [|split; [|split]].
    + intros ->. reflexivity.
    + intros Hk. destruct (classify_tile t); congruence.
    + intros Hk Hnone. apply GetEntityAt_None in Hnone. rewrite Hnone.
      destruct (classify_tile t); congruence.
    + intros Hk (e & He & Hblocks).
      destruct (GetEntityAt es nx ny (id mover)) as [hit|] eqn:E.
      * destruct (GetEntityAt_Some _ _ _ _ _ E) as [Hhit Hb'].
        exists hit. split; [assumption|]. split; [assumption|].
        destruct Hb' as (_ & -> & _).
        destruct (classify_tile t); cbn; congruence.
      * exfalso. rewrite GetEntityAt_None in E. exact (E e He Hblocks).
Qed.

Lemma CheckAllCollisions_order_witness :
  CheckAllCollisions strip [hero; npc] hero (-1) 0 =
    Done (mkResult false COLLISION_SOLID None ".") /\
  CheckAllCollisions strip [hero] hero 1 0 =
    Done (mkResult true COLLISION_TRIGGER None "=") /\
  CheckAllCollisions strip [hero; npc] hero 1 0 =
    Done (mkResult false COLLISION_SOLID (Some npc) "=").
Proof.
  split; [|split].
  - apply (proj1 (CheckAllCollisions_order strip [hero; npc] hero (-1) 0)).
    unfold out_of_bounds. simpl. lia.
  - destruct (proj2 (CheckAllCollisions_order strip [hero] hero 1 0) "="%char)
      as (_ & _ & Hfree & _).
    + unfold out_of_bounds. simpl. lia.
    + reflexivity.
    + apply Hfree; [discriminate|].
      intros e [<-|[]] (_ & _ & Hx & _). discriminate.
  - destruct (proj2 (CheckAllCollisions_order strip [hero; npc] hero 1 0)
                "="%char) as (_ & _ & _ & Hocc).
    + unfold out_of_bounds. simpl. lia.
    + reflexivity.
    + destruct Hocc as (hit & Hin & Hb & Heq); [discriminate| |].
      * exists npc. split; [right; left; reflexivity|].
        unfold blocks. simpl. repeat split; lia.
      * rewrite Heq. destruct Hin as [<-|[<-|[]]]; [|reflexivity].
        destruct Hb as (_ & _ & Hx & _). discriminate.
Defined.

(** A move that [CheckAllCollisions] allows goes to a tile inside the map
    that is not SOLID and that no blocking entity occupies. *)
Lemma canMove_true m es mover nx ny r :
  CheckAllCollisions m es mover nx ny = Done r -> canMove r = true ->
  ~ out_of_bounds m nx ny /\
  (exists t, read_at (collision m) (ny * width m + nx) = Done t /\
             classify_tile t <> COLLISION_SOLID) /\
  (forall e, In e es -> ~ blocks nx ny (id mover) e).
Proof.
  unfold CheckAllCollisions.
  destruct (_ || _) eqn:Hb; [intros [= <-]; discriminate|].
  destruct (read_at (collision m) (ny * width m + nx)) as [t| |] eqn:Hread;
    cbn [bind]; try discriminate.
  rewrite check_rules_default. intros Hr Hcan.
  assert (~ out_of_bounds m nx ny) as Hin
    by (rewrite <- bounds_test; congruence).
  split; [exact Hin|].
  destruct (GetEntityAt es nx ny (id mover)) as [hit|] eqn:E.
  - destruct (GetEntityAt_Some _ _ _ _ _ E) as [_ (_ & Hs & _)].
    rewrite Hs in Hr.
    destruct (classify_tile t); injection Hr as <-; discriminate.
  - split; [|apply GetEntityAt_None, E].
    exists t. split; [reflexivity|].
    destruct (classify_tile t); try discriminate.
    injection Hr as <-. discriminate.
Qed.

(** ** The invariants *)

(** C4, where the code breaks it.  [PushEntity] moves its target without
    looking at the map: pushed by the hero from the pressure plate of
    [strip], the entity lands on the wall tile (2,0), a tile that
    [CanMoveTo] refuses and [CheckAllCollisions] denies. *)
Lemma PushEntity_into_wall :
  read_at (collision strip) (y npc * width strip + x npc) = Done "="%char /\
  classify_tile "=" <> COLLISION_SOLID /\
  snd (PushEntity hero npc) = set_position npc 2 0 /\
  read_at (collision strip) (0 * width strip + 2) = Done "#"%char /\
  classify_tile "#" = COLLISION_SOLID /\
  CanMoveTo strip 2 0 defaultRules 5 = Done false /\
  CheckAllCollisions strip [hero; npc] npc 2 0 =
    Done (mkResult false COLLISION_SOLID None "#").
Proof. repeat split; discriminate. Qed.

(** The other responses and the player's step keep entities off SOLID
    tiles: a swap exchanges two positions, and the player goes only where
    [CheckAllCollisions] allows. *)
Lemma SwapPositions_exchanges mover target :
  SwapPositions mover target =
  (set_position mover (x target) (y target),
   set_position target (x mover) (y mover)).
Proof. reflexivity. Qed.

Lemma move_player_cases m player rest dx dy player' :
  move_player m player rest dx dy = Done player' ->
  player' = player \/
  player' = set_position player (x player + dx) (y player + dy) /\
  ~ out_of_bounds m (x player + dx) (y player + dy) /\
  (exists t, read_at (collision m)
               ((y player + dy) * width m + (x player + dx)) = Done t /\
             classify_tile t <> COLLISION_SOLID) /\
  (forall e, In e (player :: rest) ->
     ~ blocks (x player + dx) (y player + dy) (id player) e).
Proof.
  unfold move_player. destruct (_ || _); [|intros [= <-]; left; reflexivity].
  destruct (CheckAllCollisions m (player :: rest) player
              (x player + dx) (y player + dy)) as [r| |] eqn:E;
    cbn [bind]; try discriminate.
  destruct (canMove r) eqn:Hcan; intros [= <-]; [right|left; reflexivity].
  split; [reflexivity|]. eapply canMove_true; eassumption.
Qed.

(** C5, as the code has it.  The player's step of lesson 13 keeps live solid
    entities apart: when no two of them share a tile before the step and no
    other entity carries the player's identifier, no two share a tile after
    it, and on a well-formed map the step returns.  (The enemies of lesson
    14 move without looking at the other agents.) *)
Theorem player_step_keeps_apart m player rest dx dy :
  (forall e, In e rest -> id e <> id player) ->
  no_overlap (player :: rest) ->
  (forall player', move_player m player rest dx dy = Done player' ->
                   no_overlap (player' :: rest)) /\
  (Grid.well_formed (collision m) (width m) (height m) ->
   exists player', move_player m player rest dx dy = Done player').
Proof.
  intros Hid Hno. split.
  - intros player' Hmove.
    destruct (move_player_cases _ _ _ _ _ _ Hmove)
      as [->|(-> & _ & _ & Hfree)]; [exact Hno|].
    assert (forall e, In e rest -> isAlive e = true -> isSolid e = true ->
              (x e, y e) <> (x player + dx, y player + dy)) as Hrest.
    { intros e He Ha Hs [= Hx Hy]. apply (Hfree e (or_intror He)).
      unfold blocks. repeat split; auto. }
    intros i j e1 e2 Hi Hj Hne Ha1 Hs1 Ha2 Hs2.
    destruct i as [|i]; destruct j as [|j]; simpl in Hi, Hj; try lia.
    + injection Hi as <-. simpl. intros Heq. symmetry in Heq. revert Heq.
      apply Hrest; auto. eapply list_elem_of_In, list_elem_of_lookup_2, Hj.
    + injection Hj as <-. simpl.
      apply Hrest; auto. eapply list_elem_of_In, list_elem_of_lookup_2, Hi.
    + apply (Hno (S i) (S j)); auto.
  - intros Hwf. unfold move_player.
    destruct (_ || _); [|eauto].
    unfold CheckAllCollisions.
    destruct (_ || _) eqn:Hb; cbn [bind]; [eauto|].
    destruct (GridFacts.read_in_bounds _ _ _ (x player + dx, y player + dy) Hwf)
      as [t Ht].
    { assert (~ out_of_bounds m (x player + dx) (y player + dy)) as Hin
        by (rewrite <- bounds_test; congruence).
      unfold out_of_bounds in Hin. unfold Grid.in_bounds. simpl. lia. }
    simpl in Ht. rewrite Ht. cbn [bind].
    destruct (check_rules defaultRules t _); cbn [bind].
    + destruct (canMove c); eauto.
    + destruct (GetEntityAt _ _ _ _) as [hit|];
        [destruct (isSolid hit)|]; cbn [bind canMove];
        try destruct (canMove c); eauto.
Qed.

Lemma player_step_keeps_apart_witness :
  no_overlap [hero; npc] /\
  forall player', move_player strip hero [npc] 1 0 = Done player' ->
                  no_overlap [player'; npc].
Proof.
  assert (no_overlap [hero; npc]) as Hno.
  { intros i j e1 e2 Hi Hj Hne _ _ _ _.
    destruct i as [|[|i]]; destruct j as [|[|j]]; simpl in Hi, Hj;
      try discriminate; try lia;
      injection Hi as <-; injection Hj as <-; discriminate. }
  split; [exact Hno|].
  apply (player_step_keeps_apart strip hero [npc] 1 0); [|exact Hno].
  intros e [<-|[]]. discriminate.
Defined.

End Resolver.

(** * The distance field of the breadcrumb pathfinding *)

Module Field.
Import AI AISpec.

(** ** Loops that run to their end *)

(** A loop whose every turn returns, and re-establishes an invariant that
    knows the elements already handled, returns with the invariant for the
    whole list. *)
Lemma for_each_total {A S} (I : list A -> S -> Prop)
    (body : S -> A -> result S) (l : list A) (s0 : S) :
  I [] s0 ->
  (forall pre a s, (exists post, l = pre ++ a :: post) -> I pre s ->
     exists s', body s a = Done s' /\ I (pre ++ [a]) s') ->
  exists s', for_each body l s0 = Done s' /\ I l s'.
Proof.
  intros H0 Hbody.
  assert (forall todo pre s, l = pre ++ todo -> I pre s ->
            exists s', for_each body todo s = Done s' /\ I l s') as Hgen.
  { induction todo as [|a todo IH]; intros pre s Hl Hs; simpl.
    - rewrite app_nil_r in Hl. subst pre. eauto.
    - destruct (Hbody pre a s) as (s1 & -> & Hs1); [eauto|exact Hs|].
      cbn [bind]. apply (IH (pre ++ [a])); [|exact Hs1].
      rewrite <- app_assoc. exact Hl. }
  apply (Hgen l [] s0); [reflexivity|exact H0].
Qed.

(** ** Cells that the fill has not reached *)

Lemma unlabelled_replicate n : unlabelled (replicate n (-1)) = n.
Proof. induction n; simpl; congruence. Qed.

Lemma unlabelled_insert dm (i : nat) v :
  dm !! i = Some (-1) -> v <> -1 ->
  S (unlabelled (<[i:=v]> dm)) = unlabelled dm.
Proof.
  revert i. induction dm as [|u dm IH]; intros [|i] Hi Hv; simpl in *;
    try discriminate.
  - injection Hi as ->. simpl. destruct (Z.eqb_spec v (-1)); [contradiction|].
    reflexivity.
  - rewrite <- (IH i Hi Hv). lia.
Qed.

Lemma advances_refl st : advances st st.
Proof. split; [lia|auto]. Qed.

Lemma advances_trans st1 st2 st3 :
  advances st1 st2 -> advances st2 st3 -> advances st1 st3.
Proof.
  intros [Hle1 Hf1] [Hle2 Hf2]. split; [lia|].
  intros H3. destruct (Hf2 H3) as [H2|Hlt]; [|right; lia].
  destruct (Hf1 H2); [left; assumption|right; lia].
Qed.

(** The loop that marks every cell as unvisited. *)
Lemma mark_unvisited_from (k m : nat) :
  for_each (fun dm i => write_at dm i (-1))
    (seqZ (Z.of_nat k) (Z.of_nat m)) (replicate k (-1) ++ replicate m 0) =
  Done (replicate (k + m) (-1)).
Proof.
  revert k. induction m as [|m IH]; intros k.
  - simpl. rewrite app_nil_r, Nat.add_0_r. reflexivity.
  - rewrite seqZ_cons by lia. cbn [for_each]. unfold write_at at 1.
    rewrite length_app, !length_replicate.
    destruct (Z.leb_spec 0 (Z.of_nat k)); [|lia].
    destruct (Z.ltb_spec (Z.of_nat k) (Z.of_nat (k + S m))); [|lia].
    cbn [andb bind]. rewrite Nat2Z.id.
    rewrite insert_app_r_alt by (rewrite length_replicate; lia).
    rewrite length_replicate, Nat.sub_diag. cbn [replicate list_insert insert].
    replace (Z.succ (Z.of_nat k)) with (Z.of_nat (S k)) by lia.
    replace (Z.pred (Z.of_nat (S m))) with (Z.of_nat m) by lia.
    replace (replicate k (-1) ++ -1 :: replicate m 0)
      with (replicate (S k) (-1) ++ replicate m 0).
    + rewrite IH. f_equal. f_equal. lia.
    + change (-1 :: replicate m 0) with ([-1] ++ replicate m 0).
      rewrite app_assoc. f_equal.
      change [-1] with (replicate 1 (-1)).
      rewrite <- replicate_add. f_equal. lia.
Qed.

Lemma mark_unvisited n :
  for_each (fun dm i => write_at dm i (-1)) (seqZ 0 n)
    (replicate (Z.to_nat n) 0) =
  Done (replicate (Z.to_nat n) (-1)).
Proof.
  destruct (Z.le_gt_cases 0 n) as [Hn|Hn].
  - pose proof (mark_unvisited_from 0 (Z.to_nat n)) as H.
    rewrite Z2Nat.id in H by exact Hn. exact H.
  - replace (Z.to_nat n) with O by lia.
    rewrite seqZ_nil by lia. reflexivity.
Qed.

(** ** The grid of one run *)

Section Flood.
Variables (map : list ascii) (w h : Z).
Hypothesis Hwf : Grid.well_formed map w h.
Variables (tx ty : Z).
Hypothesis Hseed : 0 <= tx < w /\ 0 <= ty < h.

#[local] Abbreviation inb := (AISpec.inb w h).
#[local] Abbreviation label := (AISpec.label w).
#[local] Abbreviation tile_at := (AISpec.tile_at map w).
#[local] Abbreviation walkable := (AISpec.walkable map w h).
#[local] Abbreviation inv := (AISpec.inv map w h tx ty).
#[local] Abbreviation settled := (AISpec.settled map w h tx ty).
#[local] Abbreviation reach := (AISpec.reach map w h tx ty).
#[local] Abbreviation hops := (AISpec.hops map w h tx ty).
#[local] Abbreviation away := (AISpec.away map w h tx ty).
#[local] Abbreviation leads_away := (AISpec.leads_away map w h tx ty).
#[local] Abbreviation steps_out := (AISpec.steps_out map w h tx ty).

Lemma read_map cx cy :
  inb cx cy -> read_at map (cy * w + cx) = Done (tile_at cx cy).
Proof.
  intros Hin.
  destruct (GridFacts.read_in_bounds map w h (cx, cy) Hwf Hin) as [t Ht].
  simpl in Ht. rewrite Ht. apply GridFacts.read_at_Some in Ht as [_ Ht].
  unfold tile_at. rewrite Ht. reflexivity.
Qed.

Lemma read_label dm cx cy :
  Z.of_nat (length dm) = w * h -> inb cx cy ->
  read_at dm (cy * w + cx) = Done (label dm cx cy).
Proof.
  intros Hlen [Hx Hy].
  destruct (GridFacts.read_at_in_range dm (cy * w + cx)) as [v Hv].
  { rewrite Hlen. apply GridFacts.index_range; assumption. }
  rewrite Hv. apply GridFacts.read_at_Some in Hv as [_ Hv].
  unfold label. rewrite Hv. reflexivity.
Qed.

Lemma write_label dm cx cy v :
  Z.of_nat (length dm) = w * h -> inb cx cy ->
  exists dm',
    write_at dm (cy * w + cx) v = Done dm' /\
    dm' = <[Z.to_nat (cy * w + cx) := v]> dm /\
    Z.of_nat (length dm') = w * h /\
    label dm' cx cy = v /\
    (forall qx qy, inb qx qy -> (qx, qy) <> (cx, cy) ->
                   label dm' qx qy = label dm qx qy).
Proof.
  intros Hlen [Hx Hy].
  pose proof (GridFacts.index_range w h cx cy Hx Hy) as Hi.
  exists (<[Z.to_nat (cy * w + cx) := v]> dm).
  split; [|split; [reflexivity|split; [|split]]].
  - unfold write_at.
    destruct (Z.leb_spec 0 (cy * w + cx)); [|lia].
    destruct (Z.ltb_spec (cy * w + cx) (Z.of_nat (length dm))); [|lia].
    reflexivity.
  - rewrite length_insert. exact Hlen.
  - unfold label. rewrite list_lookup_insert_eq by lia. reflexivity.
  - intros qx qy [Hqx Hqy] Hne. unfold label.
    rewrite list_lookup_insert_ne; [reflexivity|].
    pose proof (GridFacts.index_range w h qx qy Hqx Hqy).
    intros Heq. apply Z2Nat.inj in Heq; try lia.
    apply GridFacts.index_inj in Heq as [-> ->]; try assumption.
    apply Hne. reflexivity.
Qed.

Lemma next_to_neighbours cx cy nx ny :
  next_to cx cy nx ny <->
  exists d, In d neighbours /\ nx = cx + fst d /\ ny = cy + snd d.
Proof.
  unfold next_to, neighbours. split.
  - intros Hn.
    assert ((nx = cx /\ ny = cy - 1) \/ (nx = cx /\ ny = cy + 1) \/
            (nx = cx - 1 /\ ny = cy) \/ (nx = cx + 1 /\ ny = cy))
      as [[-> ->]|[[-> ->]|[[-> ->]|[-> ->]]]] by lia;
      [exists (0, -1)|exists (0, 1)|exists (-1, 0)|exists (1, 0)];
      simpl; repeat split; auto; lia.
  - intros (d & Hd & -> & ->).
    simpl in Hd. destruct Hd as [<-|[<-|[<-|[<-|[]]]]]; simpl; lia.
Qed.

Lemma lookup_label dm cx cy :
  Z.of_nat (length dm) = w * h -> inb cx cy ->
  dm !! Z.to_nat (cy * w + cx) = Some (label dm cx cy).
Proof.
  intros Hlen Hin. pose proof (read_label dm cx cy Hlen Hin) as Hr.
  apply GridFacts.read_at_Some in Hr as [_ Hr]. exact Hr.
Qed.

Lemma next_to_distinct cx cy nx ny :
  next_to cx cy nx ny -> (cx, cy) <> (nx, ny).
Proof. unfold next_to. intros Hn [= -> ->]. lia. Qed.

(** ** The invariant of the flood fill *)

Lemma inv_weaken cur Q Q' st :
  inv cur Q st ->
  (forall cx cy nx ny,
     inb cx cy -> next_to cx cy nx ny -> walkable nx ny ->
     label (fst st) cx cy = cur -> Q' cx cy nx ny ->
     Q cx cy nx ny \/ 0 <= label (fst st) nx ny) ->
  inv cur Q' st.
Proof.
  intros [] HQ. constructor; auto.
  intros cx cy nx ny Hc Hn Hwalk [Hlt|[Heq HQ']].
  - eapply inv_closed0; eauto.
  - destruct (HQ cx cy nx ny Hc Hn Hwalk Heq HQ') as [HQ0|Hl]; [|exact Hl].
    eapply inv_closed0; eauto.
Qed.

(** The body of the loop over the neighbours keeps the invariant and
    handles one more pair. *)
Lemma visit_neighbour_inv cur Q st cx cy d :
  0 <= cur -> inv cur Q st -> inb cx cy -> label (fst st) cx cy = cur ->
  In d neighbours ->
  exists st',
    visit_neighbour map w h cur cx cy st d = Done st' /\
    inv cur (fun a b c e => Q a b c e \/
                            (a = cx /\ b = cy /\
                             c = cx + fst d /\ e = cy + snd d)) st' /\
    label (fst st') cx cy = cur /\ advances st st'.
Proof.
  intros Hcur Hinv Hc Hlab Hd.
  assert (next_to cx cy (cx + fst d) (cy + snd d)) as Hnext
    by (apply next_to_neighbours; eauto).
  unfold visit_neighbour.
  set (nx := cx + fst d) in *. set (ny := cy + snd d) in *.
  destruct ((nx >=? 0) && (nx <? w) && (ny >=? 0) && (ny <? h)) eqn:Hb.
  - assert (inb nx ny) as Hn.
    { rewrite !andb_true_iff, !Z.geb_le, !Z.ltb_lt in Hb. unfold inb. lia. }
    rewrite (read_map nx ny Hn). cbn [bind].
    destruct (is_wall (tile_at nx ny)) eqn:Hwall; cbn [negb].
    + exists st. split; [reflexivity|]. split; [|split; [assumption|apply advances_refl]].
      apply (inv_weaken cur Q); [assumption|].
      intros a b c e _ _ [_ Hopen] _ [HQ|(-> & -> & -> & ->)]; [auto|].
      congruence.
    + rewrite (read_label _ nx ny (inv_len _ _ _ _ _ _ _ _ Hinv) Hn). cbn [bind].
      destruct (Z.eqb_spec (label (fst st) nx ny) (-1)) as [Hfresh|Hold].
      * destruct (write_label (fst st) nx ny (cur + 1) (inv_len _ _ _ _ _ _ _ _ Hinv) Hn)
          as (dm' & -> & Hdm' & Hlen' & Hnew & Hsame).
        cbn [bind]. exists (dm', true). split; [reflexivity|].
        assert (forall qx qy, inb qx qy ->
                  (qx = nx /\ qy = ny /\ label dm' qx qy = cur + 1 /\
                   label (fst st) qx qy = -1) \/
                  ((qx, qy) <> (nx, ny) /\
                   label dm' qx qy = label (fst st) qx qy)) as Hcell.
        { intros qx qy Hq.
          destruct (Z.eq_dec qx nx) as [->|Hqx];
            [destruct (Z.eq_dec qy ny) as [->|Hqy]|].
          - left. auto.
          - right. split; [congruence|]. apply Hsame; [assumption|congruence].
          - right. split; [congruence|]. apply Hsame; [assumption|congruence]. }
        destruct Hinv as [Hlen Hs Hrange Hzero Hpar Hclosed Hlip Hflag].
        cbn [fst snd] in *.
        split; [|split].
        { constructor; cbn [fst snd].
          - exact Hlen'.
          - destruct (Hcell tx ty Hseed) as [(_ & _ & _ & ?)|[_ ->]];
              [lia|exact Hs].
          - intros qx qy Hq. specialize (Hrange qx qy Hq).
            destruct (Hcell qx qy Hq) as [(_ & _ & -> & _)|[_ ->]]; lia.
          - intros qx qy Hq H0.
            destruct (Hcell qx qy Hq) as [(_ & _ & Hv & _)|[_ Hv]];
              [lia|]. apply Hzero; [assumption|lia].
          - intros qx qy Hq H1.
            destruct (Hcell qx qy Hq) as [(-> & -> & Hv & _)|[_ Hv]].
            + split; [split; assumption|].
              exists cx, cy. split; [assumption|]. split; [assumption|].
              destruct (Hcell cx cy Hc) as [(_ & _ & _ & ?)|[_ ->]]; lia.
            + rewrite Hv in *. destruct (Hpar qx qy Hq H1)
                as (Hwalk & px & py & Hp & Hpn & Hpl).
              split; [assumption|]. exists px, py.
              split; [assumption|]. split; [assumption|].
              destruct (Hcell px py Hp) as [(_ & _ & _ & ?)|[_ ->]]; lia.
          - intros qx qy mx my Hq Hqm Hm Hcase.
            destruct (Hcell qx qy Hq) as [(_ & _ & Hv & _)|[_ Hv]];
              [lia|]. rewrite Hv in Hcase.
            destruct (Hcell mx my (proj1 Hm))
              as [(_ & _ & -> & _)|[Hne ->]]; [lia|].
            apply (Hclosed qx qy mx my Hq Hqm Hm).
            destruct Hcase as [Hlt|[Heq [HQ|(_ & _ & -> & ->)]]];
              [left; assumption|right; auto|].
            exfalso. apply Hne. reflexivity.
          - intros qx qy mx my Hq Hqm Hm Hq0 Hm0.
            pose proof (Hrange mx my (proj1 Hm)) as Hrm.
            destruct (Hcell mx my (proj1 Hm))
              as [(-> & -> & Hmv & Hmold)|[Hmne Hmv]];
              destruct (Hcell qx qy Hq)
                as [(-> & -> & Hqv & Hqold)|[Hqne Hqv]];
              rewrite ?Hmv, ?Hqv in *; try lia.
            + destruct (Z.lt_ge_cases (label (fst st) qx qy) cur) as [Hlt|];
                [|lia].
              assert (0 <= label (fst st) nx ny); [|lia].
              apply (Hclosed qx qy nx ny Hq Hqm Hm). left. lia.
            + apply Hlip; assumption.
          - discriminate. }
        { destruct (Hcell cx cy Hc) as [(_ & _ & _ & ?)|[_ ->]];
            [lia|exact Hlab]. }
        { split; cbn [fst snd].
          - rewrite Hdm'.
            rewrite <- (unlabelled_insert (fst st) (Z.to_nat (ny * w + nx))
                          (cur + 1)); [lia| |lia].
            rewrite (lookup_label _ nx ny Hlen Hn). congruence.
          - intros _. right. rewrite Hdm'.
            rewrite <- (unlabelled_insert (fst st) (Z.to_nat (ny * w + nx))
                          (cur + 1)); [lia| |lia].
            rewrite (lookup_label _ nx ny Hlen Hn). congruence. }
      * exists st. split; [reflexivity|].
        split; [|split; [assumption|apply advances_refl]].
        apply (inv_weaken cur Q); [assumption|].
        intros a b c e _ _ _ _ [HQ|(-> & -> & -> & ->)]; [auto|].
        right. pose proof (inv_range _ _ _ _ _ _ _ _ Hinv nx ny Hn). lia.
  - exists st. split; [reflexivity|].
    split; [|split; [assumption|apply advances_refl]].
    apply (inv_weaken cur Q); [assumption|].
    intros a b c e _ _ [[Hx Hy] _] _ [HQ|(-> & -> & -> & ->)]; [auto|].
    exfalso. fold nx ny in Hx, Hy.
    rewrite !andb_false_iff, !Z.geb_leb, !Z.leb_gt, !Z.ltb_ge in Hb. lia.
Qed.

(** The body of the loop over [x]: the cell [(cx, cy)] is handled. *)
Lemma visit_cell_inv cur (P : Z -> Z -> Prop) st cx cy :
  0 <= cur -> inv cur (fun a b _ _ => P a b) st -> inb cx cy ->
  exists st',
    visit_cell map w h cur cy st cx = Done st' /\
    inv cur (fun a b _ _ => P a b \/ (a = cx /\ b = cy)) st' /\
    advances st st'.
Proof.
  intros Hcur Hinv Hc. unfold visit_cell.
  rewrite (read_label _ cx cy (inv_len _ _ _ _ _ _ _ _ Hinv) Hc). cbn [bind].
  destruct (Z.eqb_spec (label (fst st) cx cy) cur) as [Heq|Hne].
  - destruct (for_each_total
                (fun pre s =>
                   inv cur (fun a b c e =>
                              P a b \/
                              (a = cx /\ b = cy /\
                               exists d, In d pre /\
                                         c = cx + fst d /\ e = cy + snd d)) s /\
                   label (fst s) cx cy = cur /\ advances st s)
                (visit_neighbour map w h cur cx cy) neighbours st)
      as (st' & Hrun & Hinv' & _ & Hadv).
    + split; [|split; [assumption|apply advances_refl]].
      apply (inv_weaken _ _ _ _ Hinv).
      intros a b c e _ _ _ _ [HP|(_ & _ & d & [] & _)]. left. exact HP.
    + intros pre d s [post Hl] (Hs & Hlab & Hadv).
      assert (In d neighbours) as Hd by (rewrite Hl; apply in_elt).
      destruct (visit_neighbour_inv cur _ s cx cy d Hcur Hs Hc Hlab Hd)
        as (s' & Hstep & Hs' & Hlab' & Hadv').
      exists s'. split; [assumption|].
      split; [|split; [assumption|eapply advances_trans; eassumption]].
      apply (inv_weaken _ _ _ _ Hs').
      intros a b c e _ _ _ _ [HP|(-> & -> & d' & Hd' & -> & ->)].
      * left. left. left. exact HP.
      * apply in_app_or in Hd' as [Hd'|[<-|[]]].
        -- left. left. right. eauto 10.
        -- left. right. auto.
    + exists st'. split; [assumption|]. split; [|assumption].
      apply (inv_weaken _ _ _ _ Hinv').
      intros a b c e _ Hn _ _ [HP|[-> ->]]; left; [left; exact HP|].
      right. split; [reflexivity|]. split; [reflexivity|].
      apply next_to_neighbours. exact Hn.
  - exists st. split; [reflexivity|]. split; [|apply advances_refl].
    apply (inv_weaken _ _ _ _ Hinv).
    intros a b c e _ _ _ Hl [HP|[-> ->]]; [left; exact HP|contradiction].
Qed.

(** The body of the loop over [y]: the row [cy] is handled. *)
Lemma visit_row_inv cur (P : Z -> Z -> Prop) st cy :
  0 <= cur -> inv cur (fun a b _ _ => P a b) st -> 0 <= cy < h ->
  exists st',
    visit_row map w h cur st cy = Done st' /\
    inv cur (fun a b _ _ => P a b \/ b = cy) st' /\
    advances st st'.
Proof.
  intros Hcur Hinv Hcy. unfold visit_row.
  destruct (for_each_total
              (fun pre s =>
                 inv cur (fun a b _ _ => P a b \/ (b = cy /\ In a pre)) s /\
                 advances st s)
              (visit_cell map w h cur cy) (seqZ 0 w) st)
    as (st' & Hrun & Hinv' & Hadv).
  - split; [|apply advances_refl].
    apply (inv_weaken _ _ _ _ Hinv).
    intros a b c e _ _ _ _ [HP|[_ []]]. left. exact HP.
  - intros pre cx s [post Hl] (Hs & Hadv).
    assert (0 <= cx < w) as Hcx.
    { assert (cx ∈ seqZ 0 w) as Hin
        by (rewrite Hl; apply list_elem_of_In, in_elt).
      apply elem_of_seqZ in Hin. lia. }
    destruct (visit_cell_inv cur _ s cx cy Hcur Hs (conj Hcx Hcy))
      as (s' & Hstep & Hs' & Hadv').
    exists s'. split; [assumption|].
    split; [|eapply advances_trans; eassumption].
    apply (inv_weaken _ _ _ _ Hs').
    intros a b c e _ _ _ _ [HP|[-> Hin]]; left.
    + left. left. exact HP.
    + apply in_app_or in Hin as [Hin|[<-|[]]]; [left; right|right]; auto.
  - exists st'. split; [assumption|]. split; [|assumption].
    apply (inv_weaken _ _ _ _ Hinv').
    intros a b c e [Ha _] _ _ _ [HP| ->]; left; [left; exact HP|].
    right. split; [reflexivity|].
    apply list_elem_of_In, elem_of_seqZ. lia.
Qed.

(** One turn of the [while] loop handles every cell. *)
Lemma flood_pass_inv cur dm :
  0 <= cur -> inv cur (fun _ _ _ _ => False) (dm, false) ->
  exists st',
    flood_pass map w h cur dm = Done st' /\
    inv cur (fun _ _ _ _ => True) st' /\
    advances (dm, false) st'.
Proof.
  intros Hcur Hinv. unfold flood_pass.
  destruct (for_each_total
              (fun pre s =>
                 inv cur (fun _ b _ _ => False \/ In b pre) s /\
                 advances (dm, false) s)
              (visit_row map w h cur) (seqZ 0 h) (dm, false))
    as (st' & Hrun & Hinv' & Hadv).
  - split; [|apply advances_refl].
    apply (inv_weaken _ _ _ _ Hinv). intros a b c e _ _ _ _ [[]|[]].
  - intros pre cy s [post Hl] (Hs & Hadv).
    assert (0 <= cy < h) as Hcy.
    { assert (cy ∈ seqZ 0 h) as Hin
        by (rewrite Hl; apply list_elem_of_In, in_elt).
      apply elem_of_seqZ in Hin. lia. }
    destruct (visit_row_inv cur _ s cy Hcur Hs Hcy)
      as (s' & Hstep & Hs' & Hadv').
    exists s'. split; [assumption|].
    split; [|eapply advances_trans; eassumption].
    apply (inv_weaken _ _ _ _ Hs').
    intros a b c e _ _ _ _ [[]|Hin]; left.
    apply in_app_or in Hin as [Hin|[<-|[]]]; [left; right|right]; auto.
  - exists st'. split; [assumption|]. split; [|assumption].
    apply (inv_weaken _ _ _ _ Hinv').
    intros a b c e [_ Hb] _ _ _ _. left. right.
    apply list_elem_of_In, elem_of_seqZ. lia.
Qed.

Lemma inv_next cur dm changed :
  inv cur (fun _ _ _ _ => True) (dm, changed) ->
  inv (cur + 1) (fun _ _ _ _ => False) (dm, false).
Proof.
  intros [Hlen Hs Hrange Hzero Hpar Hclosed Hlip Hflag]. cbn [fst snd] in *.
  constructor; cbn [fst snd]; auto.
  - intros cx cy Hc. specialize (Hrange cx cy Hc). lia.
  - intros cx cy nx ny Hc Hn Hwalk [Hlt|[_ []]].
    apply (Hclosed cx cy nx ny Hc Hn Hwalk).
    destruct (Z.eq_dec (label dm cx cy) cur); [right; auto|left; lia].
  - intros _ cx cy Hc. specialize (Hrange cx cy Hc). lia.
Qed.

(** The [while] loop ends within as many turns as there are unlabelled
    cells, plus the one that changes nothing. *)
Lemma flood_total fuel :
  forall cur dm,
    0 <= cur -> inv cur (fun _ _ _ _ => False) (dm, false) ->
    (unlabelled dm < fuel)%nat ->
    exists dm', flood fuel map w h cur dm = Done dm' /\ settled dm'.
Proof.
  induction fuel as [|fuel IH]; intros cur dm Hcur Hinv Hfuel; [lia|].
  simpl. destruct (flood_pass_inv cur dm Hcur Hinv)
    as ([dm' changed] & -> & Hinv' & Hle & Hlt).
  cbn [bind fst snd] in *. destruct changed.
  - apply IH; [lia|eapply inv_next; eassumption|].
    destruct (Hlt eq_refl) as [|]; [discriminate|lia].
  - exists dm'. split; [reflexivity|]. exists cur. exact Hinv'.
Qed.

Lemma label_replicate n cx cy : label (replicate n (-1)) cx cy = -1.
Proof.
  unfold label. destruct (replicate n (-1) !! Z.to_nat (cy * w + cx)) eqn:E;
    [|reflexivity].
  apply lookup_replicate in E as [-> _]. reflexivity.
Qed.

(** The whole computation of the distance map returns, with fuel for one
    turn per cell. *)
Lemma distance_field_settled fuel :
  (Z.to_nat (w * h) <= fuel)%nat ->
  exists dm, distance_field fuel tx ty map w h = Done dm /\ settled dm.
Proof.
  intros Hfuel. unfold distance_field. rewrite mark_unvisited. cbn [bind].
  destruct Hwf as (Hw & Hh & _).
  assert (Z.of_nat (length (replicate (Z.to_nat (w * h)) (-1))) = w * h)
    as Hlen by (rewrite length_replicate; nia).
  destruct (write_label _ tx ty 0 Hlen Hseed)
    as (dm0 & -> & Hdm0 & Hlen0 & Hnew & Hsame).
  cbn [bind]. apply flood_total; [lia| |].
  - assert (forall cx cy, inb cx cy ->
              (cx = tx /\ cy = ty /\ label dm0 cx cy = 0) \/
              ((cx, cy) <> (tx, ty) /\ label dm0 cx cy = -1)) as Hcell.
    { intros cx cy Hc.
      destruct (Z.eq_dec cx tx) as [->|];
        [destruct (Z.eq_dec cy ty) as [->|]|]; [left; auto| |];
        right; (split; [congruence|]);
        rewrite Hsame by (auto; congruence); apply label_replicate. }
    constructor; cbn [fst snd].
    + exact Hlen0.
    + exact Hnew.
    + intros cx cy Hc.
      destruct (Hcell cx cy Hc) as [(_ & _ & ->)|[_ ->]]; lia.
    + intros cx cy Hc H0.
      destruct (Hcell cx cy Hc) as [(-> & -> & _)|[_ H1]]; [auto|lia].
    + intros cx cy Hc H1.
      destruct (Hcell cx cy Hc) as [(_ & _ & H0)|[_ H0]]; lia.
    + intros cx cy nx ny _ _ _ [Hlt|[_ []]]. lia.
    + intros cx cy nx ny Hc Hn [Hm _] Hc0 Hm0.
      destruct (Hcell cx cy Hc) as [(-> & -> & _)|[_ H1]]; [|lia].
      destruct (Hcell nx ny Hm) as [(-> & -> & _)|[_ H1]]; [|lia].
      apply next_to_distinct in Hn. congruence.
    + intros _ cx cy Hc.
      destruct (Hcell cx cy Hc) as [(_ & _ & ->)|[_ ->]]; lia.
  - rewrite Hdm0.
    pose proof (unlabelled_insert (replicate (Z.to_nat (w * h)) (-1))
                  (Z.to_nat (ty * w + tx)) 0) as Hins.
    rewrite unlabelled_replicate in Hins.
    rewrite <- Hins in Hfuel; [lia| |lia].
    rewrite (lookup_label _ tx ty Hlen Hseed), label_replicate. reflexivity.
Qed.

(** ** Walks from the seed *)

Lemma reach_inb k cx cy : reach k cx cy -> inb cx cy.
Proof. intros [|? ? ? ? ? _ _ [Hin _]]; assumption. Qed.

Lemma settled_reach dm :
  settled dm ->
  forall d cx cy, inb cx cy -> label dm cx cy = Z.of_nat d -> reach d cx cy.
Proof.
  intros [cur Hinv]. induction d as [|d IH]; intros cx cy Hc Hl.
  - destruct (inv_zero _ _ _ _ _ _ _ _ Hinv cx cy Hc Hl) as [-> ->]. constructor.
  - destruct (inv_parent _ _ _ _ _ _ _ _ Hinv cx cy Hc) as (Hwalk & qx & qy & Hq & Hn & Hql);
      [cbn [fst] in *; lia|].
    cbn [fst] in *. apply (reach_step map w h tx ty d qx qy); [|assumption|assumption].
    apply IH; [assumption|lia].
Qed.

Lemma reach_settled dm :
  settled dm ->
  forall k cx cy, reach k cx cy -> 0 <= label dm cx cy <= Z.of_nat k.
Proof.
  intros [cur Hinv] k cx cy Hreach.
  induction Hreach as [|k cx cy nx ny Hreach IH Hn Hwalk].
  - pose proof (inv_seed _ _ _ _ _ _ _ _ Hinv) as Hs. cbn [fst] in Hs. lia.
  - pose proof (reach_inb _ _ _ Hreach) as Hc.
    pose proof (inv_flag _ _ _ _ _ _ _ _ Hinv eq_refl cx cy Hc) as Hle.
    cbn [fst snd] in *.
    assert (0 <= label dm nx ny) as H0.
    { apply (inv_closed _ _ _ _ _ _ _ _ Hinv cx cy nx ny Hc Hn Hwalk). cbn [fst].
      destruct (Z.eq_dec (label dm cx cy) cur); [right; auto|left; lia]. }
    pose proof (inv_lip _ _ _ _ _ _ _ _ Hinv cx cy nx ny Hc Hn Hwalk) as Hlip.
    cbn [fst] in Hlip. lia.
Qed.

(** On a settled map the label of a cell is its distance in steps from the
    seed, and the cells labelled -1 are those that no walk reaches. *)
Lemma settled_hops dm :
  settled dm ->
  forall cx cy d, inb cx cy -> label dm cx cy = Z.of_nat d <-> hops cx cy d.
Proof.
  intros Hset cx cy d Hc. split.
  - intros Hl. split; [eapply settled_reach; eassumption|].
    intros k Hk. pose proof (reach_settled dm Hset k cx cy Hk). lia.
  - intros [Hreach Hmin].
    pose proof (reach_settled dm Hset d cx cy Hreach) as Hle.
    assert (reach (Z.to_nat (label dm cx cy)) cx cy) as Hr
      by (eapply settled_reach; [eassumption|assumption|lia]).
    apply Hmin in Hr. lia.
Qed.

Lemma settled_unreached dm :
  settled dm ->
  forall cx cy, inb cx cy ->
    label dm cx cy = -1 <-> forall k, ~ reach k cx cy.
Proof.
  intros Hset cx cy Hc. split.
  - intros Hl k Hk. pose proof (reach_settled dm Hset k cx cy Hk). lia.
  - intros Hno. destruct Hset as [cur Hinv].
    pose proof (inv_range _ _ _ _ _ _ _ _ Hinv cx cy Hc) as Hr. cbn [fst] in Hr.
    destruct (Z.eq_dec (label dm cx cy) (-1)) as [|Hne]; [assumption|].
    exfalso. apply (Hno (Z.to_nat (label dm cx cy))).
    eapply settled_reach; [exists cur; eassumption|assumption|lia].
Qed.

Lemma settled_non_decreasing dm path :
  settled dm ->
  (forall p, In p path -> inb (fst p) (snd p)) ->
  leads_away path ->
  non_decreasing (List.map (fun p => label dm (fst p) (snd p)) path).
Proof.
  intros Hset. induction path as [|p [|q rest] IH]; intros Hin Hpath;
    try exact I.
  destruct Hpath as (_ & (dp & dq & Hp & Hq & Hle) & Hrest).
  split.
  - apply (settled_hops dm Hset) in Hp, Hq;
      [|apply Hin; right; left; reflexivity|apply Hin; left; reflexivity].
    lia.
  - apply IH; [|exact Hrest]. intros r Hr. apply Hin. right. exact Hr.
Qed.

(** No walk is shorter than the Manhattan distance, so along a walk from
    the seed that goes one tile further at every step the labels count the
    steps. *)
Lemma reach_manhattan k cx cy :
  reach k cx cy -> ManhattanDistance tx ty cx cy <= Z.of_nat k.
Proof.
  induction 1 as [|k cx cy nx ny _ IH Hn _].
  - unfold ManhattanDistance. lia.
  - unfold ManhattanDistance, next_to in *. lia.
Qed.

Lemma steps_out_reach path :
  forall p0 rest k,
    path = p0 :: rest -> steps_out path ->
    reach k (fst p0) (snd p0) ->
    ManhattanDistance tx ty (fst p0) (snd p0) = Z.of_nat k ->
    forall i p, path !! i = Some p ->
      reach (k + i) (fst p) (snd p) /\
      ManhattanDistance tx ty (fst p) (snd p) = Z.of_nat (k + i).
Proof.
  induction path as [|a path IH]; intros p0 rest k Hpath Hout Hreach Hdist i p Hi;
    [discriminate|].
  injection Hpath as -> ->. destruct i as [|i]; simpl in Hi.
  - injection Hi as <-. rewrite Nat.add_0_r. auto.
  - destruct rest as [|q rest]; [discriminate|].
    destruct Hout as (Hn & Hwalk & Hq & Hrest).
    rewrite <- Nat.add_succ_comm.
    apply (IH q rest (S k) eq_refl Hrest); [| |exact Hi].
    + eapply reach_step; eassumption.
    + rewrite Hq, Hdist. lia.
Qed.

Lemma settled_steps_out dm path :
  settled dm ->
  list.head path = Some (tx, ty) -> steps_out path ->
  forall i p, path !! i = Some p ->
              label dm (fst p) (snd p) = Z.of_nat i.
Proof.
  intros Hset Hhead Hout i p Hi.
  destruct path as [|p0 rest]; [discriminate|]. injection Hhead as ->.
  destruct (steps_out_reach _ (tx, ty) rest O eq_refl Hout) with (i := i) (p := p)
    as [Hreach Hdist]; [constructor|unfold ManhattanDistance; simpl; lia|exact Hi|].
  simpl in Hreach, Hdist.
  pose proof (reach_settled dm Hset i _ _ Hreach) as Hle.
  assert (reach (Z.to_nat (label dm (fst p) (snd p))) (fst p) (snd p)) as Hr
    by (eapply settled_reach;
        [exact Hset|eapply reach_inb; exact Hreach|lia]).
  apply reach_manhattan in Hr. lia.
Qed.

(** ** The step towards the target *)

Lemma consider_neighbour_spec dm e best d :
  Z.of_nat (length dm) = w * h ->
  let nx := x e + fst d in
  let ny := y e + snd d in
  consider_neighbour map w h dm e best d =
  Done (if (nx >=? 0) && (nx <? w) && (ny >=? 0) && (ny <? h)
           && negb (is_wall (tile_at nx ny))
           && (label dm nx ny >=? 0) && (label dm nx ny <? snd best)
        then (nx, ny, label dm nx ny) else best).
Proof.
  intros Hlen nx ny. unfold consider_neighbour. fold nx ny.
  destruct ((nx >=? 0) && (nx <? w) && (ny >=? 0) && (ny <? h)) eqn:Hb;
    [|reflexivity].
  assert (inb nx ny) as Hn.
  { rewrite !andb_true_iff, !Z.geb_le, !Z.ltb_lt in Hb. unfold inb. lia. }
  rewrite (read_map nx ny Hn). cbn [bind andb].
  destruct (is_wall (tile_at nx ny)); cbn [negb andb]; [reflexivity|].
  rewrite (read_label dm nx ny Hlen Hn). cbn [bind].
  destruct (label dm nx ny >=? 0); cbn [andb]; [|reflexivity].
  destruct (label dm nx ny <? snd best); reflexivity.
Qed.

(** Without a labelled cell next to the enemy the search keeps the
    enemy's own position. *)
Lemma best_move_no_path dm e :
  Z.of_nat (length dm) = w * h ->
  (forall d, In d neighbours -> inb (x e + fst d) (y e + snd d) ->
             label dm (x e + fst d) (y e + snd d) < 0) ->
  best_move map w h dm e = Done (x e, y e, INT_MAX).
Proof.
  intros Hlen Hnone.
  assert (forall d best, In d neighbours ->
            consider_neighbour map w h dm e best d = Done best) as Hstep.
  { intros d best Hd. rewrite consider_neighbour_spec by assumption.
    destruct ((x e + fst d >=? 0) && (x e + fst d <? w)
              && (y e + snd d >=? 0) && (y e + snd d <? h)) eqn:Hb;
      [|reflexivity].
    assert (inb (x e + fst d) (y e + snd d)) as Hn.
    { rewrite !andb_true_iff, !Z.geb_le, !Z.ltb_lt in Hb. unfold inb. lia. }
    specialize (Hnone d Hd Hn).
    destruct (Z.geb_spec (label dm (x e + fst d) (y e + snd d)) 0); [lia|].
    rewrite andb_false_r. reflexivity. }
  unfold best_move, neighbours. cbn [for_each].
  repeat (rewrite Hstep by (unfold neighbours; simpl; auto 10); cbn [bind]).
  reflexivity.
Qed.

(** In every case the search ends on the enemy's tile or on a walkable
    tile next to it. *)
Lemma best_move_lands dm e :
  Z.of_nat (length dm) = w * h ->
  exists bx by' bd,
    best_move map w h dm e = Done (bx, by', bd) /\
    ((bx, by') = (x e, y e) \/
     (walkable bx by' /\ next_to (x e) (y e) bx by')).
Proof.
  intros Hlen.
  destruct (for_each_total
              (fun _ best =>
                 (fst best = (x e, y e) \/
                  (walkable (fst (fst best)) (snd (fst best)) /\
                   next_to (x e) (y e) (fst (fst best)) (snd (fst best)))))
              (consider_neighbour map w h dm e) neighbours
              (x e, y e, INT_MAX)) as ([[bx by'] bd] & Hrun & Hres).
  - left. reflexivity.
  - intros pre d best [post Hl] Hbest.
    assert (In d neighbours) as Hd by (rewrite Hl; apply in_elt).
    rewrite consider_neighbour_spec by assumption.
    eexists. split; [reflexivity|].
    destruct (_ && _) eqn:Hb; [|exact Hbest].
    right. cbn [fst snd].
    rewrite !andb_true_iff, !Z.geb_le, !Z.ltb_lt, negb_true_iff in Hb.
    split; [split; [unfold inb; lia|tauto]|].
    apply next_to_neighbours. eauto.
  - exists bx, by', bd. split; [exact Hrun|].
    cbn [fst snd] in Hres. destruct Hres as [[= -> ->]|Hres]; auto.
Qed.

End Flood.

(** More fuel does not change a result. *)
Lemma flood_more_fuel n m map w h :
  (n <= m)%nat ->
  forall cur dm r, flood n map w h cur dm = Done r ->
                   flood m map w h cur dm = Done r.
Proof.
  revert m. induction n as [|n IH]; intros m Hle cur dm r; simpl;
    [discriminate|].
  destruct m as [|m]; [lia|]. simpl.
  destruct (flood_pass map w h cur dm) as [[dm' changed]| |]; cbn [bind];
    try discriminate.
  cbn [fst snd]. destruct changed; [|auto]. apply IH. lia.
Qed.

Lemma distance_field_more_fuel n m tx ty map w h r :
  (n <= m)%nat ->
  distance_field n tx ty map w h = Done r ->
  distance_field m tx ty map w h = Done r.
Proof.
  intros Hle. unfold distance_field. rewrite mark_unvisited. cbn [bind].
  destruct (write_at _ _ _); cbn [bind]; try discriminate.
  apply flood_more_fuel, Hle.
Qed.

Lemma set_pos_same e : set_pos e (x e) (y e) = e.
Proof. destruct e. reflexivity. Qed.

(** ** The claims about the distance field *)

(** C3.  On a well-formed map, seeded inside it, the flood fill of
    [MoveWithBreadcrumbs] returns a field that is 0 at the seed; every cell
    labelled [d >= 1] is a walkable cell with a neighbour labelled [d - 1]
    (it was visited from that neighbour and given its distance plus one);
    a walkable neighbour of a labelled cell is labelled, with at most one
    more; the label of a cell is its distance in steps from the seed, and
    -1 marks the cells that no walk reaches.  So along any path of
    neighbouring cells whose steps lead away from the seed (to a cell no
    nearer to it in steps) the labels never decrease, and along a walk
    from the seed that goes one tile further from it at every step the
    labels are 0, 1, 2, ...  Seeded at (4,4) on the open 5 x 5 map, the
    field is 8 at (0,0). *)
Theorem distance_field_from_seed fuel map w h tx ty :
  Grid.well_formed map w h -> 0 <= tx < w /\ 0 <= ty < h ->
  (Z.to_nat (w * h) <= fuel)%nat ->
  (exists field,
     distance_field fuel tx ty map w h = Done field /\
     label w field tx ty = 0 /\
     (forall cx cy,
        inb w h cx cy -> 1 <= label w field cx cy ->
        walkable map w h cx cy /\
        exists qx qy, inb w h qx qy /\ next_to qx qy cx cy /\
                      label w field qx qy = label w field cx cy - 1) /\
     (forall cx cy nx ny,
        inb w h cx cy -> next_to cx cy nx ny -> walkable map w h nx ny ->
        0 <= label w field cx cy ->
        0 <= label w field nx ny <= label w field cx cy + 1) /\
     (forall cx cy d,
        inb w h cx cy ->
        label w field cx cy = Z.of_nat d <-> hops map w h tx ty cx cy d) /\
     (forall cx cy,
        inb w h cx cy ->
        label w field cx cy = -1 <-> forall k, ~ reach map w h tx ty k cx cy) /\
     (forall path,
        (forall p, In p path -> inb w h (fst p) (snd p)) ->
        leads_away map w h tx ty path ->
        non_decreasing
          (List.map (fun p => label w field (fst p) (snd p)) path)) /\
     (forall path,
        list.head path = Some (tx, ty) -> steps_out map w h tx ty path ->
        forall i p, path !! i = Some p ->
                    label w field (fst p) (snd p) = Z.of_nat i)) /\
  ((25 <= fuel)%nat ->
   exists field,
     distance_field fuel 4 4 open5 5 5 = Done field /\
     label 5 field 0 0 = 8).
Proof.
  intros Hwf Hseed Hfuel. split.
  - destruct (distance_field_settled map w h Hwf tx ty Hseed fuel Hfuel)
      as (field & Hrun & Hset).
    exists field. split; [exact Hrun|].
    pose proof Hset as [cur Hinv].
    split; [exact (inv_seed _ _ _ _ _ _ _ _ Hinv)|].
    split; [exact (inv_parent _ _ _ _ _ _ _ _ Hinv)|].
    split; [|split; [|split; [|split]]].
    + intros cx cy nx ny Hc Hn Hwalk H0.
      pose proof (inv_flag _ _ _ _ _ _ _ _ Hinv eq_refl cx cy Hc) as Hle.
      assert (0 <= label w field nx ny) as Hn0.
      { apply (inv_closed _ _ _ _ _ _ _ _ Hinv cx cy nx ny Hc Hn Hwalk).
        cbn [fst snd] in *.
        destruct (Z.eq_dec (label w field cx cy) cur); [right; auto|left; lia]. }
      split; [exact Hn0|].
      apply (inv_lip _ _ _ _ _ _ _ _ Hinv cx cy nx ny Hc Hn Hwalk H0 Hn0).
    + apply settled_hops; assumption.
    + apply settled_unreached; assumption.
    + intros path. apply settled_non_decreasing; assumption.
    + intros path. eapply settled_steps_out; eassumption.
  - intros H25. exists field5. split; [|reflexivity].
    apply (distance_field_more_fuel 25); [exact H25|]. reflexivity.
Qed.

Lemma distance_field_from_seed_witness :
  exists field,
    distance_field 25 4 4 open5 5 5 = Done field /\
    label 5 field 4 4 = 0 /\ label 5 field 0 0 = 8.
Proof.
  destruct (distance_field_from_seed 25 open5 5 5 4 4)
    as [(field & Hrun & Hseed & _) Hscen].
  - unfold Grid.well_formed. simpl. lia.
  - lia.
  - simpl. lia.
  - destruct (Hscen ltac:(lia)) as (field' & Hrun' & H8).
    exists field. split; [exact Hrun|]. split; [exact Hseed|].
    rewrite Hrun in Hrun'. injection Hrun' as ->. exact H8.
Defined.

(** C9.  When no cell next to the enemy carries a distance (every
    neighbour inside the map is labelled below 0, as happens when no walk
    from the target reaches them) the search for the best neighbour ends as
    it started, on the enemy's own tile with [bestDistance] still [INT_MAX],
    and [MoveWithBreadcrumbs] returns the enemy where it was. *)
Theorem no_path_no_move fuel e tx ty map w h :
  Grid.well_formed map w h -> 0 <= tx < w /\ 0 <= ty < h ->
  (Z.to_nat (w * h) <= fuel)%nat ->
  exists field,
    distance_field fuel tx ty map w h = Done field /\
    ((forall d, In d neighbours ->
        inb w h (x e + fst d) (y e + snd d) ->
        label w field (x e + fst d) (y e + snd d) < 0) ->
     best_move map w h field e = Done (x e, y e, INT_MAX) /\
     MoveWithBreadcrumbs fuel e tx ty map w h = Done e) /\
    ((forall d k, In d neighbours ->
        ~ reach map w h tx ty k (x e + fst d) (y e + snd d)) ->
     MoveWithBreadcrumbs fuel e tx ty map w h = Done e).
Proof.
  intros Hwf Hseed Hfuel.
  destruct (distance_field_settled map w h Hwf tx ty Hseed fuel Hfuel)
    as (field & Hrun & Hset).
  exists field. split; [exact Hrun|].
  assert ((forall d, In d neighbours ->
             inb w h (x e + fst d) (y e + snd d) ->
             label w field (x e + fst d) (y e + snd d) < 0) ->
          best_move map w h field e = Done (x e, y e, INT_MAX) /\
          MoveWithBreadcrumbs fuel e tx ty map w h = Done e) as Hnone.
  { intros Hnone. pose proof Hset as [cur Hinv].
    pose proof (best_move_no_path map w h Hwf field e
                  (inv_len _ _ _ _ _ _ _ _ Hinv) Hnone) as Hbest.
    split; [exact Hbest|].
    unfold MoveWithBreadcrumbs. rewrite Hrun. cbn [bind].
    rewrite Hbest. cbn [bind fst snd]. rewrite set_pos_same. reflexivity. }
  split; [exact Hnone|].
  intros Hno. apply Hnone. intros d Hd Hin.
  assert (label w field (x e + fst d) (y e + snd d) = -1); [|lia].
  eapply settled_unreached; [exact Hseed|exact Hset|exact Hin|].
  intros k. apply Hno, Hd.
Qed.

Lemma no_path_no_move_witness :
  MoveWithBreadcrumbs 3 (observer 0 0 5) 2 0 blocked3 3 1 =
  Done (observer 0 0 5).
Proof.
  destruct (no_path_no_move 3 (observer 0 0 5) 2 0 blocked3 3 1)
    as (field & Hrun & Hnone & _).
  - unfold Grid.well_formed. simpl. lia.
  - lia.
  - simpl. lia.
  - apply Hnone. intros d Hd Hin.
    assert (field = [-1; -1; 0]) as -> by (vm_compute in Hrun; congruence).
    destruct Hd as [<-|[<-|[<-|[<-|[]]]]]; destruct Hin as [Hx Hy];
      simpl in Hx, Hy; try lia.
    reflexivity.
Defined.

(** Two enemies of lesson 14 on different tiles, each moved towards the
    player at (1,0) by [MoveWithBreadcrumbs], end on the same tile, the
    player's. *)
Lemma enemies_share_a_tile :
  (0, 0) <> (2, 0) /\
  MoveWithBreadcrumbs 3 (observer 0 0 5) 1 0 row3 3 1 =
    Done (observer 1 0 5) /\
  MoveWithBreadcrumbs 3 (observer 2 0 5) 1 0 row3 3 1 =
    Done (observer 1 0 5).
Proof. repeat split; discriminate. Qed.

(** X2.  On a well-formed map with the target inside it,
    [MoveWithBreadcrumbs] returns, and it leaves the enemy where it is or
    moves it to a tile of the map that is not a wall and is one of the four
    neighbours of the enemy's tile. *)
Theorem MoveWithBreadcrumbs_lands fuel e tx ty map w h :
  Grid.well_formed map w h -> 0 <= tx < w /\ 0 <= ty < h ->
  (Z.to_nat (w * h) <= fuel)%nat ->
  exists bx by',
    MoveWithBreadcrumbs fuel e tx ty map w h = Done (set_pos e bx by') /\
    ((bx, by') = (x e, y e) \/
     (walkable map w h bx by' /\ next_to (x e) (y e) bx by')).
Proof.
  intros Hwf Hseed Hfuel.
  destruct (distance_field_settled map w h Hwf tx ty Hseed fuel Hfuel)
    as (field & Hrun & [cur Hinv]).
  destruct (best_move_lands map w h Hwf tx ty Hseed field e
              (inv_len _ _ _ _ _ _ _ _ Hinv))
    as (bx & by' & bd & Hbest & Hland).
  exists bx, by'. split; [|exact Hland].
  unfold MoveWithBreadcrumbs. rewrite Hrun. cbn [bind].
  rewrite Hbest. reflexivity.
Qed.

Lemma MoveWithBreadcrumbs_lands_witness :
  exists bx by',
    MoveWithBreadcrumbs 3 (observer 0 0 5) 2 0 row3 3 1 =
      Done (set_pos (observer 0 0 5) bx by') /\
    ((bx, by') = (0, 0) \/
     (walkable row3 3 1 bx by' /\ next_to 0 0 bx by')).
Proof.
  apply (MoveWithBreadcrumbs_lands 3 (observer 0 0 5) 2 0 row3 3 1).
  - unfold Grid.well_formed. simpl. lia.
  - lia.
  - simpl. lia.
Defined.

End Field.

(** * Collision shapes *)

Module ShapesFacts.
Import Shapes ShapesSpec.

(** X3.  Two rectangles that have a tile in common collide, and two
    rectangles of positive width and height that collide have a tile in
    common.  The test does not depend on the order of the rectangles.  A
    rectangle collides with itself exactly when its width and height are
    positive: an empty rectangle does not. *)
Theorem RectangleCollision_common_tile r1 r2 :
  ((exists px py, covers r1 px py /\ covers r2 px py) ->
   RectangleCollision r1 r2 = true) /\
  (0 < width r1 -> 0 < height r1 -> 0 < width r2 -> 0 < height r2 ->
   RectangleCollision r1 r2 = true ->
   exists px py, covers r1 px py /\ covers r2 px py) /\
  RectangleCollision r1 r2 = RectangleCollision r2 r1 /\
  (RectangleCollision r1 r1 = true <-> 0 < width r1 /\ 0 < height r1).
Proof.
  unfold RectangleCollision, covers.
  split; [|split; [|split]].
  - intros (px & py & H1 & H2).
    rewrite negb_true_iff, !orb_false_iff, !Z.leb_gt. lia.
  - intros Hw1 Hh1 Hw2 Hh2.
    rewrite negb_true_iff, !orb_false_iff, !Z.leb_gt. intros H.
    exists (Z.max (x r1) (x r2)), (Z.max (y r1) (y r2)). lia.
  - f_equal.
    destruct (Z.leb_spec (x r1 + width r1) (x r2));
      destruct (Z.leb_spec (x r2 + width r2) (x r1));
      destruct (Z.leb_spec (y r1 + height r1) (y r2));
      destruct (Z.leb_spec (y r2 + height r2) (y r1)); reflexivity.
  - rewrite negb_true_iff, !orb_false_iff, !Z.leb_gt. lia.
Qed.

Lemma RectangleCollision_common_tile_witness :
  RectangleCollision (mkRectangle 0 0 4 3) (mkRectangle 3 2 5 5) = true /\
  exists px py, covers (mkRectangle 0 0 4 3) px py /\
                covers (mkRectangle 3 2 5 5) px py.
Proof.
  split; [reflexivity|].
  apply (proj1 (proj2 (RectangleCollision_common_tile
                         (mkRectangle 0 0 4 3) (mkRectangle 3 2 5 5))));
    simpl; try lia; reflexivity.
Defined.






End ShapesFacts.

(** * Passable tiles, occupancy and the responses *)

Module Passage.
Import Collision CollisionSpec PassageSpec.

(** The loop over the rules of [CanMoveTo], started at the rule after
    [pre]. *)
Lemma rules_loop t n :
  forall (pre suffix : list CollisionRule) (ok : bool),
    (n <= length suffix)%nat ->
    for_each
      (fun (ok : bool) (i : Z) =>
         if ok then
           r <- read_at (pre ++ suffix) i ;;
           Done (negb (Ascii.eqb (tile r) t
                       && CollisionType_eqb (rule_type r) COLLISION_SOLID))
         else Done false)
      (seqZ (Z.of_nat (length pre)) (Z.of_nat n)) ok =
    Done (ok && forallb
                  (fun r => negb (Ascii.eqb (tile r) t
                                  && CollisionType_eqb (rule_type r)
                                       COLLISION_SOLID))
                  (take n suffix)).
Proof.
  induction n as [|n IH]; intros pre suffix ok Hn.
  - simpl. rewrite andb_true_r. reflexivity.
  - destruct suffix as [|r suffix]; [simpl in Hn; lia|].
    rewrite seqZ_cons by lia. cbn [for_each].
    replace (Z.pred (Z.of_nat (S n))) with (Z.of_nat n) by lia.
    replace (Z.succ (Z.of_nat (length pre)))
      with (Z.of_nat (length (pre ++ [r])))
      by (rewrite length_app; simpl; lia).
    assert (read_at (pre ++ r :: suffix) (Z.of_nat (length pre)) = Done r)
      as Hread.
    { apply GridFacts.read_at_Some. split; [lia|].
      rewrite Nat2Z.id. apply list_lookup_middle. reflexivity. }
    replace (pre ++ r :: suffix) with ((pre ++ [r]) ++ suffix) in *
      by (rewrite <- app_assoc; reflexivity).
    destruct ok.
    + rewrite Hread. cbn [bind]. rewrite IH by (simpl in Hn; lia).
      simpl. reflexivity.
    + cbn [bind]. rewrite IH by (simpl in Hn; lia). reflexivity.
Qed.

Lemma CollisionType_eqb_eq a b : CollisionType_eqb a b = true <-> a = b.
Proof. destruct a, b; simpl; split; congruence. Qed.

(** X5.  On a well-formed collision layer, with [ruleCount] no more than
    the number of rules, [CanMoveTo] returns, reading neither the map nor
    the rules outside their arrays.  It answers true exactly when the tile
    is inside the map and none of the first [ruleCount] rules makes its
    character solid; outside the map it answers false without reading the
    map. *)
Theorem CanMoveTo_decides map nx ny rules ruleCount :
  Grid.well_formed (collision map) (width map) (height map) ->
  ruleCount <= Z.of_nat (length rules) ->
  (out_of_bounds map nx ny ->
   CanMoveTo map nx ny rules ruleCount = Done false) /\
  exists b,
    CanMoveTo map nx ny rules ruleCount = Done b /\
    (b = true <->
     ~ out_of_bounds map nx ny /\
     forall t r,
       read_at (collision map) (ny * width map + nx) = Done t ->
       In r (take (Z.to_nat ruleCount) rules) -> ~ forbids t r).
Proof.
  intros Hwf Hcount. unfold CanMoveTo.
  destruct ((nx <? 0) || (nx >=? width map) || (ny <? 0)
            || (ny >=? height map)) eqn:Hb.
  - apply Resolver.bounds_test in Hb.
    split; [reflexivity|]. exists false. split; [reflexivity|].
    split; [discriminate|]. intros [Hin _]. contradiction.
  - assert (~ out_of_bounds map nx ny) as Hin
      by (rewrite <- Resolver.bounds_test; congruence).
    split; [intros Hout; contradiction|].
    destruct (GridFacts.read_in_bounds _ _ _ (nx, ny) Hwf) as [t Ht].
    { unfold out_of_bounds in Hin. unfold Grid.in_bounds. simpl. lia. }
    simpl in Ht. rewrite Ht. cbn [bind].
    pose proof (rules_loop t (Z.to_nat ruleCount) [] rules true) as Hloop.
    cbn [length app andb] in Hloop. change (Z.of_nat 0) with 0 in Hloop.
    destruct (Z.le_gt_cases ruleCount 0) as [Hneg|Hpos].
    + rewrite seqZ_nil by exact Hneg. simpl. exists true.
      split; [reflexivity|]. split; [|reflexivity]. intros _.
      split; [exact Hin|]. intros t' r _ Hr.
      replace (Z.to_nat ruleCount) with O in Hr by lia. destruct Hr.
    + rewrite Z2Nat.id in Hloop by lia. rewrite Hloop by lia.
      eexists. split; [reflexivity|].
      rewrite forallb_forall. split.
      * intros Hall. split; [exact Hin|]. intros t' r Ht' Hr [Htile Hsolid].
        assert (t' = t) as -> by congruence.
        specialize (Hall r Hr). rewrite Htile, Hsolid in Hall.
        rewrite Ascii.eqb_refl in Hall. discriminate.
      * intros [_ Hall] r Hr.
        destruct (Ascii.eqb (tile r) t) eqn:Et; [|reflexivity].
        destruct (CollisionType_eqb (rule_type r) COLLISION_SOLID) eqn:Es;
          [|reflexivity].
        exfalso. apply (Hall t r eq_refl Hr). split.
        -- apply Ascii.eqb_eq, Et.
        -- apply CollisionType_eqb_eq, Es.
Qed.

Lemma CanMoveTo_decides_witness :
  CanMoveTo strip (-1) 0 defaultRules 5 = Done false /\
  exists b, CanMoveTo strip 1 0 defaultRules 5 = Done b.
Proof.
  destruct (CanMoveTo_decides strip (-1) 0 defaultRules 5) as [Hout _].
  - unfold Grid.well_formed. simpl. lia.
  - simpl. lia.
  - split.
    + apply Hout. unfold out_of_bounds. simpl. lia.
    + destruct (CanMoveTo_decides strip 1 0 defaultRules 5)
        as [_ (b & Hb & _)].
      * unfold Grid.well_formed. simpl. lia.
      * simpl. lia.
      * exists b. exact Hb.
Defined.

(** [CanMoveTo] with the default rules is the classification of the
    tile. *)
Lemma CanMoveTo_default map nx ny :
  CanMoveTo map nx ny defaultRules 5 =
  if (nx <? 0) || (nx >=? width map) || (ny <? 0) || (ny >=? height map)
  then Done false
  else t <- read_at (collision map) (ny * width map + nx) ;;
       Done (negb (CollisionType_eqb (classify_tile t) COLLISION_SOLID)).
Proof.
  unfold CanMoveTo. destruct (_ || _); [reflexivity|].
  destruct (read_at (collision map) (ny * width map + nx)) as [t| |];
    [|reflexivity|reflexivity].
  destruct t as [[] [] [] [] [] [] [] []]; reflexivity.
Qed.

(** X6.  With the five default rules, [CanMoveTo] gives the verdict of
    [CheckAllCollisions] on the same tile when no entity is there to
    block: both refuse what lies outside the map and the solid tiles, and
    they fail on the same reads.  Whatever the entities, a move that
    [CheckAllCollisions] allows is one that [CanMoveTo] allows, and a tile
    that [CanMoveTo] refuses is denied by [CheckAllCollisions]. *)
Theorem CanMoveTo_agrees_with_CheckAllCollisions map es mover nx ny :
  CanMoveTo map nx ny defaultRules 5 =
    (r <- CheckAllCollisions map [] mover nx ny ;; Done (canMove r)) /\
  (forall r, CheckAllCollisions map es mover nx ny = Done r ->
             canMove r = true ->
             CanMoveTo map nx ny defaultRules 5 = Done true) /\
  (CanMoveTo map nx ny defaultRules 5 = Done false ->
   exists r, CheckAllCollisions map es mover nx ny = Done r /\
             canMove r = false).
Proof.
  rewrite CanMoveTo_default. unfold CheckAllCollisions.
  destruct (_ || _); [repeat split; eauto; intros r [= <-]; discriminate|].
  destruct (read_at (collision map) (ny * width map + nx)) as [t| |];
    cbn [bind]; [|repeat split; discriminate|repeat split; discriminate].
  rewrite Resolver.check_rules_default.
  split; [|split].
  - simpl. destruct (classify_tile t); reflexivity.
  - intros r Hr Hcan.
    destruct (classify_tile t); try reflexivity.
    injection Hr as <-. discriminate.
  - intros Hno.
    destruct (classify_tile t); try discriminate.
    eexists. split; reflexivity.
Qed.

(** X7.  [GetEntityAt] returns the first entity of the list that is alive
    and solid, stands on the tile asked for and does not carry the excluded
    identifier; it returns none exactly when the list has no such entity.
    So it never returns the mover, a dead entity or one that is not
    solid. *)
Theorem GetEntityAt_first_match es qx qy excludeId :
  match GetEntityAt es qx qy excludeId with
  | Some hit =>
      exists before after,
        es = before ++ hit :: after /\ blocks qx qy excludeId hit /\
        forall e, In e before -> ~ blocks qx qy excludeId e
  | None => forall e, In e es -> ~ blocks qx qy excludeId e
  end.
Proof.
  induction es as [|e es IH]; simpl; [intros e []|].
  destruct (isAlive e && (x e =? qx) && (y e =? qy)
            && negb (id e =? excludeId) && isSolid e) eqn:E.
  - exists [], es. split; [reflexivity|]. split; [|intros e' []].
    rewrite !andb_true_iff, negb_true_iff, !Z.eqb_eq, Z.eqb_neq in E.
    unfold blocks. tauto.
  - assert (~ blocks qx qy excludeId e) as Hne.
    { intros (Ha & Hs & Hx & Hy & Hid).
      rewrite Ha, Hs in E. apply Z.eqb_eq in Hx, Hy. apply Z.eqb_neq in Hid.
      rewrite Hx, Hy, Hid in E. discriminate. }
    destruct (GetEntityAt es qx qy excludeId) as [hit|].
    + destruct IH as (before & after & -> & Hhit & Hbefore).
      exists (e :: before), after. split; [reflexivity|].
      split; [exact Hhit|]. intros e' [<-|Hin]; [exact Hne|].
      apply Hbefore, Hin.
    + intros e' [<-|Hin]; [exact Hne|]. apply IH, Hin.
Qed.

(** X8.  [SwapPositions] exchanges the positions of two entities and
    nothing else, and a second swap undoes the first.  When the two are
    entities of a list in which no two live solid entities share a tile,
    and both block or neither does, none share a tile after the swap. *)
Theorem SwapPositions_keeps_apart es i j mover target :
  es !! i = Some mover -> es !! j = Some target -> i <> j ->
  isAlive mover && isSolid mover = isAlive target && isSolid target ->
  no_overlap es ->
  let swapped := SwapPositions mover target in
  (x (fst swapped), y (fst swapped)) = (x target, y target) /\
  (x (snd swapped), y (snd swapped)) = (x mover, y mover) /\
  same_entity (fst swapped) mover /\ same_entity (snd swapped) target /\
  SwapPositions (fst swapped) (snd swapped) = (mover, target) /\
  no_overlap (<[i := fst swapped]> (<[j := snd swapped]> es)).
Proof.
  intros Hi Hj Hij Hstatus Hno. cbv zeta. unfold SwapPositions. cbn [fst snd].
  split; [reflexivity|]. split; [reflexivity|].
  split; [repeat split|]. split; [repeat split|].
  split; [destruct mover, target; reflexivity|].
  assert (forall k e,
            <[i:=set_position mover (x target) (y target)]>
              (<[j:=set_position target (x mover) (y mover)]> es) !! k = Some e ->
            isAlive e = true -> isSolid e = true ->
            exists k' e', es !! k' = Some e' /\ isAlive e' = true /\
                          isSolid e' = true /\ (x e', y e') = (x e, y e) /\
                          (k' = k /\ k <> i /\ k <> j \/
                           k' = j /\ k = i \/ k' = i /\ k = j)) as Hfrom.
  { intros k e Hk Ha Hs.
    apply list_lookup_insert_Some in Hk as [(<- & <- & _)|[Hki Hk]].
    - exists j, target. simpl in Ha, Hs.
      rewrite Ha, Hs in Hstatus. symmetry in Hstatus.
      apply andb_true_iff in Hstatus as [Ha' Hs'].
      repeat split; auto.
    - apply list_lookup_insert_Some in Hk as [(<- & <- & _)|[Hkj Hk]].
      + exists i, mover. simpl in Ha, Hs.
        rewrite Ha, Hs in Hstatus.
        apply andb_true_iff in Hstatus as [Ha' Hs'].
        repeat split; auto.
      + exists k, e. repeat split; auto. }
  intros k l e1 e2 Hk Hl Hkl Ha1 Hs1 Ha2 Hs2.
  destruct (Hfrom k e1 Hk Ha1 Hs1) as (k' & e1' & Hk' & Ha1' & Hs1' & <- & Hwk).
  destruct (Hfrom l e2 Hl Ha2 Hs2) as (l' & e2' & Hl' & Ha2' & Hs2' & <- & Hwl).
  apply (Hno k' l'); auto. lia.
Qed.

Lemma SwapPositions_keeps_apart_witness :
  no_overlap [set_position hero 1 0; set_position npc 0 0].
Proof.
  apply (SwapPositions_keeps_apart [hero; npc] 0%nat 1%nat hero npc);
    try reflexivity; [lia|].
  intros i j e1 e2 Hi Hj Hne _ _ _ _.
  destruct i as [|[|i]]; destruct j as [|[|j]]; simpl in Hi, Hj;
    try discriminate; try lia;
    injection Hi as <-; injection Hj as <-; discriminate.
Defined.

End Passage.

(** * Spatial partitioning *)

Module PartitionFacts.
Import Collision Partition PartitionSpec.

(** A loop that looks for an element with a property and stops at the
    first it finds. *)
Lemma for_each_any {A} (body : bool -> A -> result bool) (P : A -> Prop) l :
  (forall a, body true a = Done true) ->
  (forall a, In a l -> exists b, body false a = Done b /\ (b = true <-> P a)) ->
  forall found,
  exists b, for_each body l found = Done b /\
            (b = true <-> found = true \/ exists a, In a l /\ P a).
Proof.
  intros Htrue. induction l as [|a l IH]; intros Hfalse found.
  - exists found. split; [reflexivity|]. split; [auto|].
    intros [H|(a & [] & _)]. exact H.
  - cbn [for_each]. destruct found.
    + rewrite Htrue. cbn [bind].
      destruct (IH (fun a' Ha' => Hfalse a' (or_intror Ha')) true)
        as (b & -> & Hb).
      exists b. split; [reflexivity|]. split; [auto|]. intros _.
      apply Hb. left. reflexivity.
    + destruct (Hfalse a (or_introl eq_refl)) as (b0 & -> & Hb0). cbn [bind].
      destruct (IH (fun a' Ha' => Hfalse a' (or_intror Ha')) b0)
        as (b & -> & Hb).
      exists b. split; [reflexivity|]. rewrite Hb, Hb0. split.
      * intros [Ha|(a' & Hin & Ha')]; right; [exists a|exists a'];
          split; auto; [left|right]; auto.
      * intros [Hf|(a' & [<-|Hin] & Ha')]; [discriminate|left; exact Ha'|].
        right. exists a'. auto.
Qed.

Lemma check_nodes_spec store nodes entity newX newY :
  (forall node, In node nodes -> exists e, store !! node = Some e) ->
  exists b,
    check_nodes store nodes entity newX newY = Done b /\
    (b = true <->
     exists node e, In node nodes /\ store !! node = Some e /\
                    in_the_way entity newX newY e).
Proof.
  induction nodes as [|node nodes IH]; intros Hstore.
  - exists false. split; [reflexivity|]. split; [discriminate|].
    intros (? & ? & [] & _).
  - cbn [check_nodes]. unfold entity_of.
    destruct (Hstore node (or_introl eq_refl)) as [e He]. rewrite He.
    cbn [bind].
    destruct ((x e =? newX) && (y e =? newY) && negb (id e =? id entity))
      eqn:E.
    + exists true. split; [reflexivity|]. split; [|reflexivity]. intros _.
      exists node, e. split; [left; reflexivity|]. split; [exact He|].
      rewrite !andb_true_iff, negb_true_iff, !Z.eqb_eq, Z.eqb_neq in E.
      unfold in_the_way. tauto.
    + destruct (IH (fun n Hn => Hstore n (or_intror Hn))) as (b & -> & Hb).
      exists b. split; [reflexivity|]. rewrite Hb. split.
      * intros (n & e' & Hin & Hn & Hway). exists n, e'.
        split; [right; exact Hin|auto].
      * intros (n & e' & [<-|Hin] & Hn & Hway); [|exists n, e'; auto].
        exfalso. assert (e' = e) as -> by congruence.
        destruct Hway as (Hx & Hy & Hid).
        apply Z.eqb_eq in Hx, Hy. apply Z.eqb_neq in Hid.
        rewrite Hx, Hy, Hid in E. discriminate.
Qed.

(** The cells with nodes are cells of the grid. *)
Lemma in_cell_inside sg gx gy node :
  shaped sg -> in_cell sg gx gy node ->
  0 <= gx < gridWidth sg /\ 0 <= gy < gridHeight sg.
Proof.
  intros [Hrows Hcells] (Hx & Hy & row & nodes & Hrow & Hnodes & _).
  pose proof (lookup_lt_Some _ _ _ Hrow) as Hlt.
  pose proof (lookup_lt_Some _ _ _ Hnodes) as Hlt'.
  assert (In row (grid sg)) as Hin
    by (eapply list_elem_of_In, list_elem_of_lookup_2, Hrow).
  specialize (Hcells row Hin). lia.
Qed.

Lemma check_cell_spec store sg entity newX newY gridX gridY dy dx :
  shaped sg -> up_to_date store sg ->
  exists b,
    check_cell store sg entity newX newY gridX gridY dy false dx = Done b /\
    (b = true <->
     exists node e, in_cell sg (gridX + dx) (gridY + dy) node /\
                    store !! node = Some e /\ in_the_way entity newX newY e).
Proof.
  intros Hshaped Hdate. unfold check_cell.
  destruct (Z.ltb_spec (gridX + dx) 0) as [Hx0|Hx0];
    [|destruct (Z.geb_spec (gridX + dx) (gridWidth sg)) as [Hx1|Hx1];
      [|destruct (Z.ltb_spec (gridY + dy) 0) as [Hy0|Hy0];
        [|destruct (Z.geb_spec (gridY + dy) (gridHeight sg)) as [Hy1|Hy1]]]];
    cbn [orb].
  1-4: exists false; (split; [reflexivity|]); (split; [discriminate|]);
       intros (node & e & Hcell & _);
       apply (in_cell_inside _ _ _ _ Hshaped) in Hcell; lia.
  destruct Hshaped as [Hrows Hcells].
  destruct (lookup_lt_is_Some_2 (grid sg) (Z.to_nat (gridY + dy)))
    as [row Hrow]; [lia|].
  assert (In row (grid sg)) as Hin
    by (eapply list_elem_of_In, list_elem_of_lookup_2, Hrow).
  destruct (lookup_lt_is_Some_2 row (Z.to_nat (gridX + dx)))
    as [nodes Hnodes]; [specialize (Hcells row Hin); lia|].
  rewrite (proj2 (GridFacts.read_at_Some (grid sg) (gridY + dy) row))
    by (split; [lia|exact Hrow]).
  cbn [bind].
  rewrite (proj2 (GridFacts.read_at_Some row (gridX + dx) nodes))
    by (split; [lia|exact Hnodes]).
  cbn [bind].
  destruct (check_nodes_spec store nodes entity newX newY) as (b & -> & Hb).
  { intros node Hnode.
    destruct (Hdate (gridX + dx) (gridY + dy) node) as (e & He & _);
      [|exists e; exact He].
    split; [lia|]. split; [lia|]. exists row, nodes. auto. }
  exists b. split; [reflexivity|]. rewrite Hb. split.
  - intros (node & e & Hnode & He & Hway). exists node, e.
    split; [|auto]. split; [lia|]. split; [lia|]. exists row, nodes. auto.
  - intros (node & e & (_ & _ & row' & nodes' & Hrow' & Hnodes' & Hnode)
            & He & Hway).
    assert (row' = row) as -> by congruence.
    assert (nodes' = nodes) as -> by congruence.
    exists node, e. auto.
Qed.

(** X9.  [CheckNearbyCollisions] on a grid that is up to date (every node
    is in the cell of the tile on which its entity stands) returns, and it
    answers true exactly when some entity registered in the grid, in
    whatever cell, stands on the tile asked for and is not the mover: the
    nine cells it looks at are enough.  Whether the entity is alive or
    solid plays no part. *)
Theorem CheckNearbyCollisions_finds store sg entity newX newY :
  shaped sg -> up_to_date store sg ->
  exists b,
    CheckNearbyCollisions store sg entity newX newY = Done b /\
    (b = true <->
     exists gx gy node e,
       in_cell sg gx gy node /\ store !! node = Some e /\
       in_the_way entity newX newY e).
Proof.
  intros Hshaped Hdate. unfold CheckNearbyCollisions.
  destruct (GetGridCell newX newY) as [gridX gridY] eqn:Hcell.
  set (P := fun dy dx : Z =>
              exists node e, in_cell sg (gridX + dx) (gridY + dy) node /\
                             store !! node = Some e /\
                             in_the_way entity newX newY e).
  assert (forall dy found,
            exists b,
              for_each (check_cell store sg entity newX newY gridX gridY dy)
                (seqZ (-1) 3) found = Done b /\
              (b = true <->
               found = true \/ exists dx, In dx (seqZ (-1) 3) /\ P dy dx))
    as Hinner.
  { intros dy. apply for_each_any; [reflexivity|].
    intros dx _. apply check_cell_spec; assumption. }
  destruct (for_each_any
              (fun found dy =>
                 for_each (check_cell store sg entity newX newY gridX gridY dy)
                   (seqZ (-1) 3) found)
              (fun dy => exists dx, In dx (seqZ (-1) 3) /\ P dy dx)
              (seqZ (-1) 3)) with (found := false) as (b & Hrun & Hb).
  - intros dy. destruct (Hinner dy true) as (b & -> & Hb).
    f_equal. apply Hb. left. reflexivity.
  - intros dy _. destruct (Hinner dy false) as (b & -> & Hb).
    exists b. split; [reflexivity|]. rewrite Hb. split.
    + intros [Hf|H]; [discriminate|exact H].
    + intros H. right. exact H.
  - exists b. split; [exact Hrun|]. rewrite Hb. split.
    + intros [Hf|(dy & _ & dx & _ & node & e & Hin & He & Hway)];
        [discriminate|].
      exists (gridX + dx), (gridY + dy), node, e. auto.
    + intros (gx & gy & node & e & Hin & He & Hway). right.
      destruct (Hdate gx gy node Hin) as (e' & He' & Hcell').
      assert (e' = e) as -> by congruence.
      destruct Hway as (Hx & Hy & Hid). rewrite Hx, Hy, Hcell in Hcell'.
      injection Hcell' as <- <-.
      exists 0. split; [vm_compute; auto|].
      exists 0. split; [vm_compute; auto|].
      exists node, e. rewrite !Z.add_0_r. unfold in_the_way. auto.
Qed.

Lemma grid3_shaped : shaped grid3.
Proof.
  split; [reflexivity|].
  intros row [<-|[<-|[]]]; reflexivity.
Qed.

Lemma grid3_up_to_date : up_to_date store3 grid3.
Proof.
  intros gx gy node (Hx & Hy & row & nodes & Hrow & Hnodes & Hnode).
  remember (Z.to_nat gx) as i eqn:Hi. remember (Z.to_nat gy) as j eqn:Hj.
  assert (gx = Z.of_nat i) as -> by lia.
  assert (gy = Z.of_nat j) as -> by lia.
  clear Hi Hj Hx Hy.
  destruct j as [|[|?]]; simpl in Hrow; try discriminate;
    injection Hrow as <-;
    destruct i as [|[|[|?]]]; simpl in Hnodes; try discriminate;
    injection Hnodes as <-; simpl in Hnode; try (destruct Hnode; fail);
    destruct Hnode as [<-|[]]; eexists; split; reflexivity.
Qed.

Lemma CheckNearbyCollisions_finds_witness :
  exists b,
    CheckNearbyCollisions store3 grid3 (mkEntity 20 12 "@" true true 1)
      21 12 = Done b /\
    (b = true <->
     exists gx gy node e,
       in_cell grid3 gx gy node /\ store3 !! node = Some e /\
       in_the_way (mkEntity 20 12 "@" true true 1) 21 12 e).
Proof.
  apply (CheckNearbyCollisions_finds store3 grid3
           (mkEntity 20 12 "@" true true 1) 21 12).
  - exact grid3_shaped.
  - exact grid3_up_to_date.
Defined.

(** X10.  [CreateSpatialGrid] gives a grid of the dimensions it records,
    with no node in any cell, so up to date for every store.  Every tile of
    the world belongs to a cell of the grid.  The division rounding towards
    zero, the tiles with a coordinate from -9 to 9 all belong to the row or
    column 0. *)
Theorem CreateSpatialGrid_covers worldWidth worldHeight :
  let sg := CreateSpatialGrid worldWidth worldHeight in
  shaped sg /\
  (forall gx gy node, ~ in_cell sg gx gy node) /\
  (forall store, up_to_date store sg) /\
  (forall px py,
     0 <= px < worldWidth -> 0 <= py < worldHeight ->
     0 <= fst (GetGridCell px py) < gridWidth sg /\
     0 <= snd (GetGridCell px py) < gridHeight sg) /\
  (forall px py,
     (-10 < px < 10 -> fst (GetGridCell px py) = 0) /\
     (-10 < py < 10 -> snd (GetGridCell px py) = 0)).
Proof.
  cbv zeta. unfold CreateSpatialGrid, GetGridCell, GRID_SIZE.
  set (gw := Z.quot (worldWidth + 10 - 1) 10).
  set (gh := Z.quot (worldHeight + 10 - 1) 10).
  assert (forall gx gy node,
            ~ in_cell
                (mkGrid ((fun _ => (fun _ => []) <$> seqZ 0 gw) <$> seqZ 0 gh)
                   gw gh) gx gy node) as Hempty.
  { intros gx gy node (_ & _ & row & nodes & Hrow & Hnodes & Hnode).
    cbn [grid] in Hrow.
    apply list_lookup_fmap_Some in Hrow as (? & -> & _).
    apply list_lookup_fmap_Some in Hnodes as (? & -> & _).
    destruct Hnode. }
  split; [|split; [exact Hempty|split; [|split]]].
  - split; cbn [grid gridWidth gridHeight].
    + rewrite length_fmap, length_seqZ. reflexivity.
    + intros row Hrow. apply list_elem_of_In, list_elem_of_fmap in Hrow
        as (? & -> & _).
      rewrite length_fmap, length_seqZ. reflexivity.
  - intros store gx gy node Hin. destruct (Hempty gx gy node Hin).
  - intros px py Hx Hy. cbn [fst snd gridWidth gridHeight]. subst gw gh.
    Z.to_euclidean_division_equations. lia.
  - intros px py. cbn [fst snd].
    split; intros H; Z.to_euclidean_division_equations; lia.
Qed.

End PartitionFacts.

(** * The player of the collision demonstration *)

Module CollisionDemoFacts.
Import Collision CollisionSpec PassageSpec Input CollisionDemo
  CollisionDemoSpec.

Lemma direction_small k :
  -1 <= fst (direction k) <= 1 /\ -1 <= snd (direction k) <= 1.
Proof. destruct k as [[] [] [] []]; simpl; lia. Qed.

Lemma move_player_returns m player rest dx dy :
  Grid.well_formed (collision m) (width m) (height m) ->
  exists player', move_player m player rest dx dy = Done player'.
Proof.
  intros Hwf. unfold move_player.
  destruct (_ || _); [|eauto].
  unfold CheckAllCollisions.
  destruct (_ || _) eqn:Hb; cbn [bind]; [eauto|].
  destruct (GridFacts.read_in_bounds _ _ _ (x player + dx, y player + dy) Hwf)
    as [t Ht].
  { assert (~ out_of_bounds m (x player + dx) (y player + dy)) as Hin
      by (rewrite <- Resolver.bounds_test; congruence).
    unfold out_of_bounds in Hin. unfold Grid.in_bounds. simpl. lia. }
  simpl in Ht. rewrite Ht. cbn [bind].
  destruct (check_rules defaultRules t _); cbn [bind].
  - destruct (canMove c); eauto.
  - destruct (GetEntityAt _ _ _ _) as [hit|];
      [destruct (isSolid hit)|]; cbn [bind canMove];
      try destruct (canMove c); eauto.
Qed.

(** One frame. *)
Lemma handle_input_free m rest player k :
  Grid.well_formed (collision m) (width m) (height m) ->
  stands_free m rest player ->
  exists player',
    handle_input m rest player k = Done player' /\
    stands_free m rest player' /\ same_entity player' player /\
    Z.abs (x player' - x player) <= 1 /\ Z.abs (y player' - y player) <= 1.
Proof.
  intros Hwf Hfree. unfold handle_input.
  pose proof (direction_small k) as Hsmall.
  destruct (direction k) as [dx dy]. cbn [fst snd] in Hsmall.
  destruct (move_player_returns m player rest dx dy Hwf) as [player' Hmove].
  exists player'. split; [exact Hmove|].
  destruct (Resolver.move_player_cases _ _ _ _ _ _ Hmove)
    as [->|(-> & Hin & Htile & Hnone)].
  - split; [exact Hfree|]. split; [repeat split|]. lia.
  - split; [|split; [repeat split|simpl; lia]].
    split; [exact Hin|]. split; [exact Htile|].
    intros e He. apply Hnone. right. exact He.
Qed.

(** X11.  Whatever keys are pressed, frame after frame, the input handling
    of the demonstration returns on a well-formed map and keeps the player
    inside the map, off the solid tiles and off the tiles of the live solid
    entities, when the player starts so.  It changes the position of the
    player only, by at most one tile along each axis in a frame. *)
Theorem play_stays_free m rest player frames :
  Grid.well_formed (collision m) (width m) (height m) ->
  stands_free m rest player ->
  exists player',
    play m rest player frames = Done player' /\
    stands_free m rest player' /\ same_entity player' player /\
    Z.abs (x player' - x player) <= Z.of_nat (length frames) /\
    Z.abs (y player' - y player) <= Z.of_nat (length frames).
Proof.
  intros Hwf. unfold play. revert player.
  induction frames as [|k frames IH]; intros player Hfree.
  - exists player. split; [reflexivity|]. split; [exact Hfree|].
    split; [repeat split|]. simpl. lia.
  - cbn [for_each].
    destruct (handle_input_free m rest player k Hwf Hfree)
      as (p1 & -> & Hfree1 & Hsame1 & Hx1 & Hy1).
    cbn [bind].
    destruct (IH p1 Hfree1) as (p2 & -> & Hfree2 & Hsame2 & Hx2 & Hy2).
    exists p2. split; [reflexivity|]. split; [exact Hfree2|].
    split.
    + unfold same_entity in *. intuition congruence.
    + rewrite length_cons. lia.
Qed.

Lemma play_stays_free_witness :
  exists player',
    play demo_layers [demo_npc] demo_player some_frames = Done player' /\
    stands_free demo_layers [demo_npc] player'.
Proof.
  destruct (play_stays_free demo_layers [demo_npc] demo_player some_frames)
    as (player' & Hrun & Hfree & _).
  - unfold Grid.well_formed. vm_compute. repeat split.
  - split; [|split].
    + unfold out_of_bounds. vm_compute. intuition discriminate.
    + exists "."%char. split; [reflexivity|discriminate].
    + intros e [<-|[]] (_ & _ & Hx & _). discriminate.
  - exists player'. split; assumption.
Defined.

(** Copying the characters of [l] to [d] from the place [k]. *)
Lemma copy_loop (l : list ascii) :
  forall k d,
    (k <= length d)%nat ->
    for_each (fun d ic => write_at d (Z.of_nat (fst ic)) (snd ic))
      (imap (fun i c => ((k + i)%nat, c)) l) d =
    if decide (k + length l <= length d)%nat
    then Done (take k d ++ l ++ drop (k + length l) d)
    else Fault.
Proof.
  induction l as [|c l IH]; intros k d Hk.
  - cbn [imap for_each length]. rewrite Nat.add_0_r.
    destruct (decide (k <= length d)%nat); [|lia].
    cbn [app]. rewrite take_drop. reflexivity.
  - rewrite imap_cons. cbn [for_each fst snd length]. unfold write_at.
    rewrite Nat.add_0_r.
    destruct (Z.ltb_spec (Z.of_nat k) (Z.of_nat (length d))) as [Hlt|Hge].
    + replace (0 <=? Z.of_nat k) with true by (symmetry; apply Z.leb_le; lia).
      cbn [andb bind]. rewrite Nat2Z.id.
      rewrite (imap_ext _ (fun i c' => ((S k + i)%nat, c')))
        by (intros i c' _; unfold compose; f_equal; lia).
      rewrite IH by (rewrite length_insert; lia).
      rewrite length_insert.
      destruct (decide (S k + length l <= length d)%nat);
        destruct (decide (k + S (length l) <= length d)%nat); try lia;
        [|reflexivity].
      f_equal. rewrite (take_S_r _ _ c) by (apply list_lookup_insert_eq; lia).
      rewrite take_insert_ge by lia.
      rewrite drop_insert_lt by lia.
      rewrite <- app_assoc. cbn [app].
      replace (S k + length l)%nat with (k + S (length l))%nat by lia.
      reflexivity.
    + rewrite andb_false_r. cbn [bind].
      destruct (decide (k + S (length l) <= length d)%nat); [lia|reflexivity].
Qed.

(** X12.  [main] fills [map.visual], an array of [map.width * map.height]
    = 300 bytes, with [strcpy] from a literal of 300 characters: the
    terminating NUL is written at the place 300, outside the array.
    [strcpy] returns exactly when the destination has room for the
    characters and the NUL, and then holds them at its start. *)
Theorem strcpy_overruns_visual dest src :
  ((length src < length dest)%nat ->
   strcpy dest src =
   Done (src ++ "000"%char :: drop (S (length src)) dest)) /\
  ((length dest <= length src)%nat -> strcpy dest src = Fault) /\
  (length dest = Z.to_nat (20 * 15) -> load_visual dest = Fault).
Proof.
  assert (forall s : list ascii,
            strcpy dest s =
            if decide (length s + 1 <= length dest)%nat
            then Done (s ++ "000"%char :: drop (S (length s)) dest)
            else Fault) as Hcopy.
  { intros s. unfold strcpy.
    pose proof (copy_loop (s ++ ["000"%char]) 0 dest ltac:(lia)) as Hloop.
    cbn [Nat.add] in Hloop. rewrite Hloop. clear Hloop.
    rewrite length_app. cbn [length Nat.add take app].
    destruct (decide (length s + 1 <= length dest)%nat); [|reflexivity].
    rewrite <- app_assoc. cbn [app].
    replace (length s + 1)%nat with (S (length s)) by lia. reflexivity. }
  split; [|split].
  - intros Hroom. rewrite Hcopy.
    destruct (decide (length src + 1 <= length dest)%nat); [reflexivity|lia].
  - intros Hfull. rewrite Hcopy.
    destruct (decide (length src + 1 <= length dest)%nat); [lia|reflexivity].
  - intros Hlen. unfold load_visual. rewrite Hcopy.
    destruct (decide (length visual_tiles + 1 <= length dest)%nat)
      as [Hroom|]; [|reflexivity].
    exfalso. rewrite Hlen in Hroom. vm_compute in Hroom. lia.
Qed.

Lemma strcpy_overruns_visual_witness :
  load_visual (replicate 300 "."%char) = Fault /\
  strcpy (replicate 4 "."%char) ["#"; "#"]%char =
    Done ["#"; "#"; "000"; "."]%char.
Proof.
  split.
  - apply (proj2 (proj2 (strcpy_overruns_visual (replicate 300 "."%char) []))).
    reflexivity.
  - apply (proj1 (strcpy_overruns_visual (replicate 4 "."%char)
                    ["#"; "#"]%char)).
    simpl. lia.
Defined.

End CollisionDemoFacts.

(** * Movement of the enemies *)

Module Moves.
Import AI AISpec Squad SquadSpec.

Lemma set_pos_traits e nx ny : keeps_traits e (set_pos e nx ny).
Proof. repeat split. Qed.

Lemma keeps_traits_refl e : keeps_traits e e.
Proof. repeat split. Qed.

(** What a call of [MoveTowardsTarget] can give. *)
Lemma MoveTowardsTarget_cases ex enemy targetX targetY map w enemy' :
  MoveTowardsTarget ex enemy targetX targetY map w = Done enemy' ->
  enemy' = enemy \/
  exists nx ny,
    enemy' = set_pos enemy nx ny /\
    Z.abs (nx - x enemy) + Z.abs (ny - y enemy) = 1 /\
    CanMoveTo ex map w nx ny = Done true.
Proof.
  unfold MoveTowardsTarget.
  destruct (Z.abs (targetX - x enemy) >? Z.abs (targetY - y enemy));
    repeat match goal with
           | |- context [bind ?c _] =>
               let E := fresh "E" in
               destruct c as [[|]| |] eqn:E; cbn [bind]
           end;
    intros [= <-]; try (left; reflexivity); right;
    eexists _, _; (split; [reflexivity|]);
    (split; [|eassumption]);
    destruct (targetX - x enemy >? 0); destruct (targetY - y enemy >? 0); lia.
Qed.

(** X13.  [MoveTowardsTarget] leaves the enemy where it is or moves it by
    one tile, to a tile that [CanMoveTo] lets through, and changes nothing
    but the position.  Where [CanMoveTo] lets every move through, an enemy
    that is not on the target ends one step nearer to it.  An enemy that is
    on its target does not stay there when [CanMoveTo] lets it go to the
    tile above: it steps off the target. *)
Theorem MoveTowardsTarget_one_step ex enemy targetX targetY map w :
  (forall enemy',
     MoveTowardsTarget ex enemy targetX targetY map w = Done enemy' ->
     keeps_traits enemy enemy' /\ state enemy' = state enemy /\
     (enemy' = enemy \/
      exists nx ny,
        enemy' = set_pos enemy nx ny /\
        Z.abs (nx - x enemy) + Z.abs (ny - y enemy) = 1 /\
        CanMoveTo ex map w nx ny = Done true)) /\
  ((forall nx ny, CanMoveTo ex map w nx ny = Done true) ->
   (x enemy, y enemy) <> (targetX, targetY) ->
   exists enemy',
     MoveTowardsTarget ex enemy targetX targetY map w = Done enemy' /\
     ManhattanDistance (x enemy') (y enemy') targetX targetY =
     ManhattanDistance (x enemy) (y enemy) targetX targetY - 1) /\
  ((x enemy, y enemy) = (targetX, targetY) ->
   CanMoveTo ex map w (x enemy) (y enemy - 1) = Done true ->
   MoveTowardsTarget ex enemy targetX targetY map w =
   Done (set_pos enemy (x enemy) (y enemy - 1))).
Proof.
  split; [|split].
  - intros enemy' Hrun.
    destruct (MoveTowardsTarget_cases _ _ _ _ _ _ _ Hrun)
      as [->|(nx & ny & -> & Hstep & Hok)].
    + split; [apply keeps_traits_refl|]. split; [reflexivity|].
      left. reflexivity.
    + split; [apply set_pos_traits|]. split; [reflexivity|].
      right. exists nx, ny. auto.
  - intros Hopen Hne. unfold MoveTowardsTarget, ManhattanDistance.
    destruct (Z.gtb_spec (Z.abs (targetX - x enemy))
                (Z.abs (targetY - y enemy))) as [Hgt|Hle];
      rewrite Hopen; cbn [bind]; eexists; (split; [reflexivity|]);
      cbn [x y set_pos].
    + destruct (Z.gtb_spec (targetX - x enemy) 0); lia.
    + assert (targetY <> y enemy) as Hy.
      { intros ->. apply Hne. f_equal. lia. }
      destruct (Z.gtb_spec (targetY - y enemy) 0); lia.
  - intros [= <- <-] Hup. unfold MoveTowardsTarget.
    rewrite !Z.sub_diag. cbn [Z.abs Z.gtb Z.compare].
    replace (y enemy + -1) with (y enemy - 1) by lia.
    rewrite Hup. reflexivity.
Qed.

Lemma MoveTowardsTarget_one_step_witness :
  MoveTowardsTarget open_ground (observer 2 2 5) 2 2 open5 5 =
    Done (observer 2 1 5) /\
  exists enemy',
    MoveTowardsTarget open_ground (observer 0 0 5) 3 1 open5 5 =
      Done enemy' /\
    ManhattanDistance (x enemy') (y enemy') 3 1 =
    ManhattanDistance 0 0 3 1 - 1.
Proof.
  destruct (MoveTowardsTarget_one_step open_ground (observer 2 2 5) 2 2
              open5 5) as (_ & _ & Hoff).
  split; [apply Hoff; reflexivity|].
  destruct (MoveTowardsTarget_one_step open_ground (observer 0 0 5) 3 1
              open5 5) as (_ & Hnear & _).
  apply Hnear; [reflexivity|discriminate].
Defined.

(** X14.  [MoveTowardsTargetSmart] leaves the enemy where it is or moves it
    by one tile, to a tile that [CanMoveTo] lets through, and changes
    nothing but the position.  An enemy on its target stays there, no tile
    being tried.  When [CanMoveTo] lets every move through, an enemy that is
    not on the target ends one step nearer to it. *)
Theorem MoveTowardsTargetSmart_one_step canMoveTo enemy targetX targetY
    map w h :
  (forall enemy',
     MoveTowardsTargetSmart canMoveTo enemy targetX targetY map w h =
       Done enemy' ->
     keeps_traits enemy enemy' /\ state enemy' = state enemy /\
     (enemy' = enemy \/
      exists nx ny,
        enemy' = set_pos enemy nx ny /\
        Z.abs (nx - x enemy) + Z.abs (ny - y enemy) = 1 /\
        canMoveTo nx ny map w h = Done true)) /\
  ((x enemy, y enemy) = (targetX, targetY) ->
   MoveTowardsTargetSmart canMoveTo enemy targetX targetY map w h =
   Done enemy) /\
  ((forall nx ny, canMoveTo nx ny map w h = Done true) ->
   (x enemy, y enemy) <> (targetX, targetY) ->
   exists enemy',
     MoveTowardsTargetSmart canMoveTo enemy targetX targetY map w h =
       Done enemy' /\
     ManhattanDistance (x enemy') (y enemy') targetX targetY =
     ManhattanDistance (x enemy) (y enemy) targetX targetY - 1).
Proof.
  split; [|split].
  - intros enemy' Hrun.
    assert (enemy' = enemy \/
            exists nx ny,
              enemy' = set_pos enemy nx ny /\
              Z.abs (nx - x enemy) + Z.abs (ny - y enemy) = 1 /\
              canMoveTo nx ny map w h = Done true) as Hcases.
    { revert Hrun. unfold MoveTowardsTargetSmart.
      destruct (Z.gtb_spec targetX (x enemy));
        [|destruct (Z.ltb_spec targetX (x enemy))];
        (destruct (Z.gtb_spec targetY (y enemy));
         [|destruct (Z.ltb_spec targetY (y enemy))]);
        cbn [Z.eqb negb Pos.eqb];
        repeat match goal with
               | |- context [bind (Done ?b) _] => cbn [bind]
               | |- context [bind ?c _] =>
                   let E := fresh "E" in
                   destruct c as [[|]| |] eqn:E; cbn [bind]
               end;
        intros [= <-]; try (left; reflexivity); right;
        eexists _, _; (split; [reflexivity|]);
        (split; [|eassumption]); lia. }
    destruct Hcases as [->|(nx & ny & -> & Hstep & Hok)].
    + split; [apply keeps_traits_refl|]. split; [reflexivity|].
      left. reflexivity.
    + split; [apply set_pos_traits|]. split; [reflexivity|].
      right. exists nx, ny. auto.
  - intros [= <- <-]. unfold MoveTowardsTargetSmart.
    rewrite !Z.gtb_ltb, !Z.ltb_irrefl. reflexivity.
  - intros Hopen Hne. unfold MoveTowardsTargetSmart, ManhattanDistance.
    destruct (Z.gtb_spec targetX (x enemy));
      [|destruct (Z.ltb_spec targetX (x enemy))];
      cbn [Z.eqb negb Pos.eqb]; try rewrite Hopen; cbn [bind].
    1-2: eexists; (split; [reflexivity|]); cbn [x y set_pos]; lia.
    assert (targetY <> y enemy) as Hy.
    { intros ->. apply Hne. f_equal. lia. }
    destruct (Z.gtb_spec targetY (y enemy));
      [|destruct (Z.ltb_spec targetY (y enemy))];
      cbn [Z.eqb negb Pos.eqb]; try rewrite Hopen; cbn [bind]; try lia;
      eexists; (split; [reflexivity|]); cbn [x y set_pos]; lia.
Qed.

Lemma MoveTowardsTargetSmart_one_step_witness :
  MoveTowardsTargetSmart (fun _ _ _ _ _ => Fault) (observer 2 2 5) 2 2
    open5 5 5 = Done (observer 2 2 5) /\
  exists enemy',
    MoveTowardsTargetSmart (fun _ _ _ _ _ => Done true) (observer 0 0 5) 3 1
      open5 5 5 = Done enemy' /\
    ManhattanDistance (x enemy') (y enemy') 3 1 =
    ManhattanDistance 0 0 3 1 - 1.
Proof.
  split.
  - apply (proj1 (proj2 (MoveTowardsTargetSmart_one_step
                           (fun _ _ _ _ _ => Fault) (observer 2 2 5) 2 2
                           open5 5 5))).
    reflexivity.
  - apply (proj2 (proj2 (MoveTowardsTargetSmart_one_step
                           (fun _ _ _ _ _ => Done true) (observer 0 0 5) 3 1
                           open5 5 5))); [reflexivity|discriminate].
Defined.

End Moves.

(** * Perception, chase and personalities *)

Module Behaviour.
Import AI AISpec Squad SquadSpec.

(** X15.  [UpdateEnemyPerception] changes what the enemy perceives and
    nothing else.  When the enemy sees the player afterwards, the player is
    within its sight range and the last seen position is the player's; when
    it does not, the last seen position is the one it had. *)
Theorem UpdateEnemyPerception_memory fuel enemy player map w enemy' :
  UpdateEnemyPerception fuel enemy player map w = Done enemy' ->
  keeps_traits enemy enemy' /\
  (x enemy', y enemy') = (x enemy, y enemy) /\
  state enemy' = state enemy /\
  timeSinceMove enemy' = timeSinceMove enemy /\
  (canSeePlayer enemy' = true ->
   (lastSeenPlayerX enemy', lastSeenPlayerY enemy') = (px player, py player) /\
   ManhattanDistance (x enemy) (y enemy) (px player) (py player)
   <= sightRange enemy) /\
  (canSeePlayer enemy' = false ->
   (lastSeenPlayerX enemy', lastSeenPlayerY enemy') =
   (lastSeenPlayerX enemy, lastSeenPlayerY enemy)).
Proof.
  unfold UpdateEnemyPerception.
  destruct (CanSeePosition fuel enemy (px player) (py player) map w)
    as [[|]| |] eqn:Hsee; cbn [bind]; intros [= <-].
  - split; [repeat split|]. repeat (split; [reflexivity|]).
    split; [|discriminate]. intros _. split; [reflexivity|].
    unfold CanSeePosition in Hsee.
    destruct (Z.gtb_spec
                (ManhattanDistance (x enemy) (y enemy) (px player) (py player))
                (sightRange enemy)); [discriminate|lia].
  - split; [repeat split|]. repeat (split; [reflexivity|]).
    split; [discriminate|]. intros _. reflexivity.
Qed.

Lemma UpdateEnemyPerception_memory_witness :
  canSeePlayer (set_perception (observer 0 0 10) true 4 4) = true /\
  (lastSeenPlayerX (set_perception (observer 0 0 10) true 4 4),
   lastSeenPlayerY (set_perception (observer 0 0 10) true 4 4)) = (4, 4) /\
  ManhattanDistance 0 0 4 4 <= 10.
Proof.
  destruct (UpdateEnemyPerception_memory 8 (observer 0 0 10)
              (mkPlayer 4 4 100 100) open5 5
              (set_perception (observer 0 0 10) true 4 4))
    as (_ & _ & _ & _ & Hseen & _); [reflexivity|].
  split; [reflexivity|]. apply Hseen. reflexivity.
Defined.

(** X16.  [UpdateChaseState] changes neither the traits of the enemy nor
    what it perceives.  An enemy that does not see the player goes to the
    search state without moving.  One that sees the player at a Manhattan
    distance of at most 1 goes to the attack state without moving: it never
    attacks from further away.  One that sees the player further away
    keeps its state and moves by one tile at most, to a tile that
    [CanMoveTo] lets through, its move timer being back at 0 when it has
    moved. *)
Theorem UpdateChaseState_cases ex enemy player map w dt enemy' :
  UpdateChaseState ex enemy player map w dt = Done enemy' ->
  keeps_traits enemy enemy' /\
  canSeePlayer enemy' = canSeePlayer enemy /\
  (lastSeenPlayerX enemy', lastSeenPlayerY enemy') =
  (lastSeenPlayerX enemy, lastSeenPlayerY enemy) /\
  (canSeePlayer enemy = false ->
   state enemy' = AI_STATE_SEARCH /\
   (x enemy', y enemy') = (x enemy, y enemy)) /\
  (canSeePlayer enemy = true ->
   ManhattanDistance (x enemy) (y enemy) (px player) (py player) <= 1 ->
   state enemy' = AI_STATE_ATTACK /\
   (x enemy', y enemy') = (x enemy, y enemy)) /\
  (canSeePlayer enemy = true ->
   1 < ManhattanDistance (x enemy) (y enemy) (px player) (py player) ->
   state enemy' = state enemy /\
   ((x enemy', y enemy') = (x enemy, y enemy) \/
    Z.abs (x enemy' - x enemy) + Z.abs (y enemy' - y enemy) = 1 /\
    CanMoveTo ex map w (x enemy') (y enemy') = Done true /\
    timeSinceMove enemy' = f32_zero)).
Proof.
  unfold UpdateChaseState.
  cbn [canSeePlayer set_timeSinceMove x y moveSpeed timeSinceMove].
  destruct (canSeePlayer enemy) eqn:Hsees; cbn [negb].
  2: { intros [= <-]. split; [repeat split|].
       split; [cbn; congruence|]. split; [reflexivity|].
       split; [intros _; split; reflexivity|].
       split; [discriminate|discriminate]. }
  destruct (Z.leb_spec
              (ManhattanDistance (x enemy) (y enemy) (px player) (py player))
              1) as [Hnear|Hfar].
  { intros [= <-]. split; [repeat split|].
    split; [cbn; congruence|]. split; [reflexivity|].
    split; [discriminate|]. split; [intros _ _; split; reflexivity|].
    intros _ H. lia. }
  destruct (SFleb _ _).
  2: { intros [= <-]. split; [repeat split|].
       split; [cbn; congruence|]. split; [reflexivity|].
       split; [discriminate|]. split; [intros _ H; lia|].
       intros _ _. split; [reflexivity|]. left. reflexivity. }
  destruct (MoveTowardsTarget ex _ (px player) (py player) map w)
    as [moved| |] eqn:Hmove; cbn [bind]; try discriminate.
  intros [= <-].
  destruct (Moves.MoveTowardsTarget_cases _ _ _ _ _ _ _ Hmove)
    as [->|(nx & ny & -> & Hstep & Hok)];
    (split; [repeat split|]);
    (split; [cbn; congruence|]); (split; [reflexivity|]);
    (split; [discriminate|]); (split; [intros _ H; lia|]);
    intros _ _; (split; [reflexivity|]).
  - left. reflexivity.
  - right. cbn [x y set_pos set_timeSinceMove timeSinceMove] in *.
    auto.
Qed.

Lemma UpdateChaseState_cases_witness :
  state (set_state (observer 0 0 5) AI_STATE_SEARCH) = AI_STATE_SEARCH /\
  (x (set_state (observer 0 0 5) AI_STATE_SEARCH),
   y (set_state (observer 0 0 5) AI_STATE_SEARCH)) = (0, 0).
Proof.
  destruct (UpdateChaseState_cases open_ground (observer 0 0 5)
              (mkPlayer 3 0 100 100) open5 5 f32_zero
              (set_state (observer 0 0 5) AI_STATE_SEARCH))
    as (_ & _ & _ & Hblind & _); [reflexivity|].
  apply Hblind. reflexivity.
Defined.

(** ** Personalities *)

Lemma jitter_in_jitters rnd : 0 <= rnd -> In (jitter rnd) jitters.
Proof.
  intros Hrnd. unfold jitter, jitters.
  apply list_elem_of_In, list_elem_of_fmap. exists (Z.rem rnd 20).
  split; [reflexivity|]. apply elem_of_seqZ.
  pose proof (Z.rem_bound_pos rnd 20). lia.
Qed.

(** A test that holds of the twenty values holds of the value drawn. *)
Lemma for_all_jitters (P : spec_float -> bool) rnd :
  forallb P jitters = true -> 0 <= rnd -> P (jitter rnd) = true.
Proof.
  intros Hall Hrnd. rewrite forallb_forall in Hall.
  apply Hall, jitter_in_jitters, Hrnd.
Qed.

Lemma CreateEnemy_courage fresh rnd1 rnd2 ex ey ty :
  courage (CreateEnemy fresh rnd1 rnd2 ex ey ty) =
  clamped (f32_add (base_courage fresh ty) (jitter rnd1)).
Proof. destruct ty; reflexivity. Qed.

Lemma CreateEnemy_aggression fresh rnd1 rnd2 ex ey ty :
  aggression (CreateEnemy fresh rnd1 rnd2 ex ey ty) =
  clamped (f32_add (base_aggression fresh ty) (jitter rnd2)).
Proof. destruct ty; reflexivity. Qed.

(** X17.  [CreateEnemy] gives an idle enemy of the type asked for, on the
    tile asked for, that does not see the player.  For the four types with a
    case in the [switch], whatever [rand()] returns, the courage and the
    aggression lie between 0 and 1, the health is the maximal health and is
    positive, and the sight range is positive.  For the type BOSS, which
    has no case, these fields are what the memory from [malloc] held. *)
Theorem CreateEnemy_personality fresh rnd1 rnd2 ex ey ty :
  0 <= rnd1 -> 0 <= rnd2 ->
  let e := CreateEnemy fresh rnd1 rnd2 ex ey ty in
  (x e, y e) = (ex, ey) /\ type e = ty /\ state e = AI_STATE_IDLE /\
  canSeePlayer e = false /\
  (ty <> AI_TYPE_BOSS ->
   within01 (courage e) = true /\ within01 (aggression e) = true /\
   health e = maxHealth e /\ 0 < health e /\ 0 < sightRange e) /\
  (ty = AI_TYPE_BOSS ->
   health e = health fresh /\ maxHealth e = maxHealth fresh /\
   sightRange e = sightRange fresh /\ hearingRange e = hearingRange fresh /\
   moveSpeed e = moveSpeed fresh /\ attackDamage e = attackDamage fresh /\
   symbol e = symbol fresh).
Proof.
  intros H1 H2. cbv zeta.
  split; [destruct ty; reflexivity|].
  split; [destruct ty; reflexivity|].
  split; [destruct ty; reflexivity|].
  split; [destruct ty; reflexivity|].
  split.
  - intros Hty. rewrite CreateEnemy_courage, CreateEnemy_aggression.
    destruct ty; try congruence;
      (split;
       [apply (for_all_jitters
                 (fun j => within01 (clamped (f32_add _ j))) rnd1);
        [vm_compute; reflexivity|exact H1]|]);
      (split;
       [apply (for_all_jitters
                 (fun j => within01 (clamped (f32_add _ j))) rnd2);
        [vm_compute; reflexivity|exact H2]|]);
      repeat split.
  - intros ->. repeat split.
Qed.

Lemma CreateEnemy_personality_witness :
  within01 (courage (CreateEnemy (observer 0 0 0) 7 12 25 5 AI_TYPE_ZOMBIE))
  = true /\
  health (CreateEnemy (observer 0 0 0) 7 12 25 5 AI_TYPE_ZOMBIE) = 30.
Proof.
  destruct (CreateEnemy_personality (observer 0 0 0) 7 12 25 5 AI_TYPE_ZOMBIE)
    as (_ & _ & _ & _ & Hcase & _); [lia|lia|].
  destruct Hcase as (Hc & _); [discriminate|].
  split; [exact Hc|reflexivity].
Defined.

(** Two tests that agree on the twenty values of [rand() % 20] agree on
    the value drawn. *)
Lemma draws_decide (f g : Z -> bool) rnd :
  forallb (fun k => Bool.eqb (f k) (g k)) (seqZ 0 20) = true ->
  0 <= rnd -> f (Z.rem rnd 20) = g (Z.rem rnd 20).
Proof.
  intros Hall Hrnd. rewrite forallb_forall in Hall.
  apply Bool.eqb_prop, Hall, list_elem_of_In, elem_of_seqZ.
  pose proof (Z.rem_bound_pos rnd 20). lia.
Qed.

(** The idle state of an enemy that sees the player. *)
Lemma UpdateIdleState_seeing rnd e player dt :
  canSeePlayer e = true ->
  state (UpdateIdleState rnd e player dt) =
  if SFltb (courage e) f32_0_3
     && SFltb (f32_of_int (ManhattanDistance (x e) (y e)
                             (px player) (py player))) (f32_of_int 5)
  then AI_STATE_FLEE
  else if SFltb f32_0_7 (aggression e) then AI_STATE_CHASE
  else if Z.rem rnd 1000 <? 5 then AI_STATE_PATROL else state e.
Proof.
  intros Hsees. unfold UpdateIdleState. rewrite Hsees.
  destruct (_ && _); [reflexivity|].
  destruct (SFltb f32_0_7 _); [reflexivity|].
  destruct (_ <? 5); reflexivity.
Qed.

(** The first update of an idle enemy that sees the player. *)
Lemma first_sight exs fuel rnd e player map w dt :
  state e = AI_STATE_IDLE ->
  CanSeePosition fuel e (px player) (py player) map w = Done true ->
  exists e',
    UpdateEnemyAI exs fuel rnd e player map w dt = Done (e', player) /\
    state e' =
    if SFltb (courage e) f32_0_3
       && SFltb (f32_of_int (ManhattanDistance (x e) (y e)
                               (px player) (py player))) (f32_of_int 5)
    then AI_STATE_FLEE
    else if SFltb f32_0_7 (aggression e) then AI_STATE_CHASE
    else if Z.rem rnd 1000 <? 5 then AI_STATE_PATROL else AI_STATE_IDLE.
Proof.
  intros Hidle Hsees. unfold UpdateEnemyAI.
  rewrite (Machine.perception_sees _ _ _ _ _ Hsees).
  cbn [bind set_perception state]. rewrite Hidle.
  eexists. split; [reflexivity|].
  rewrite UpdateIdleState_seeing by reflexivity.
  cbn [set_perception courage aggression x y state]. rewrite Hidle.
  reflexivity.
Qed.

Lemma CreateEnemy_starts fresh rnd1 rnd2 ex ey ty :
  x (CreateEnemy fresh rnd1 rnd2 ex ey ty) = ex /\
  y (CreateEnemy fresh rnd1 rnd2 ex ey ty) = ey /\
  state (CreateEnemy fresh rnd1 rnd2 ex ey ty) = AI_STATE_IDLE.
Proof. destruct ty; repeat split; reflexivity. Qed.

(** Whether the courage is below 0.3f and the aggression above 0.7f, for
    the traits that the [switch] gives and the draws of [rand()]. *)
Lemma timid_after_draw base (verdict : Z -> bool) rnd :
  forallb
    (fun k => Bool.eqb
                (SFltb (clamped (f32_add base
                          (f32_div (f32_of_int (k - 10)) (f32_of_int 100))))
                   f32_0_3)
                (verdict k)) (seqZ 0 20) = true ->
  0 <= rnd ->
  SFltb (clamped (f32_add base (jitter rnd))) f32_0_3 =
  verdict (Z.rem rnd 20).
Proof.
  intros Hall Hrnd.
  exact (draws_decide
           (fun k => SFltb (clamped (f32_add base
                       (f32_div (f32_of_int (k - 10)) (f32_of_int 100))))
                       f32_0_3) verdict rnd Hall Hrnd).
Qed.

Lemma fierce_after_draw base (verdict : Z -> bool) rnd :
  forallb
    (fun k => Bool.eqb
                (SFltb f32_0_7
                   (clamped (f32_add base
                      (f32_div (f32_of_int (k - 10)) (f32_of_int 100)))))
                (verdict k)) (seqZ 0 20) = true ->
  0 <= rnd ->
  SFltb f32_0_7 (clamped (f32_add base (jitter rnd))) =
  verdict (Z.rem rnd 20).
Proof.
  intros Hall Hrnd.
  exact (draws_decide
           (fun k => SFltb f32_0_7
                       (clamped (f32_add base
                          (f32_div (f32_of_int (k - 10)) (f32_of_int 100)))))
           verdict rnd Hall Hrnd).
Qed.

(** X18.  What the enemies that [CreateEnemy] makes do when they see the
    player for the first time, whatever [rand()] returned when they were
    made.  A zombie gives chase.  A goblin never gives chase, and flees
    when the player is less than 5 steps away.  A guard neither flees nor
    gives chase: it stays idle or starts its patrol.  An archer gives chase
    exactly when the second draw, modulo 20, was above 10. *)
Theorem created_enemies_react exs fuel rnd fresh rnd1 rnd2 ex ey ty player
    map w dt :
  0 <= rnd1 -> 0 <= rnd2 ->
  CanSeePosition fuel (CreateEnemy fresh rnd1 rnd2 ex ey ty)
    (px player) (py player) map w = Done true ->
  exists e',
    UpdateEnemyAI exs fuel rnd (CreateEnemy fresh rnd1 rnd2 ex ey ty) player
      map w dt = Done (e', player) /\
    match ty with
    | AI_TYPE_ZOMBIE => state e' = AI_STATE_CHASE
    | AI_TYPE_GOBLIN =>
        state e' <> AI_STATE_CHASE /\
        (ManhattanDistance ex ey (px player) (py player) < 5 ->
         state e' = AI_STATE_FLEE)
    | AI_TYPE_GUARD =>
        state e' = AI_STATE_IDLE \/ state e' = AI_STATE_PATROL
    | AI_TYPE_ARCHER =>
        if 10 <? Z.rem rnd2 20
        then state e' = AI_STATE_CHASE
        else state e' = AI_STATE_IDLE \/ state e' = AI_STATE_PATROL
    | AI_TYPE_BOSS => True
    end.
Proof.
  intros H1 H2 Hsees.
  destruct (CreateEnemy_starts fresh rnd1 rnd2 ex ey ty) as (Hx & Hy & Hidle).
  destruct (first_sight exs fuel rnd _ player map w dt Hidle Hsees)
    as (e' & Hrun & Hstate).
  exists e'. split; [exact Hrun|].
  rewrite Hx, Hy, CreateEnemy_courage, CreateEnemy_aggression in Hstate.
  rewrite Hstate. clear Hstate.
  destruct ty; cbn [base_courage base_aggression].
  - rewrite (timid_after_draw f32_one (fun _ => false) rnd1)
      by (vm_compute; auto).
    rewrite (fierce_after_draw f32_one (fun _ => true) rnd2)
      by (vm_compute; auto).
    reflexivity.
  - rewrite (timid_after_draw f32_0_2 (fun _ => true) rnd1)
      by (vm_compute; auto).
    rewrite (fierce_after_draw f32_0_4 (fun _ => false) rnd2)
      by (vm_compute; auto).
    cbn [andb]. split.
    + destruct (SFltb _ _); [discriminate|].
      destruct (_ <? 5); discriminate.
    + intros Hnear. rewrite Machine.small_distance_f32; [reflexivity|].
      unfold ManhattanDistance in *. lia.
  - rewrite (timid_after_draw f32_0_8 (fun _ => false) rnd1)
      by (vm_compute; auto).
    rewrite (fierce_after_draw f32_0_6 (fun _ => false) rnd2)
      by (vm_compute; auto).
    cbn [andb]. destruct (_ <? 5); auto.
  - rewrite (timid_after_draw f32_0_5 (fun _ => false) rnd1)
      by (vm_compute; auto).
    rewrite (fierce_after_draw f32_0_7 (fun k => 10 <? k) rnd2)
      by (vm_compute; auto).
    cbn [andb]. destruct (10 <? Z.rem rnd2 20); [reflexivity|].
    destruct (_ <? 5); auto.
  - exact I.
Qed.

Lemma created_enemies_react_witness :
  exists e',
    UpdateEnemyAI idle_exercises 3 0
      (CreateEnemy (observer 0 0 0) 19 0 0 0 AI_TYPE_GOBLIN)
      (mkPlayer 3 0 100 100) open5 5 f32_zero =
    Done (e', mkPlayer 3 0 100 100) /\
    state e' = AI_STATE_FLEE.
Proof.
  destruct (created_enemies_react idle_exercises 3 0 (observer 0 0 0) 19 0
              0 0 AI_TYPE_GOBLIN (mkPlayer 3 0 100 100) open5 5 f32_zero)
    as (e' & Hrun & _ & Hflee); [lia|lia|reflexivity|].
  exists e'. split; [exact Hrun|]. apply Hflee. vm_compute. reflexivity.
Defined.

End Behaviour.

(** * Flanking *)

Module Flank.
Import AI AISpec Squad SquadSpec.

Lemma Side_eqb_refl s : Side_eqb s s = true.
Proof. destruct s; reflexivity. Qed.

(** The loop over the enemies counts the chasing allies side by side. *)
Lemma count_fold self player l :
  forall n,
    foldl (count_ally self player) n l =
    mkAllies
      (alliesNorth n
       + Z.of_nat (length (List.filter (chasing_from self player North) l)))
      (alliesSouth n
       + Z.of_nat (length (List.filter (chasing_from self player South) l)))
      (alliesEast n
       + Z.of_nat (length (List.filter (chasing_from self player East) l)))
      (alliesWest n
       + Z.of_nat (length (List.filter (chasing_from self player West) l))).
Proof.
  induction l as [|[i current] l IH]; intros n.
  - destruct n. simpl. f_equal; lia.
  - cbn [foldl]. rewrite IH. clear IH.
    unfold count_ally, chasing_from, side_of. cbn [fst snd List.filter].
    destruct (negb (Nat.eqb i self)); cbn [andb];
      [|destruct n; cbn; f_equal; lia].
    destruct (state current); cbn [andb];
      try (destruct n; cbn; f_equal; lia).
    destruct (Z.abs (x current - px player) >? Z.abs (y current - py player));
      [destruct (x current - px player >? 0)
      |destruct (y current - py player >? 0)];
      cbn [Side_eqb alliesNorth alliesSouth alliesEast alliesWest length];
      f_equal; lia.
Qed.

(** X19.  The four counters of [UpdateFlankingBehavior] hold the numbers of
    the other enemies that chase the player from the north, the south, the
    east and the west.  The target chosen is the tile two steps from the
    player on a side with the fewest of them; among such sides it is the
    first in the order north, south, east, west.  The enemy then moves as
    [MoveTowardsTarget] moves it towards that tile, the other enemies
    staying as they are. *)
Theorem flank_target_least_crowded ex self allEnemies player map w :
  let n := count_allies self allEnemies player in
  alliesNorth n = chasers self allEnemies player North /\
  alliesSouth n = chasers self allEnemies player South /\
  alliesEast n = chasers self allEnemies player East /\
  alliesWest n = chasers self allEnemies player West /\
  exists s,
    flank_target n player = approach player s /\
    (forall s',
       chasers self allEnemies player s <= chasers self allEnemies player s' /\
       (rank s' < rank s ->
        chasers self allEnemies player s < chasers self allEnemies player s'))
    /\
    forall enemy,
      allEnemies !! self = Some enemy ->
      UpdateFlankingBehavior ex self allEnemies player map w =
      (moved <- MoveTowardsTarget ex enemy (fst (approach player s))
                  (snd (approach player s)) map w ;;
       Done (<[self := moved]> allEnemies)).
Proof.
  cbv zeta. unfold UpdateFlankingBehavior, count_allies, chasers.
  rewrite count_fold. cbn [alliesNorth alliesSouth alliesEast alliesWest].
  rewrite !Z.add_0_l.
  set (l := imap (fun i current => (i, current)) allEnemies).
  set (cn := Z.of_nat (length (List.filter (chasing_from self player North) l))).
  set (cs := Z.of_nat (length (List.filter (chasing_from self player South) l))).
  set (ce := Z.of_nat (length (List.filter (chasing_from self player East) l))).
  set (cw := Z.of_nat (length (List.filter (chasing_from self player West) l))).
  repeat (split; [reflexivity|]).
  unfold flank_target. cbn [alliesNorth alliesSouth alliesEast alliesWest].
  assert (forall s,
            (forall s',
               Z.of_nat (length (List.filter (chasing_from self player s) l))
               <= Z.of_nat
                    (length (List.filter (chasing_from self player s') l)) /\
               (rank s' < rank s ->
                Z.of_nat (length (List.filter (chasing_from self player s) l))
                < Z.of_nat
                    (length (List.filter (chasing_from self player s') l)))) ->
            forall tx ty, (tx, ty) = approach player s ->
            exists s0,
              (tx, ty) = approach player s0 /\
              (forall s',
                 Z.of_nat
                   (length (List.filter (chasing_from self player s0) l))
                 <= Z.of_nat
                      (length (List.filter (chasing_from self player s') l))
                 /\
                 (rank s' < rank s0 ->
                  Z.of_nat
                    (length (List.filter (chasing_from self player s0) l))
                  < Z.of_nat
                      (length (List.filter (chasing_from self player s') l))))
              /\
              forall enemy,
                allEnemies !! self = Some enemy ->
                match allEnemies !! self with
                | Some enemy0 =>
                    moved <- MoveTowardsTarget ex enemy0 tx ty map w ;;
                    Done (<[self := moved]> allEnemies)
                | None => Fault
                end =
                (moved <- MoveTowardsTarget ex enemy (fst (approach player s0))
                            (snd (approach player s0)) map w ;;
                 Done (<[self := moved]> allEnemies))) as Hpick.
  { intros s Hleast tx ty Htarget. exists s. split; [exact Htarget|].
    split; [exact Hleast|]. intros enemy ->. rewrite <- Htarget.
    reflexivity. }
  destruct (Z.ltb_spec cs cn) as [Hs|Hs].
  - destruct (Z.ltb_spec ce cs) as [He|He].
    + destruct (Z.ltb_spec cw ce) as [Hw|Hw];
        [apply (Hpick West)|apply (Hpick East)]; try reflexivity;
        intros s'; destruct s'; cbn [rank]; fold cn cs ce cw; lia.
    + destruct (Z.ltb_spec cw cs) as [Hw|Hw];
        [apply (Hpick West)|apply (Hpick South)]; try reflexivity;
        intros s'; destruct s'; cbn [rank]; fold cn cs ce cw; lia.
  - destruct (Z.ltb_spec ce cn) as [He|He].
    + destruct (Z.ltb_spec cw ce) as [Hw|Hw];
        [apply (Hpick West)|apply (Hpick East)]; try reflexivity;
        intros s'; destruct s'; cbn [rank]; fold cn cs ce cw; lia.
    + destruct (Z.ltb_spec cw cn) as [Hw|Hw];
        [apply (Hpick West)|apply (Hpick North)]; try reflexivity;
        intros s'; destruct s'; cbn [rank]; fold cn cs ce cw; lia.
Qed.

End Flank.

(** * The player of the AI demonstration *)

Module AIDemoFacts.
Import AI AISpec Input AIDemo AIDemoSpec.

Lemma edge_is_wall_sound map w h :
  edge_is_wall map w h = true -> walled_in map w h.
Proof.
  unfold edge_is_wall. rewrite forallb_forall.
  intros Hall cx cy [Hx Hy] Hedge.
  assert (In cy (seqZ 0 h)) as Hcy
    by (apply list_elem_of_In, elem_of_seqZ; lia).
  specialize (Hall cy Hcy). rewrite forallb_forall in Hall.
  assert (In cx (seqZ 0 w)) as Hcx
    by (apply list_elem_of_In, elem_of_seqZ; lia).
  specialize (Hall cx Hcx).
  assert ((cx =? 0) || (cx =? w - 1) || (cy =? 0) || (cy =? h - 1) = true)
    as Hb by (rewrite !orb_true_iff, !Z.eqb_eq; tauto).
  rewrite Hb in Hall. exact Hall.
Qed.

Lemma blocked_by_false enemies nx ny :
  blocked_by enemies nx ny = false <->
  forall e, In e enemies -> (x e, y e) <> (nx, ny).
Proof.
  induction enemies as [|c enemies IH]; simpl.
  - split; [intros _ e []|reflexivity].
  - destruct ((x c =? nx) && (y c =? ny)) eqn:E.
    + split; [discriminate|]. intros Hall. exfalso.
      apply andb_true_iff in E as [Hx Hy]. apply Z.eqb_eq in Hx, Hy.
      apply (Hall c (or_introl eq_refl)). congruence.
    + rewrite IH. split.
      * intros Hall e [<-|He]; [|apply Hall, He].
        intros [= Hx Hy]. apply Z.eqb_eq in Hx, Hy.
        rewrite Hx, Hy in E. discriminate.
      * intros Hall e He. apply Hall. right. exact He.
Qed.

(** X20.  The input handling of the AI demonstration reads the map at the
    tile the player moves to without a test of the bounds.  On a well-formed
    map whose edge tiles are walls, with the player on a tile that is not a
    wall, that read is inside the array whatever keys are pressed: the
    handling returns, and it leaves the player on a tile of the map that is
    not a wall.  When the player moves, it is by one tile at most along
    each axis, to a tile on which no enemy stands. *)
Theorem player_input_stays_inside map w h enemies player k :
  Grid.well_formed map w h -> walled_in map w h ->
  walkable map w h (px player) (py player) ->
  exists player',
    player_input map w enemies player k = Done player' /\
    walkable map w h (px player') (py player') /\
    phealth player' = phealth player /\
    pmaxHealth player' = pmaxHealth player /\
    (player' = player \/
     Z.abs (px player' - px player) <= 1 /\
     Z.abs (py player' - py player) <= 1 /\
     forall e, In e enemies -> (x e, y e) <> (px player', py player')).
Proof.
  intros Hwf Hwall [[Hx Hy] Hfloor].
  assert (0 < px player < w - 1 /\ 0 < py player < h - 1) as Hinner.
  { assert (forall cx cy, inb w h cx cy ->
              cx = 0 \/ cx = w - 1 \/ cy = 0 \/ cy = h - 1 ->
              (cx, cy) <> (px player, py player)) as Hedge.
    { intros cx cy Hin Hb [= -> ->].
      rewrite (Hwall _ _ Hin Hb) in Hfloor. discriminate. }
    assert (forall b : Prop, (b -> False) -> ~ b) as Hnot by auto.
    split; split.
    - destruct (Z.eq_dec (px player) 0) as [E|]; [|lia].
      exfalso. apply (Hedge (px player) (py player)); [split; lia|lia|auto].
    - destruct (Z.eq_dec (px player) (w - 1)) as [E|]; [|lia].
      exfalso. apply (Hedge (px player) (py player)); [split; lia|lia|auto].
    - destruct (Z.eq_dec (py player) 0) as [E|]; [|lia].
      exfalso. apply (Hedge (px player) (py player)); [split; lia|lia|auto].
    - destruct (Z.eq_dec (py player) (h - 1)) as [E|]; [|lia].
      exfalso. apply (Hedge (px player) (py player)); [split; lia|lia|auto]. }
  assert (exists player',
            Done player = Done player' /\
            walkable map w h (px player') (py player') /\
            phealth player' = phealth player /\
            pmaxHealth player' = pmaxHealth player /\
            (player' = player \/
             Z.abs (px player' - px player) <= 1 /\
             Z.abs (py player' - py player) <= 1 /\
             forall e, In e enemies -> (x e, y e) <> (px player', py player')))
    as Hstay.
  { exists player. split; [reflexivity|]. split; [split; [split|]; assumption|].
    auto. }
  unfold player_input.
  pose proof (CollisionDemoFacts.direction_small k) as Hsmall.
  destruct (direction k) as [dx dy]. cbn [fst snd] in Hsmall.
  destruct (negb (dx =? 0) || negb (dy =? 0)); [|exact Hstay].
  assert (inb w h (px player + dx) (py player + dy)) as Hin
    by (split; lia).
  rewrite (Field.read_map map w h Hwf _ _ Hin). cbn [bind].
  destruct (is_wall (tile_at map w (px player + dx) (py player + dy)))
    eqn:Htile; cbn [negb]; [exact Hstay|].
  destruct (blocked_by enemies (px player + dx) (py player + dy)) eqn:Hb;
    cbn [negb]; [exact Hstay|].
  eexists. split; [reflexivity|]. cbn [px py phealth pmaxHealth].
  split; [split; assumption|]. split; [reflexivity|]. split; [reflexivity|].
  right. split; [lia|]. split; [lia|].
  apply blocked_by_false, Hb.
Qed.

Lemma player_input_stays_inside_witness :
  exists player',
    player_input demo_tiles 30 [observer 25 5 5] demo_hero
      (mkKeys true false false true) = Done player' /\
    walkable demo_tiles 30 20 (px player') (py player').
Proof.
  destruct (player_input_stays_inside demo_tiles 30 20 [observer 25 5 5]
              demo_hero (mkKeys true false false true))
    as (player' & Hrun & Hfloor & _).
  - unfold Grid.well_formed. vm_compute. repeat split.
  - apply edge_is_wall_sound. vm_compute. reflexivity.
  - split; [vm_compute; intuition discriminate|reflexivity].
  - exists player'. split; assumption.
Defined.

(** A [float] below 0 is not at least 0, and one that is not at least 0
    is not above 5. *)
Lemma below_zero_not_active t :
  SFltb t f32_zero = true -> SFleb (f32_of_int 0) t = false.
Proof.
  destruct t as [[|]|[|]| |[|] m e]; intros H;
    try (vm_compute in H; discriminate H); reflexivity.
Qed.

Lemma not_active_not_above t :
  SFleb (f32_of_int 0) t = false -> SFltb f32_5 t = false.
Proof.
  destruct t as [[|]|[|]| |[|] m e]; intros H;
    try (vm_compute in H; discriminate H); reflexivity.
Qed.

(** X21.  The update of the alert timer changes neither the position nor
    the origin of the alert, and leaves an alert that is not active (its
    timer below 0) as it is.  After the update the timer is never above
    5.0f: an active alert whose timer would pass 5.0f is switched off, its
    timer set to -1.0f, so that an alert can be raised again. *)
Theorem update_alert_timer_bounded alerts deltaTime :
  let alerts' := update_alert_timer alerts deltaTime in
  (alertX alerts', alertY alerts', alerterId alerts') =
  (alertX alerts, alertY alerts, alerterId alerts) /\
  (SFltb (alertTime alerts) f32_zero = true -> alerts' = alerts) /\
  SFltb f32_5 (alertTime alerts') = false /\
  (SFleb (f32_of_int 0) (alertTime alerts) = true ->
   SFltb f32_5 (f32_add (alertTime alerts) deltaTime) = true ->
   alertTime alerts' = f32_minus_1 /\
   SFltb (alertTime alerts') f32_zero = true).
Proof.
  cbv zeta. unfold update_alert_timer.
  destruct (SFleb (f32_of_int 0) (alertTime alerts)) eqn:Hactive.
  - destruct (SFltb f32_5 (f32_add (alertTime alerts) deltaTime)) eqn:Hover;
      cbn [alertX alertY alerterId alertTime].
    + split; [reflexivity|]. split.
      * intros Hbelow. apply below_zero_not_active in Hbelow. congruence.
      * split; [reflexivity|]. intros _ _. split; reflexivity.
    + split; [reflexivity|]. split.
      * intros Hbelow. apply below_zero_not_active in Hbelow. congruence.
      * split; [exact Hover|]. intros _. discriminate.
  - split; [reflexivity|]. split; [reflexivity|].
    split; [apply not_active_not_above, Hactive|]. discriminate.
Qed.

End AIDemoFacts.

(** * Alerts *)

Module Alerts.
Import AI AISpec SquadSpec AlertSpec.

Lemma RaiseAlert_alerter alerter es al a :
  es !! alerter = Some a ->
  fst (RaiseAlert alerter es al) !! alerter = Some a /\
  snd (RaiseAlert alerter es al) =
  mkAlert (x a) (y a) f32_zero (Z.of_nat alerter) /\
  length (fst (RaiseAlert alerter es al)) = length es.
Proof.
  intros Ha. unfold RaiseAlert. rewrite Ha. cbn [fst snd].
  rewrite list_lookup_imap, Ha, Nat.eqb_refl, length_imap. auto.
Qed.







(** ** The flag that tells whether the player is seen *)

(** What an alert changes in an enemy is neither what it sees nor whether
    it is dead. *)
Lemma RaiseAlert_others alerter es al i :
  exists f,
    fst (RaiseAlert alerter es al) !! i = f <$> es !! i /\
    forall e, canSeePlayer (f e) = canSeePlayer e /\
              (state (f e) = AI_STATE_DEAD <-> state e = AI_STATE_DEAD).
Proof.
  unfold RaiseAlert. destruct (es !! alerter) as [a|]; cbn [fst].
  - rewrite list_lookup_imap. eexists. split; [reflexivity|].
    intros e. cbv beta.
    destruct (negb (Nat.eqb i alerter)); cbn [andb]; [|tauto].
    destruct (state e) eqn:Hs; try (rewrite Hs; tauto).
    destruct (_ <=? _); [|rewrite Hs; tauto].
    destruct (type e); try destruct (SFltb _ _);
      cbn [canSeePlayer state set_state set_perception]; rewrite ?Hs;
      split; try reflexivity; split; discriminate.
  - exists (fun e => e). split; [destruct (es !! i); reflexivity|].
    intros e. tauto.
Qed.

(** One turn of the update loop, as far as the flag goes. *)
Lemma update_enemy_flag ex fuel rnd map w dt wd j wd' :
  update_enemy ex fuel rnd map w dt wd j = Done wd' ->
  (forall i, i <> j ->
     exists f,
       enemies wd' !! i = f <$> enemies wd !! i /\
       forall e, canSeePlayer (f e) = canSeePlayer e /\
                 (state (f e) = AI_STATE_DEAD <-> state e = AI_STATE_DEAD)) /\
  ((forall current, enemies wd !! j = Some current ->
                    state current = AI_STATE_DEAD) /\
   anyoneSeesPlayer wd' = anyoneSeesPlayer wd /\
   enemies wd' !! j = enemies wd !! j \/
   exists current current',
     enemies wd !! j = Some current /\ state current <> AI_STATE_DEAD /\
     enemies wd' !! j = Some current' /\
     anyoneSeesPlayer wd' =
     (if canSeePlayer current' then true else anyoneSeesPlayer wd)).
Proof.
  unfold update_enemy.
  assert (forall i : nat,
            exists f : Enemy -> Enemy,
              enemies wd !! i = f <$> enemies wd !! i /\
              forall e, canSeePlayer (f e) = canSeePlayer e /\
                        (state (f e) = AI_STATE_DEAD <->
                         state e = AI_STATE_DEAD)) as Hsame.
  { intros i. exists (fun e => e).
    split; [destruct (enemies wd !! i); reflexivity|]. intros e. tauto. }
  destruct (enemies wd !! j) as [current|] eqn:Hj.
  2: { intros [= <-]. split; [intros i _; apply Hsame|].
       left. rewrite Hj. split; [discriminate|auto]. }
  assert (forall r,
            (let current' := fst r in
             let es := <[j:=current']> (enemies wd) in
             if canSeePlayer current'
             then
               if SFltb (alertTime (alerts wd)) f32_zero
               then
                 let ra := RaiseAlert j es (alerts wd) in
                 Done (mkWorld (fst ra) (snd r) (snd ra) true)
               else Done (mkWorld es (snd r) (alerts wd) true)
             else Done (mkWorld es (snd r) (alerts wd) (anyoneSeesPlayer wd)))
            = Done wd' ->
            (forall i, i <> j ->
               exists f,
                 enemies wd' !! i = f <$> enemies wd !! i /\
                 forall e, canSeePlayer (f e) = canSeePlayer e /\
                           (state (f e) = AI_STATE_DEAD <->
                            state e = AI_STATE_DEAD)) /\
            exists current',
              enemies wd' !! j = Some current' /\
              anyoneSeesPlayer wd' =
              (if canSeePlayer current' then true else anyoneSeesPlayer wd))
    as Hstep.
  { intros [current' p']. cbv zeta. cbn [fst snd].
    assert (<[j:=current']> (enemies wd) !! j = Some current') as Hins
      by (apply list_lookup_insert_eq; eapply lookup_lt_Some, Hj).
    destruct (canSeePlayer current') eqn:Hsees;
      [destruct (SFltb (alertTime (alerts wd)) f32_zero)|];
      intros [= <-]; cbn [enemies anyoneSeesPlayer].
    - split.
      + intros i Hi.
        destruct (RaiseAlert_others j (<[j:=current']> (enemies wd))
                    (alerts wd) i) as (f & Hf & Hprops).
        exists f. rewrite Hf, list_lookup_insert_ne by auto. auto.
      + exists current'. rewrite Hsees.
        split; [|reflexivity]. apply RaiseAlert_alerter, Hins.
    - split.
      + intros i Hi. destruct (Hsame i) as (f & Hf & Hprops).
        exists f. rewrite list_lookup_insert_ne by auto. auto.
      + exists current'. rewrite Hsees. auto.
    - split.
      + intros i Hi. destruct (Hsame i) as (f & Hf & Hprops).
        exists f. rewrite list_lookup_insert_ne by auto. auto.
      + exists current'. rewrite Hsees. auto. }
  destruct (state current) eqn:Hstate;
    try (destruct (UpdateEnemyAI ex fuel (rnd j) current (player wd) map w dt)
           as [r| |]; cbn [bind]; try discriminate;
         intros Hrun; destruct (Hstep r Hrun) as (Hothers & c' & Hc' & Hflag);
         split; [exact Hothers|]; right; exists current, c';
         rewrite Hstate; repeat split; auto; discriminate).
  intros [= <-]. split; [intros i _; apply Hsame|].
  left. split; [intros c [= <-]; exact Hstate|]. auto.
Qed.

(** A loop whose every turn that returns re-establishes an invariant that
    knows the elements already handled. *)
Lemma for_each_prefix {A S} (I : list A -> S -> Prop)
    (body : S -> A -> result S) (l : list A) (s0 s' : S) :
  I [] s0 ->
  (forall pre a s s1, (exists post, l = pre ++ a :: post) -> I pre s ->
     body s a = Done s1 -> I (pre ++ [a]) s1) ->
  for_each body l s0 = Done s' -> I l s'.
Proof.
  intros H0 Hbody.
  assert (forall todo pre s, l = pre ++ todo -> I pre s ->
            for_each body todo s = Done s' -> I l s') as Hgen.
  { induction todo as [|a todo IH]; intros pre s Hl Hs Hrun;
      cbn [for_each] in Hrun.
    - rewrite app_nil_r in Hl. subst pre. injection Hrun as <-. exact Hs.
    - destruct (body s a) as [s1| |] eqn:Ha; cbn [bind] in Hrun;
        try discriminate.
      apply (IH (pre ++ [a]) s1); [|eapply Hbody; eauto|exact Hrun].
      rewrite <- app_assoc. exact Hl. }
  apply (Hgen l [] s0); [reflexivity|exact H0].
Qed.

(** X24.  After a pass of the update loop of [main], [anyoneSeesPlayer] is
    true exactly when some enemy that was not dead before the pass sees the
    player at the end of it.  What a dead enemy saw before it died does not
    count. *)
Theorem anyoneSeesPlayer_is_right ex fuel rnd map w dt wd wd' :
  update_enemies ex fuel rnd map w dt wd = Done wd' ->
  (anyoneSeesPlayer wd' = true <->
   exists i e0 e,
     enemies wd !! i = Some e0 /\ state e0 <> AI_STATE_DEAD /\
     enemies wd' !! i = Some e /\ canSeePlayer e = true).
Proof.
  unfold update_enemies. intros Hrun.
  set (seen := fun (pre : list nat) (s : World) =>
                 exists i e0 e,
                   In i pre /\ enemies wd !! i = Some e0 /\
                   state e0 <> AI_STATE_DEAD /\
                   enemies s !! i = Some e /\ canSeePlayer e = true).
  assert ((forall i e1,
             ~ In i (seq 0 (length (enemies wd))) ->
             enemies wd' !! i = Some e1 ->
             exists e0, enemies wd !! i = Some e0 /\
                        (state e1 = AI_STATE_DEAD <->
                         state e0 = AI_STATE_DEAD)) /\
          NoDup (seq 0 (length (enemies wd))) /\
          (anyoneSeesPlayer wd' = true <->
           seen (seq 0 (length (enemies wd))) wd')) as (_ & _ & Hflag).
  { revert Hrun.
    apply (for_each_prefix
             (fun pre s =>
                (forall i e1, ~ In i pre -> enemies s !! i = Some e1 ->
                   exists e0, enemies wd !! i = Some e0 /\
                              (state e1 = AI_STATE_DEAD <->
                               state e0 = AI_STATE_DEAD)) /\
                NoDup pre /\
                (anyoneSeesPlayer s = true <-> seen pre s))).
    - cbn [enemies anyoneSeesPlayer]. split; [|split].
      + intros i e1 _ Hi. exists e1. tauto.
      + constructor.
      + split; [discriminate|]. intros (i & _ & _ & [] & _).
    - intros pre j s s1 [post Hl] (Hlive & Hnodup & Hflag) Hstep.
      assert (~ In j pre) as Hfresh.
      { pose proof (NoDup_seq 0 (length (enemies wd))) as Hnd.
        rewrite Hl in Hnd. apply list.NoDup_app in Hnd as (_ & Hdisj & _).
        intros Hin. apply (Hdisj j); [apply list_elem_of_In, Hin|left]. }
      destruct (update_enemy_flag _ _ _ _ _ _ _ _ _ Hstep)
        as (Hothers & Hj).
      split; [|split].
      + intros i e1 Hi Hi1.
        assert (i <> j) as Hij
          by (intros ->; apply Hi, in_or_app; right; left; reflexivity).
        destruct (Hothers i Hij) as (f & Hf & Hprops).
        rewrite Hf in Hi1.
        destruct (enemies s !! i) as [e|] eqn:He; [|discriminate].
        injection Hi1 as <-.
        destruct (Hlive i e) as (e0 & He0 & Hdead);
          [intros Hin; apply Hi, in_or_app; left; exact Hin|exact He|].
        exists e0. split; [exact He0|].
        rewrite (proj2 (Hprops e)). exact Hdead.
      + apply list.NoDup_app. split; [exact Hnodup|].
        split; [|apply NoDup_singleton].
        intros i Hi Hi'. apply list_elem_of_In in Hi.
        apply list_elem_of_singleton in Hi'. subst i. contradiction.
      + assert (seen pre s <-> seen pre s1) as Hpre.
        { unfold seen. split.
          - intros (i & e0 & e & Hin & He0 & Hlive0 & He & Hsees).
            assert (i <> j) as Hij by (intros ->; contradiction).
            destruct (Hothers i Hij) as (f & Hf & Hprops).
            exists i, e0, (f e). rewrite Hf, He.
            rewrite (proj1 (Hprops e)). auto.
          - intros (i & e0 & e1 & Hin & He0 & Hlive0 & He1 & Hsees).
            assert (i <> j) as Hij by (intros ->; contradiction).
            destruct (Hothers i Hij) as (f & Hf & Hprops).
            rewrite Hf in He1.
            destruct (enemies s !! i) as [e|] eqn:He; [|discriminate].
            injection He1 as <-.
            exists i, e0, e. rewrite (proj1 (Hprops e)) in Hsees. auto. }
        assert (forall s2, seen (pre ++ [j]) s2 <->
                  seen pre s2 \/
                  exists e0 e, enemies wd !! j = Some e0 /\
                               state e0 <> AI_STATE_DEAD /\
                               enemies s2 !! j = Some e /\
                               canSeePlayer e = true) as Hsplit.
        { intros s2. unfold seen. split.
          - intros (i & e0 & e & Hin & Hrest).
            apply in_app_or in Hin as [Hin|[<-|[]]];
              [left; exists i, e0, e; auto|right; exists e0, e; auto].
          - intros [(i & e0 & e & Hin & Hrest)|(e0 & e & Hrest)].
            + exists i, e0, e. split; [apply in_or_app; left; exact Hin|auto].
            + exists j, e0, e.
              split; [apply in_or_app; right; left; reflexivity|auto]. }
        rewrite Hsplit, <- Hpre, <- Hflag.
        destruct Hj as [(Hdead & -> & Hkeep)
                       |(current & current' & Hc & Hlive' & Hc' & ->)].
        * split; [auto|]. intros [Hs|(e0 & e & He0 & Hlive0 & He & _)];
            [exact Hs|]. exfalso. rewrite Hkeep in He.
          destruct (Hlive j e Hfresh He) as (e0' & He0' & Hiff).
          assert (e0' = e0) as -> by congruence.
          apply Hlive0, Hiff, Hdead, He.
        * destruct (Hlive j current Hfresh Hc) as (e0 & He0 & Hiff).
          destruct (canSeePlayer current') eqn:Hsees.
          -- split; [|reflexivity]. intros _. right.
             exists e0, current'. repeat split; auto. tauto.
          -- split; [auto|]. intros [Hs|(e0' & e & _ & _ & He & Hsees')];
               [exact Hs|]. congruence. }
  rewrite Hflag. unfold seen. split.
  - intros (i & e0 & e & _ & Hrest). exists i, e0, e. exact Hrest.
  - intros (i & e0 & e & He0 & Hrest). exists i, e0, e.
    split; [|auto]. apply in_seq. pose proof (lookup_lt_Some _ _ _ He0). lia.
Qed.

Lemma anyoneSeesPlayer_is_right_witness :
  exists wd',
    update_enemies idle_exercises 8 (fun _ => 0) open5 5 f32_zero
      two_enemies = Done wd' /\
    anyoneSeesPlayer wd' = true.
Proof.
  eexists. split; [vm_compute; reflexivity|].
  apply (anyoneSeesPlayer_is_right idle_exercises 8 (fun _ => 0) open5 5
           f32_zero two_enemies); [vm_compute; reflexivity|].
  exists 0%nat. eexists _, _.
  split; [reflexivity|]. split; [discriminate|].
  split; reflexivity.
Defined.

End Alerts.

(** * Items *)

Module ItemFacts.
Import Items ItemsSpec.

(** The database before and after a call of [addItem]. *)
Lemma addItem_step db it :
  length (g_items db) = Z.to_nat MAX_ITEMS ->
  0 <= g_itemCount db <= MAX_ITEMS ->
  exists db',
    addItem db it = Done db' /\
    length (g_items db') = Z.to_nat MAX_ITEMS /\
    0 <= g_itemCount db' <= MAX_ITEMS /\
    g_itemCount db' = Z.min (g_itemCount db + 1) MAX_ITEMS /\
    stored db' = take (Z.to_nat MAX_ITEMS) (stored db ++ [it]).
Proof.
  intros Hlen Hcount. unfold addItem, stored, MAX_ITEMS in *.
  destruct (Z.ltb_spec (g_itemCount db) 32) as [Hroom|Hfull].
  - unfold write_at.
    replace ((0 <=? g_itemCount db)
             && (g_itemCount db <? Z.of_nat (length (g_items db))))
      with true
      by (symmetry; apply andb_true_iff; split;
          [apply Z.leb_le|apply Z.ltb_lt]; lia).
    cbn [bind]. eexists. split; [reflexivity|].
    cbn [g_items g_itemCount]. rewrite length_insert.
    split; [exact Hlen|]. split; [lia|]. split; [lia|].
    rewrite (take_ge (take _ _ ++ [it]))
      by (rewrite length_app, length_take; simpl; lia).
    replace (Z.to_nat (g_itemCount db + 1))
      with (S (Z.to_nat (g_itemCount db))) by lia.
    rewrite (take_S_r _ _ it)
      by (apply list_lookup_insert_eq; lia).
    rewrite take_insert_ge by lia. reflexivity.
  - exists db. split; [reflexivity|]. split; [exact Hlen|].
    split; [lia|]. split; [lia|].
    rewrite take_app_le by (rewrite length_take; lia).
    rewrite take_take. f_equal; lia.
Qed.

Lemma add_all_spec its :
  forall db,
    length (g_items db) = Z.to_nat MAX_ITEMS ->
    0 <= g_itemCount db <= MAX_ITEMS ->
    exists db',
      add_all db its = Done db' /\
      length (g_items db') = Z.to_nat MAX_ITEMS /\
      g_itemCount db' =
        Z.min (g_itemCount db + Z.of_nat (length its)) MAX_ITEMS /\
      stored db' = take (Z.to_nat MAX_ITEMS) (stored db ++ its).
Proof.
  unfold add_all.
  induction its as [|it its IH]; intros db Hlen Hcount.
  - exists db. split; [reflexivity|]. split; [exact Hlen|].
    split; [simpl; lia|]. rewrite app_nil_r. unfold stored.
    rewrite take_take. f_equal; unfold MAX_ITEMS in *; lia.
  - cbn [for_each].
    destruct (addItem_step db it Hlen Hcount)
      as (db1 & -> & Hlen1 & Hcount1 & Hc1 & Hstored1).
    cbn [bind].
    destruct (IH db1 Hlen1 Hcount1) as (db' & -> & Hlen' & Hc' & Hstored').
    exists db'. split; [reflexivity|]. split; [exact Hlen'|].
    split; [rewrite Hc', Hc1, length_cons; lia|].
    rewrite Hstored', Hstored1.
    replace (stored db ++ it :: its) with ((stored db ++ [it]) ++ its)
      by (rewrite <- app_assoc; reflexivity).
    destruct (Nat.le_gt_cases (Z.to_nat MAX_ITEMS)
                (length (stored db ++ [it]))) as [Hfull|Hroom].
    + rewrite (take_app_le (stored db ++ [it])) by exact Hfull.
      rewrite take_app_le by (rewrite length_take; lia).
      rewrite take_take. f_equal; lia.
    + rewrite (take_ge (stored db ++ [it])) by lia. reflexivity.
Qed.

(** X25.  Adding items to the empty database, one call of [addItem] after
    the other, never writes outside the array.  The database then holds the
    first 32 of the items, in the order in which they were added, and
    [g_itemCount] is their number; once 32 items are in, a call leaves the
    database as it is. *)
Theorem addItem_keeps_first_32 its :
  exists db,
    add_all initial its = Done db /\
    g_itemCount db = Z.min (Z.of_nat (length its)) MAX_ITEMS /\
    stored db = take (Z.to_nat MAX_ITEMS) its /\
    (MAX_ITEMS <= Z.of_nat (length its) ->
     forall it, addItem db it = Done db).
Proof.
  destruct (add_all_spec its initial) as (db & Hrun & Hlen & Hcount & Hstored);
    [reflexivity|unfold MAX_ITEMS; simpl; lia|].
  exists db. split; [exact Hrun|]. split; [exact Hcount|].
  split; [exact Hstored|].
  intros Hmany it. unfold addItem.
  replace (g_itemCount db <? MAX_ITEMS) with false; [reflexivity|].
  symmetry. apply Z.ltb_ge. rewrite Hcount. simpl g_itemCount. lia.
Qed.

Lemma flags_meet f g :
  In f categories -> In g categories ->
  (Z.land g f =? 0) = negb (g =? f).
Proof.
  unfold categories.
  intros [<-|[<-|[<-|[<-|[<-|[]]]]]] [<-|[<-|[<-|[<-|[<-|[]]]]]];
    reflexivity.
Qed.

(** X26.  For an item whose type joins categories with [|], the test
    [item.type & flag] with the flag of a category holds exactly when the
    item was given that category: the five flags are distinct bits. *)
Theorem has_type_of_joined it cs flag :
  In flag categories -> (forall c, In c cs -> In c categories) ->
  type it = joined cs ->
  (has_type it flag = true <-> In flag cs).
Proof.
  intros Hflag Hcs Hty. unfold has_type. rewrite Hty. clear it Hty.
  induction cs as [|c cs IH]; cbn [joined foldr In].
  - rewrite Z.land_0_l. split; [discriminate|intros []].
  - fold (joined cs). rewrite Z.land_lor_distr_l, negb_true_iff.
    specialize (IH (fun c' Hc' => Hcs c' (or_intror Hc'))).
    rewrite negb_true_iff in IH.
    pose proof (flags_meet flag c Hflag (Hcs c (or_introl eq_refl))) as Hc.
    rewrite Z.eqb_neq, Z.lor_eq_0_iff. rewrite Z.eqb_neq in IH.
    destruct (Z.eqb_spec c flag) as [->|Hne]; simpl in Hc.
    + apply Z.eqb_neq in Hc. split; [auto|tauto].
    + apply Z.eqb_eq in Hc. split.
      * intros Hnz. right. apply IH. tauto.
      * intros [Heq|Hin]; [contradiction|]. apply IH in Hin. tauto.
Qed.

Lemma has_type_of_joined_witness :
  has_type (mkItem 2 "Magic Sword" "/" 17 RARITY_EPIC 300 9 0) ITEM_MAGICAL
  = true.
Proof.
  apply (has_type_of_joined
           (mkItem 2 "Magic Sword" "/" 17 RARITY_EPIC 300 9 0)
           [ITEM_WEAPON; ITEM_MAGICAL] ITEM_MAGICAL).
  - unfold categories. simpl. auto 10.
  - unfold categories. simpl. intros c [<-|[<-|[]]]; auto 10.
  - reflexivity.
  - simpl. auto.
Defined.

End ItemFacts.

(** * Following the breadcrumbs *)

Module Trail.
Import AI AISpec TrailSpec.

Section Trail.
Variables (map : list ascii) (w h : Z).
Hypothesis Hwf : Grid.well_formed map w h.
Variables (tx ty : Z).
Hypothesis Hseed : 0 <= tx < w /\ 0 <= ty < h.

(** The search for the best neighbour ends on a labelled walkable
    neighbour of the least label, or as it started. *)
Lemma best_move_least dm e :
  Z.of_nat (length dm) = w * h ->
  exists bx by' bd,
    best_move map w h dm e = Done (bx, by', bd) /\
    bd <= INT_MAX /\
    (forall nx ny,
       next_to (x e) (y e) nx ny -> walkable map w h nx ny ->
       0 <= label w dm nx ny -> bd <= label w dm nx ny) /\
    ((bx, by', bd) = (x e, y e, INT_MAX) \/
     walkable map w h bx by' /\ next_to (x e) (y e) bx by' /\
     label w dm bx by' = bd /\ 0 <= bd).
Proof.
  intros Hlen.
  destruct (Field.for_each_total
              (fun pre best =>
                 snd best <= INT_MAX /\
                 (forall d, In d pre ->
                    walkable map w h (x e + fst d) (y e + snd d) ->
                    0 <= label w dm (x e + fst d) (y e + snd d) ->
                    snd best <= label w dm (x e + fst d) (y e + snd d)) /\
                 (best = (x e, y e, INT_MAX) \/
                  walkable map w h (fst (fst best)) (snd (fst best)) /\
                  next_to (x e) (y e) (fst (fst best)) (snd (fst best)) /\
                  label w dm (fst (fst best)) (snd (fst best)) = snd best /\
                  0 <= snd best))
              (consider_neighbour map w h dm e) neighbours
              (x e, y e, INT_MAX)) as ([[bx by'] bd] & Hrun & Hres).
  - split; [reflexivity|]. split; [intros d []|]. left. reflexivity.
  - intros pre d best [post Hl] (Hmax & Hleast & Hbest).
    assert (In d neighbours) as Hd by (rewrite Hl; apply in_elt).
    rewrite (Field.consider_neighbour_spec map w h Hwf) by assumption.
    cbv zeta. eexists. split; [reflexivity|].
    destruct ((x e + fst d >=? 0) && (x e + fst d <? w)
              && (y e + snd d >=? 0) && (y e + snd d <? h)
              && negb (is_wall (tile_at map w (x e + fst d) (y e + snd d)))
              && (label w dm (x e + fst d) (y e + snd d) >=? 0)
              && (label w dm (x e + fst d) (y e + snd d) <? snd best))
      eqn:Hb.
    + rewrite !andb_true_iff, !Z.geb_le, !Z.ltb_lt, negb_true_iff in Hb.
      cbn [fst snd]. split; [lia|]. split.
      * intros d' Hd' Hw' Hl'. apply in_app_or in Hd' as [Hd'|[<-|[]]];
          [|lia]. specialize (Hleast d' Hd' Hw' Hl'). lia.
      * right. split; [split; [unfold inb; lia|tauto]|].
        split; [|lia]. apply Field.next_to_neighbours. eauto.
    + split; [exact Hmax|]. split; [|exact Hbest].
      intros d' Hd' Hw' Hl'. apply in_app_or in Hd' as [Hd'|[<-|[]]];
        [apply Hleast; assumption|].
      destruct Hw' as [[Hx Hy] Htile].
      destruct (Z.ltb_spec (label w dm (x e + fst d) (y e + snd d))
                  (snd best)) as [Hlt|]; [|assumption].
      exfalso. rewrite Htile in Hb.
      rewrite (proj2 (Z.geb_le _ _) Hl') in Hb.
      replace (x e + fst d >=? 0) with true in Hb
        by (symmetry; apply Z.geb_le; lia).
      replace (y e + snd d >=? 0) with true in Hb
        by (symmetry; apply Z.geb_le; lia).
      replace (x e + fst d <? w) with true in Hb
        by (symmetry; apply Z.ltb_lt; lia).
      replace (y e + snd d <? h) with true in Hb
        by (symmetry; apply Z.ltb_lt; lia).
      discriminate.
  - exists bx, by', bd. split; [exact Hrun|].
    cbn [fst snd] in Hres. destruct Hres as (Hmax & Hleast & Hbest).
    split; [exact Hmax|]. split; [|exact Hbest].
    intros nx ny Hnext Hw' Hl'.
    apply Field.next_to_neighbours in Hnext as (d & Hd & -> & ->).
    apply Hleast; assumption.
Qed.

(** One call from a tile [S d] steps from the target. *)
Lemma breadcrumb_step fuel e d :
  (Z.to_nat (w * h) <= fuel)%nat ->
  is_wall (tile_at map w tx ty) = false ->
  hops map w h tx ty (x e) (y e) (S d) -> Z.of_nat (S d) <= INT_MAX ->
  exists bx by',
    MoveWithBreadcrumbs fuel e tx ty map w h = Done (set_pos e bx by') /\
    next_to (x e) (y e) bx by' /\ hops map w h tx ty bx by' d.
Proof.
  intros Hfuel Hfloor Hhops Hint.
  destruct (Field.distance_field_settled map w h Hwf tx ty Hseed fuel Hfuel)
    as (dm & Hrun & Hset).
  pose proof Hset as [cur Hinv].
  pose proof (inv_len _ _ _ _ _ _ _ _ Hinv) as Hlen. cbn [fst] in Hlen.
  assert (inb w h (x e) (y e)) as He
    by (eapply Field.reach_inb; [exact Hseed|apply Hhops]).
  assert (label w dm (x e) (y e) = Z.of_nat (S d)) as Hle
    by (apply (Field.settled_hops map w h tx ty Hseed dm Hset); assumption).
  destruct (inv_parent _ _ _ _ _ _ _ _ Hinv (x e) (y e) He)
    as (Hwe & qx & qy & Hq & Hnext & Hlq); [cbn [fst]; lia|].
  cbn [fst] in Hlq.
  assert (walkable map w h qx qy) as Hwq.
  { destruct d as [|d].
    - destruct (inv_zero _ _ _ _ _ _ _ _ Hinv qx qy Hq) as [-> ->];
        [cbn [fst]; lia|]. split; assumption.
    - apply (inv_parent _ _ _ _ _ _ _ _ Hinv qx qy Hq). cbn [fst]. lia. }
  destruct (best_move_least dm e Hlen)
    as (bx & by' & bd & Hbest & Hmax & Hleast & Hcases).
  assert (bd <= Z.of_nat d) as Hbd.
  { specialize (Hleast qx qy). rewrite Hlq, Hle in Hleast.
    assert (next_to (x e) (y e) qx qy) as Hnext'
      by (unfold next_to in *; lia).
    specialize (Hleast Hnext' Hwq). lia. }
  destruct Hcases as [[= -> -> ->]|(Hwb & Hnb & Hlb & Hpos)]; [lia|].
  assert (Z.of_nat d <= bd) as Hdb.
  { assert (next_to bx by' (x e) (y e)) as Hnext'
      by (unfold next_to in *; lia).
    pose proof (inv_lip _ _ _ _ _ _ _ _ Hinv bx by' (x e) (y e)
                  (proj1 Hwb) Hnext' Hwe) as Hlip.
    cbn [fst] in Hlip. lia. }
  exists bx, by'. split; [|split; [exact Hnb|]].
  - unfold MoveWithBreadcrumbs. rewrite Hrun. cbn [bind].
    rewrite Hbest. reflexivity.
  - apply (Field.settled_hops map w h tx ty Hseed dm Hset);
      [exact (proj1 Hwb)|lia].
Qed.

End Trail.

(** X27.  [MoveWithBreadcrumbs] follows a shortest path.  On a well-formed
    map, with the target inside it on a tile that is not a wall, an enemy
    that stands [d + 1] steps from the target (the length of a shortest
    walk over tiles that are not walls) is moved to a tile next to it that
    is [d] steps from the target; so [d] calls bring an enemy that is [d]
    steps away onto the target, whatever else changes in the enemy being
    left as it was. *)
Theorem MoveWithBreadcrumbs_follows_trail fuel e tx ty map w h d :
  Grid.well_formed map w h -> 0 <= tx < w /\ 0 <= ty < h ->
  (Z.to_nat (w * h) <= fuel)%nat ->
  is_wall (tile_at map w tx ty) = false ->
  hops map w h tx ty (x e) (y e) d -> Z.of_nat d <= INT_MAX ->
  (forall d', d = S d' ->
   exists bx by',
     MoveWithBreadcrumbs fuel e tx ty map w h = Done (set_pos e bx by') /\
     next_to (x e) (y e) bx by' /\ hops map w h tx ty bx by' d') /\
  breadcrumb_walk d fuel e tx ty map w h = Done (set_pos e tx ty).
Proof.
  intros Hwf Hseed Hfuel Hfloor Hhops Hint. split.
  - intros d' ->. apply breadcrumb_step; assumption.
  - revert e Hhops Hint. induction d as [|d IH]; intros e Hhops Hint.
    + destruct Hhops as [Hreach _]. inversion Hreach; subst.
      cbn [breadcrumb_walk]. rewrite Field.set_pos_same. reflexivity.
    + cbn [breadcrumb_walk].
      destruct (breadcrumb_step map w h Hwf tx ty Hseed fuel e d
                  Hfuel Hfloor Hhops Hint) as (bx & by' & -> & _ & Hnext).
      cbn [bind]. rewrite (IH (set_pos e bx by')); [reflexivity| |lia].
      exact Hnext.
Qed.

Lemma MoveWithBreadcrumbs_follows_trail_witness :
  breadcrumb_walk 2 3 (observer 0 0 5) 2 0 row3 3 1 =
  Done (set_pos (observer 0 0 5) 2 0).
Proof.
  apply (MoveWithBreadcrumbs_follows_trail 3 (observer 0 0 5) 2 0 row3 3 1 2).
  - unfold Grid.well_formed. simpl. lia.
  - lia.
  - simpl. lia.
  - reflexivity.
  - apply (Field.settled_hops row3 3 1 2 0 ltac:(lia) [2; 1; 0]).
    + destruct (Field.distance_field_settled row3 3 1
                  ltac:(unfold Grid.well_formed; simpl; lia) 2 0
                  ltac:(lia) 3 ltac:(simpl; lia)) as (dm & Hrun & Hset).
      vm_compute in Hrun. injection Hrun as <-. exact Hset.
    + unfold inb. simpl. lia.
    + reflexivity.
  - vm_compute. discriminate.
Defined.

End Trail.
